(** * Compression workshop: the six encoders of [services/algorithms.ts]

    A shallow embedding of the encoders (RLE, Huffman, LZW, Golomb,
    Arithmetic, Tunstall) and the properties stated about them.

    Conventions of the embedding.
    - A JavaScript string is the list of its UTF-16 code units ([list N]);
      [input[i]], [input.length], [slice] and [startsWith] work on code
      units, whereas [for (const char of input)] walks code points and
      joins a surrogate pair into one two-unit string ([chars_of]).
    - Integer-valued numbers (lengths, counts, sizes, parsed integers) are
      [Z] or [N]; they are exact as long as they stay below 2^53, which
      lengths and sizes always do.  The numbers of the Golomb input can be
      larger: what is stated about their values, quotients and remainders
      is stated for numbers below 2^53 and divisors up to 2^32.
    - Fractional numbers (probabilities, interval bounds, [ratio]) are IEEE
      binary64 values, the primitive [float] type, computed with the same
      operations in the same order as the source.
    - A plain object used as an ordered record ([freqs], [codes],
      [codeMap], [probs]) is an association list kept in the order
      [Object.keys] enumerates it; the LZW dictionary, which is never
      enumerated, is a [gmap]. *)

From Stdlib Require Import ZArith NArith QArith Qround List String Ascii Lia.
From Stdlib Require Import PrimFloat Uint63 Permutation.
From stdpp Require Import gmap list.

Local Open Scope nat_scope.

(* ===================================================================== *)
(** * Strings                                                            *)
(* ===================================================================== *)

Abbreviation jsstring := (list N).

(** An ASCII literal of the source as a list of code units. *)
Definition js (s : string) : jsstring :=
  List.map N_of_ascii (list_ascii_of_string s).

Fixpoint str_eqb (a b : jsstring) : bool :=
  match a, b with
  | [], [] => true
  | x :: a', y :: b' => N.eqb x y && str_eqb a' b'
  | _, _ => false
  end.

(** [s.startsWith(p)] on the suffix that starts at the current position. *)
Fixpoint starts_with (p s : jsstring) : bool :=
  match p, s with
  | [], _ => true
  | x :: p', y :: s' => N.eqb x y && starts_with p' s'
  | _ :: _, [] => false
  end.

(** Code-unit order, the order of the default [Array.prototype.sort]. *)
Fixpoint str_ltb (a b : jsstring) : bool :=
  match a, b with
  | [], [] => false
  | [], _ :: _ => true
  | _ :: _, [] => false
  | x :: a', y :: b' =>
      if N.ltb x y then true else if N.ltb y x then false else str_ltb a' b'
  end.

Definition digit_char (d : N) : N := (48 + d)%N.

Fixpoint uint_chars (u : Decimal.uint) : jsstring :=
  match u with
  | Decimal.Nil => []
  | Decimal.D0 u' => digit_char 0 :: uint_chars u'
  | Decimal.D1 u' => digit_char 1 :: uint_chars u'
  | Decimal.D2 u' => digit_char 2 :: uint_chars u'
  | Decimal.D3 u' => digit_char 3 :: uint_chars u'
  | Decimal.D4 u' => digit_char 4 :: uint_chars u'
  | Decimal.D5 u' => digit_char 5 :: uint_chars u'
  | Decimal.D6 u' => digit_char 6 :: uint_chars u'
  | Decimal.D7 u' => digit_char 7 :: uint_chars u'
  | Decimal.D8 u' => digit_char 8 :: uint_chars u'
  | Decimal.D9 u' => digit_char 9 :: uint_chars u'
  end.

(** [String(n)] / template interpolation of a non-negative integer. *)
Definition dec (n : N) : jsstring := uint_chars (N.to_uint n).

Fixpoint pos_bits (p : positive) (acc : jsstring) : jsstring :=
  match p with
  | xH => digit_char 1 :: acc
  | xO p' => pos_bits p' (digit_char 0 :: acc)
  | xI p' => pos_bits p' (digit_char 1 :: acc)
  end.

(** [n.toString(2)] for an integer [n]. *)
Definition toString2 (n : Z) : jsstring :=
  match n with
  | Z0 => [digit_char 0]
  | Zpos p => pos_bits p []
  | Zneg p => 45%N :: pos_bits p []
  end.

(** [s.padStart(target, c)]: a target below the length leaves [s] alone. *)
Definition padStart (target : Z) (c : N) (s : jsstring) : jsstring :=
  List.repeat c (Z.to_nat (target - Z.of_nat (List.length s))) ++ s.

(** [c.repeat(n)] for a one-unit string [c]. *)
Definition repeat_char (c : N) (n : Z) : jsstring := List.repeat c (Z.to_nat n).

Definition is_high_surrogate (c : N) : bool := (N.leb 55296 c && N.leb c 56319)%N.
Definition is_low_surrogate (c : N) : bool := (N.leb 56320 c && N.leb c 57343)%N.

(** The strings produced by [for (const char of s)]. *)
Fixpoint chars_of (s : jsstring) : list jsstring :=
  match s with
  | [] => []
  | c :: rest =>
      match rest with
      | d :: rest' =>
          if is_high_surrogate c && is_low_surrogate d
          then [c; d] :: chars_of rest'
          else [c] :: chars_of rest
      | [] => [[c]]
      end
  end.

(* ===================================================================== *)
(** * Numbers                                                            *)
(* ===================================================================== *)

(** An integer below 2^53 read as a double. *)
Definition num (z : Z) : float := PrimFloat.of_uint63 (Uint63.of_Z z).

(** [(1 - compressedSize / originalSize) * 100]. *)
Definition ratio_of (compressedSize originalSize : Z) : float :=
  PrimFloat.mul
    (PrimFloat.sub 1%float (PrimFloat.div (num compressedSize) (num originalSize)))
    100%float.

(** A stable sort under a comparator, as [Array.prototype.sort] is;
    [after a b] says that the comparator is positive on [(a, b)], so that
    [a] has to move behind [b].  The comparators of the source compare one
    number per element (a count, a probability, a length), and for such a
    comparator every stable sort returns the same list. *)
Section StableSort.
Context {A : Type} (after : A -> A -> bool).

Fixpoint sort_insert (x : A) (l : list A) : list A :=
  match l with
  | [] => [x]
  | y :: l' => if after x y then y :: sort_insert x l' else x :: l
  end.

Definition stable_sort (l : list A) : list A := List.fold_right sort_insert [] l.

End StableSort.

(* ===================================================================== *)
(** * The shared result type                                             *)
(* ===================================================================== *)

Record CompressionResult (Step Dict Tree : Type) := mkResult {
  encoded : jsstring;
  originalSize : Z;
  compressedSize : Z;
  ratio : float;
  steps : list Step;
  dictionary : option Dict;
  tree : option Tree
}.
Arguments mkResult {Step Dict Tree}.
Arguments encoded {Step Dict Tree}.
Arguments originalSize {Step Dict Tree}.
Arguments compressedSize {Step Dict Tree}.
Arguments ratio {Step Dict Tree}.
Arguments steps {Step Dict Tree}.
Arguments dictionary {Step Dict Tree}.
Arguments tree {Step Dict Tree}.

(** [{ encoded: '', originalSize: 0, compressedSize: 0, ratio: 0, steps: [] }] *)
Definition zero_result {Step Dict Tree : Type} : CompressionResult Step Dict Tree :=
  mkResult [] 0%Z 0%Z 0%float [] None None.

(* ===================================================================== *)
(** * RLE                                                                *)
(* ===================================================================== *)

Module RLE.

Record Step := mkStep { char : jsstring; count : N; code : jsstring }.

(** The body of the [for] loop, from position [i] on; [s] is the input
    from [input[i]] on, so [input[i + 1]] is the second unit of [s]. *)
Fixpoint loop (s : jsstring) (count : N) (encoded : jsstring) (steps : list Step)
  : jsstring * list Step :=
  match s with
  | [] => (encoded, steps)
  | c :: rest =>
      let same := match rest with d :: _ => N.eqb c d | [] => false end in
      if same then loop rest (count + 1)%N encoded steps
      else
        let code := dec count ++ [c] in
        loop rest 1%N (encoded ++ code) (steps ++ [mkStep [c] count code])
  end.

Definition compressRLE (input : jsstring) : CompressionResult Step unit unit :=
  match input with
  | [] => zero_result
  | _ :: _ =>
      let '(encoded, steps) := loop input 1%N [] [] in
      let originalSize := (Z.of_nat (List.length input) * 8)%Z in
      let compressedSize := (Z.of_nat (List.length steps) * 16)%Z in
      mkResult encoded originalSize compressedSize
               (ratio_of compressedSize originalSize) steps None None
  end.

End RLE.


(* ===================================================================== *)
(** * Plain objects with enumerable keys                                 *)
(* ===================================================================== *)

(** [Object.keys] and [Object.entries] list the keys that are array
    indices (the canonical decimal strings of 0 .. 2^32 - 2) first, in
    ascending numeric order, and the other keys after them in the order
    they were created.  The association list is kept in that order. *)
Abbreviation obj V := (list (jsstring * V)).

Definition digit_val (c : N) : option N :=
  if (N.leb 48 c && N.leb c 57)%N then Some (c - 48)%N else None.

Fixpoint digits_val (s : jsstring) (acc : N) : option N :=
  match s with
  | [] => Some acc
  | c :: s' =>
      match digit_val c with
      | Some d => digits_val s' (acc * 10 + d)%N
      | None => None
      end
  end.

Definition array_index (k : jsstring) : option N :=
  match digits_val k 0%N with
  | Some n => if (N.ltb n 4294967295 && str_eqb (dec n) k)%N then Some n else None
  | None => None
  end.

Fixpoint obj_get {V} (k : jsstring) (o : obj V) : option V :=
  match o with
  | [] => None
  | (k', v) :: o' => if str_eqb k k' then Some v else obj_get k o'
  end.

Fixpoint obj_replace {V} (k : jsstring) (v : V) (o : obj V) : obj V :=
  match o with
  | [] => []
  | (k', v') :: o' =>
      if str_eqb k k' then (k', v) :: o' else (k', v') :: obj_replace k v o'
  end.

Fixpoint obj_insert_index {V} (n : N) (k : jsstring) (v : V) (o : obj V) : obj V :=
  match o with
  | [] => [(k, v)]
  | (k', v') :: o' =>
      match array_index k' with
      | Some n' =>
          if N.ltb n' n then (k', v') :: obj_insert_index n k v o'
          else (k, v) :: o
      | None => (k, v) :: o
      end
  end.

(** [o[k] = v].  The keys written by the source are single characters and
    Tunstall sequences; none of them is [__proto__], the one key whose
    assignment does not create a property (a Tunstall sequence of that
    length needs an alphabet of at most 2 symbols, the word has 5). *)
Definition obj_set {V} (k : jsstring) (v : V) (o : obj V) : obj V :=
  match obj_get k o with
  | Some _ => obj_replace k v o
  | None =>
      match array_index k with
      | Some n => obj_insert_index n k v o
      | None => o ++ [(k, v)]
      end
  end.

Definition obj_keys {V} (o : obj V) : list jsstring := List.map fst o.

(** [freqs[char] = (freqs[char] || 0) + 1] *)
Definition bump (freqs : obj N) (char : jsstring) : obj N :=
  obj_set char (match obj_get char freqs with Some n => n | None => 0 end + 1)%N freqs.

(** [for (const char of text) freqs[char] = ...], from the empty object. *)
Definition count_freqs (chars : list jsstring) : obj N := List.fold_left bump chars [].

(** A looked-up string spliced into another one; a missing key reads as
    [undefined] and is spliced as that word. *)
Definition or_undefined (v : option jsstring) : jsstring :=
  match v with Some s => s | None => js "undefined" end.

Fixpoint mapi_from {A B} (i : N) (f : A -> N -> B) (l : list A) : list B :=
  match l with
  | [] => []
  | x :: l' => f x i :: mapi_from (i + 1)%N f l'
  end.

(* ===================================================================== *)
(** * Huffman                                                            *)
(* ===================================================================== *)

Module Huffman.

(** [HuffmanNode]: a leaf has [char] and no children, an internal node
    has [char: null] and both children. *)
Inductive HuffmanNode :=
| Leaf (char : jsstring) (freq : N) (id : jsstring)
| Internal (freq : N) (left right : HuffmanNode) (id : jsstring).

Definition freq (n : HuffmanNode) : N :=
  match n with Leaf _ f _ => f | Internal f _ _ _ => f end.

Record Step := mkStep { char : jsstring; code : jsstring; step_freq : option N }.

Definition leaf_of (entry : jsstring * N) (idx : N) : HuffmanNode :=
  Leaf (fst entry) (snd entry) (js "leaf-" ++ fst entry ++ js "-" ++ dec idx).

(** [(a, b) => a.freq - b.freq] is positive. *)
Definition by_freq (a b : HuffmanNode) : bool := N.ltb (freq b) (freq a).

(** [while (nodes.length > 1) { sort; shift; shift; push }]; [None] when
    the iteration budget runs out before the loop condition fails. *)
Fixpoint build (fuel : nat) (nodes : list HuffmanNode) (internalIdCounter : N)
  : option (list HuffmanNode) :=
  if Nat.ltb 1 (List.length nodes) then
    match fuel with
    | O => None
    | S fuel' =>
        match stable_sort by_freq nodes with
        | left' :: right' :: rest =>
            let newNode :=
              Internal (freq left' + freq right')%N left' right'
                       (js "internal-" ++ dec internalIdCounter) in
            build fuel' (rest ++ [newNode]) (internalIdCounter + 1)%N
        | _ => None
        end
    end
  else Some nodes.

(** [generateCodes(node, code)], threading the [codes] object it fills.
    The [!node] guard is never taken: an internal node has both children. *)
Fixpoint generateCodes (node : HuffmanNode) (code : jsstring) (codes : obj jsstring)
  : obj jsstring :=
  match node with
  | Leaf char _ _ => obj_set char code codes
  | Internal _ left' right' _ =>
      generateCodes right' (code ++ js "1") (generateCodes left' (code ++ js "0") codes)
  end.

Definition encode (codes : obj jsstring) (chars : list jsstring) : jsstring :=
  List.fold_left (fun encoded char => encoded ++ or_undefined (obj_get char codes)) chars [].

(** The code table and the root; [None] if the merge loop does not end.
    A single node is always a leaf, and no list of nodes is empty. *)
Definition code_table (freqs : obj N) : option (obj jsstring * option HuffmanNode) :=
  let nodes := mapi_from 0%N leaf_of freqs in
  match nodes with
  | [n] =>
      match n with
      | Leaf char _ _ => Some (obj_set char (js "0") [], Some n)
      | Internal _ _ _ _ => None
      end
  | _ =>
      match build (List.length nodes) nodes 0%N with
      | Some nodes' =>
          match nodes' with
          | root :: _ => Some (generateCodes root [] [], Some root)
          | [] => Some ([], None)
          end
      | None => None
      end
  end.

Definition compressHuffman (input : jsstring)
  : option (CompressionResult Step (obj jsstring) HuffmanNode) :=
  match input with
  | [] => Some zero_result
  | _ :: _ =>
      let freqs := count_freqs (chars_of input) in
      match code_table freqs with
      | Some (codes, root) =>
          let encoded := encode codes (chars_of input) in
          let originalSize := (Z.of_nat (List.length input) * 8)%Z in
          let compressedSize := Z.of_nat (List.length encoded) in
          Some (mkResult encoded originalSize compressedSize
                  (ratio_of compressedSize originalSize)
                  (List.map (fun e => mkStep (fst e) (snd e) (obj_get (fst e) freqs)) codes)
                  (Some codes) root)
      | None => None
      end
  end.

End Huffman.

(* ===================================================================== *)
(** * LZW                                                                *)
(* ===================================================================== *)

Module LZW.

(** [newCode] is a number, or the string ["-"] in the final step. *)
Record Step := mkStep {
  step : N; w : jsstring; k : jsstring; output : option N;
  addedToDict : jsstring; newCode : N + jsstring
}.

(** [for (i = 0; i < 256; i++) dictionary[String.fromCharCode(i)] = i] *)
Definition seed : gmap (list N) N :=
  List.fold_left (fun d i => <[ [N.of_nat i] := N.of_nat i ]> d) (List.seq 0 256) ∅.

(** [dictionary[wc] = v].  Assigning a number to the key [__proto__] of a
    plain object goes to the inherited setter, which ignores it: no own
    property is created. *)
Definition dict_set (wc : jsstring) (v : N) (d : gmap (list N) N) : gmap (list N) N :=
  if str_eqb wc (js "__proto__") then d else <[ wc := v ]> d.

(** [dictionary.hasOwnProperty(wc)].  The method is found through the
    prototype as long as the dictionary has no own key [hasOwnProperty];
    once that key has been inserted the name denotes a number, and the call
    throws a TypeError: [None]. *)
Definition has_own (wc : jsstring) (d : gmap (list N) N) : option bool :=
  match d !! js "hasOwnProperty" with
  | Some _ => None
  | None => Some (match d !! wc with Some _ => true | None => false end)
  end.

(** [dictionary[w]]: [None] is [undefined].  The keys read are the empty
    string, one-unit strings and own keys (see [lzw_w_invariant]); none of
    the first two is a property of [Object.prototype]. *)
Definition dict_get (w : jsstring) (d : gmap (list N) N) : option N := d !! w.

Record State := mkState {
  st_dictionary : gmap (list N) N;
  st_w : jsstring;
  st_result : list (option N);
  st_steps : list Step;
  st_dictSize : N
}.

(** One iteration of the [for] loop; [None] when it throws. *)
Definition iter (c : N) (st : State) : option State :=
  let wc := st_w st ++ [c] in
  match has_own wc (st_dictionary st) with
  | None => None
  | Some true =>
      Some (mkState (st_dictionary st) wc (st_result st) (st_steps st) (st_dictSize st))
  | Some false =>
      let out := dict_get (st_w st) (st_dictionary st) in
      Some (mkState (dict_set wc (st_dictSize st) (st_dictionary st))
              [c]
              (st_result st ++ [out])
              (st_steps st ++
                 [mkStep (N.of_nat (List.length (st_steps st)) + 1)%N (st_w st) [c] out wc
                         (inl (st_dictSize st))])
              (st_dictSize st + 1)%N)
  end.

(** The [for] loop: the state it ends in and [true], or the state in which
    an iteration throws and [false]. *)
Fixpoint loop (input : jsstring) (st : State) : State * bool :=
  match input with
  | [] => (st, true)
  | c :: rest =>
      match iter c st with
      | Some st' => loop rest st'
      | None => (st, false)
      end
  end.

(** [if (w !== "") { result.push(dictionary[w]); steps.push(...) }] *)
Definition flush (st : State) : State :=
  match st_w st with
  | [] => st
  | _ :: _ =>
      let out := dict_get (st_w st) (st_dictionary st) in
      mkState (st_dictionary st) (st_w st) (st_result st ++ [out])
              (st_steps st ++
                 [mkStep (N.of_nat (List.length (st_steps st)) + 1)%N (st_w st) (js "EOF")
                         out (js "-") (inr (js "-"))])
              (st_dictSize st)
  end.

Definition run (input : jsstring) : State * bool :=
  let '(st, completed) := loop input (mkState seed [] [] [] 256%N) in
  if completed then (flush st, true) else (st, false).

(** [result.join(" ")]: an [undefined] element is joined as nothing. *)
Fixpoint join (sep : jsstring) (l : list jsstring) : jsstring :=
  match l with
  | [] => []
  | [x] => x
  | x :: l' => x ++ sep ++ join sep l'
  end.

Definition code_text (o : option N) : jsstring :=
  match o with Some n => dec n | None => [] end.

(** [None] when the call throws. *)
Definition compressLZW (input : jsstring) : option (CompressionResult Step unit unit) :=
  match input with
  | [] => Some zero_result
  | _ :: _ =>
      let '(st, completed) := run input in
      if completed then
        let originalSize := (Z.of_nat (List.length input) * 8)%Z in
        let compressedSize := (Z.of_nat (List.length (st_result st)) * 12)%Z in
        Some (mkResult (join (js " ") (List.map code_text (st_result st)))
                originalSize compressedSize (ratio_of compressedSize originalSize)
                (st_steps st) None None)
      else None
  end.

End LZW.

(* ===================================================================== *)
(** * Golomb                                                             *)
(* ===================================================================== *)

Module Golomb.

(** The class [\s] of a regular expression, which is also the white space
    that [parseInt] skips. *)
Definition is_space (c : N) : bool :=
  (N.leb 9 c && N.leb c 13 || N.eqb c 32 || N.eqb c 160 || N.eqb c 5760
   || N.leb 8192 c && N.leb c 8202 || N.eqb c 8232 || N.eqb c 8233
   || N.eqb c 8239 || N.eqb c 8287 || N.eqb c 12288 || N.eqb c 65279)%N.

(** The class [[\s,]]. *)
Definition is_separator (c : N) : bool := is_space c || N.eqb c 44.

(** [s.split(/[\s,]+/)]: the pieces between the maximal runs of
    separators; a run at either end leaves an empty piece there, and the
    empty string gives one empty piece.  [cur] is the piece being read,
    last unit first, and [in_run] says that the previous unit was a
    separator. *)
Fixpoint split_from (cur : jsstring) (in_run : bool) (s : jsstring) : list jsstring :=
  match s with
  | [] => [List.rev cur]
  | c :: s' =>
      if is_separator c then
        if in_run then split_from [] true s'
        else List.rev cur :: split_from [] true s'
      else split_from (c :: cur) false s'
  end.

Definition split (s : jsstring) : list jsstring := split_from [] false s.

Fixpoint skip_space (s : jsstring) : jsstring :=
  match s with
  | c :: s' => if is_space c then skip_space s' else s
  | [] => []
  end.

(** The value of a digit in radix [R], if it is one. *)
Definition radix_digit (R : N) (c : N) : option N :=
  let v :=
    if (N.leb 48 c && N.leb c 57)%N then Some (c - 48)%N
    else if (N.leb 97 c && N.leb c 122)%N then Some (c - 87)%N
    else if (N.leb 65 c && N.leb c 90)%N then Some (c - 55)%N
    else None in
  match v with
  | Some d => if N.ltb d R then Some d else None
  | None => None
  end.

(** The longest prefix of radix-[R] digits: whether it is non-empty, and
    its value. *)
Fixpoint read_digits (R : N) (s : jsstring) (seen : bool) (acc : N) : option N :=
  match s with
  | c :: s' =>
      match radix_digit R c with
      | Some d => read_digits R s' true (acc * R + d)%N
      | None => if seen then Some acc else None
      end
  | [] => if seen then Some acc else None
  end.

(** [parseInt(s)] without a radix; [None] is [NaN].  The value is the exact
    integer the digits spell.  That is the number of the source as long as
    it is below 2^53; from there on the source has the nearest binary64
    value (and [Infinity] beyond the binary64 range), which this
    definition does not follow: statements about the value of a parsed
    number are made for numbers below 2^53 ([exact_number]).  [-0] is [0]. *)
Definition parseInt (s : jsstring) : option Z :=
  let s1 := skip_space s in
  let '(sign, s2) :=
    match s1 with
    | 45%N :: t => ((-1)%Z, t)
    | 43%N :: t => (1%Z, t)
    | _ => (1%Z, s1)
    end in
  let '(R, s3) :=
    match s2 with
    | 48%N :: x :: t => if (N.eqb x 120 || N.eqb x 88)%N then (16%N, t) else (10%N, s2)
    | _ => (10%N, s2)
    end in
  match read_digits R s3 false 0%N with
  | Some v => Some (sign * Z.of_N v)%Z
  | None => None
  end.

(** [n => !isNaN(n) && n >= 0] *)
Definition valid (n : option Z) : bool :=
  match n with Some z => Z.leb 0 z | None => false end.

Definition value (n : option Z) : Z := match n with Some z => z | None => 0%Z end.

(** [inputStr.split(/[\s,]+/).map(n => parseInt(n)).filter(...)] *)
Definition parse_numbers (inputStr : jsstring) : list Z :=
  List.map value (List.filter valid (List.map parseInt (split inputStr))).

Record Step := mkStep {
  number : Z; q : Z; r : Z; unary : jsstring; binary : jsstring; code : jsstring
}.

(** [Math.max(1, Math.floor(mParam))] for a finite [mParam]; every finite
    double is a rational. *)
Definition divisor (mParam : Q) : Z := Z.max 1 (Qfloor mParam).

(** [Math.ceil(Math.log2(M))], as the exact value.  For a divisor of at
    most 2^32 the logarithm is an integer or differs from one by more than
    2^-33, so that the rounding of [Math.log2] cannot change the result;
    for larger divisors it can (the source has [b = 49] for [M = 2^49 + 1]),
    and statements about [b] are made for divisors up to 2^32
    ([exact_divisor]) or for powers of two. *)
Definition bits (M : Z) : Z := Z.log2_up M.

(** [Math.pow(2, b) - M] *)
Definition cutoff (M : Z) : Z := (2 ^ bits M - M)%Z.

(** The body of [for (const n of numbers)], in integer arithmetic.  The
    source computes [Math.floor(n / M)], [n % M] and [r + cutoff] in
    binary64; these are the integer results whenever [n] is below 2^53 and
    [M] at most 2^32 (the quotient cannot round up to the next integer, the
    remainder is exact, and [r + cutoff < 2 * M]); beyond that range the
    source rounds and this definition does not.  Where ["1".repeat(q)] or
    a concatenation would exceed the maximal string length the source
    throws a [RangeError] and returns nothing; the definition describes the
    calls that return. *)
Definition encode_number (M : Z) (n : Z) : Step :=
  let b := bits M in
  let q := (n / M)%Z in
  let r := (n mod M)%Z in
  let unary := repeat_char (digit_char 1) q ++ js "0" in
  let binary :=
    if Z.eqb M 1 then []
    else if Z.ltb r (cutoff M) then padStart (b - 1) (digit_char 0) (toString2 r)
    else padStart b (digit_char 0) (toString2 (r + cutoff M)) in
  mkStep n q r unary binary (unary ++ binary).

Definition loop (M : Z) (numbers : list Z) : jsstring * list Step :=
  List.fold_left
    (fun acc n =>
       let s := encode_number M n in
       (fst acc ++ code s, snd acc ++ [s]))
    numbers ([], []).

Definition compressGolomb (inputStr : jsstring) (mParam : Q)
  : CompressionResult Step unit unit :=
  let numbers := parse_numbers inputStr in
  match numbers with
  | [] => zero_result
  | _ :: _ =>
      let '(encodedStream, steps) := loop (divisor mParam) numbers in
      let originalSize := (Z.of_nat (List.length numbers) * 32)%Z in
      let compressedSize := Z.of_nat (List.length encodedStream) in
      mkResult encodedStream originalSize compressedSize
               (ratio_of compressedSize originalSize) steps None None
  end.


End Golomb.

(* ===================================================================== *)
(** * Arithmetic coding                                                  *)
(* ===================================================================== *)

(** [freqs[char]] read as a number: a missing key is [undefined], which
    arithmetic turns into [NaN]. *)
Definition num_or_undefined (v : option N) : float :=
  match v with Some n => num (Z.of_N n) | None => PrimFloat.nan end.

Module Arithmetic.

Record Interval := mkInterval { start : float; end_ : float; p : float }.

Record Step := mkStep { char : jsstring; low : float; high : float; rangeStr : jsstring }.

(** [(a, b)] are out of order for the default sort when [b < a]. *)
Definition by_code_units (a b : jsstring) : bool := str_ltb b a.

(** [for (const char of sortedChars) { probs[char] = ...; currentStart += p }] *)
Definition build_probs (freqs : obj N) (total : Z) (sortedChars : list jsstring)
  : obj Interval :=
  fst (List.fold_left
         (fun acc char =>
            let '(probs, currentStart) := acc in
            let p := PrimFloat.div (num_or_undefined (obj_get char freqs)) (num total) in
            (obj_set char (mkInterval currentStart (PrimFloat.add currentStart p) p) probs,
             PrimFloat.add currentStart p))
         sortedChars ([], 0%float)).

Section Builtins.
(** [x.toFixed(d)], [Math.log2] and [Math.ceil] (the latter read as an
    integer) are taken from the host. *)
Variable toFixed : float -> nat -> jsstring.
Variable Math_log2 : float -> float.
Variable Math_ceil : float -> Z.

(** The narrowing loop; [None] stands for the [TypeError] of reading
    [.end] of a missing [probs[char]]. *)
Fixpoint narrow (probs : obj Interval) (chars : list jsstring)
    (low high : float) (rangeSteps : list Step)
  : option (float * float * list Step) :=
  match chars with
  | [] => Some (low, high, rangeSteps)
  | char :: chars' =>
      match obj_get char probs with
      | Some iv =>
          let range := PrimFloat.sub high low in
          let newHigh := PrimFloat.add low (PrimFloat.mul range (end_ iv)) in
          let newLow := PrimFloat.add low (PrimFloat.mul range (start iv)) in
          narrow probs chars' newLow newHigh
            (rangeSteps ++
               [mkStep char newLow newHigh
                  (js "[" ++ toFixed newLow 6 ++ js ", " ++ toFixed newHigh 6 ++ js ")")])
      | None => None
      end
  end.

(** [for (const char of sortedChars) entropy -= p * Math.log2(p)] *)
Definition entropy_of (freqs : obj N) (total : Z) (sortedChars : list jsstring) : float :=
  List.fold_left
    (fun entropy char =>
       let p := PrimFloat.div (num_or_undefined (obj_get char freqs)) (num total) in
       PrimFloat.sub entropy (PrimFloat.mul p (Math_log2 p)))
    sortedChars 0%float.

(** [(low + high) / 2] *)
Definition tag_of (low high : float) : float :=
  PrimFloat.div (PrimFloat.add low high) 2%float.

Definition compressArithmetic (input : jsstring)
  : option (CompressionResult Step (obj Interval) unit) :=
  match input with
  | [] => Some zero_result
  | _ :: _ =>
      let safeInput := List.firstn 15 input in
      let isTruncated := Nat.ltb 15 (List.length input) in
      let freqs := count_freqs (chars_of safeInput) in
      let sortedChars := stable_sort by_code_units (obj_keys freqs) in
      let total := Z.of_nat (List.length safeInput) in
      let probs := build_probs freqs total sortedChars in
      match narrow probs (chars_of safeInput) 0%float 1%float [] with
      | Some (low, high, rangeSteps) =>
          let tag := tag_of low high in
          let entropy := entropy_of freqs total sortedChars in
          let theoreticalBits := Math_ceil (PrimFloat.mul (num total) entropy) in
          Some (mkResult
                  (toFixed tag 10 ++ (if isTruncated then js "..." else []))
                  (total * 8)%Z theoreticalBits
                  (ratio_of theoreticalBits (total * 8)%Z)
                  rangeSteps (Some probs) None)
      | None => None
      end
  end.

End Builtins.

End Arithmetic.

(* ===================================================================== *)
(** * Tunstall                                                           *)
(* ===================================================================== *)

Module Tunstall.

Record Entry := mkEntry { seq : jsstring; prob : float }.

Record Step := mkStep { step_seq : jsstring; code : jsstring }.

Definition BIT_WIDTH : Z := 4.
Definition MAX_DICT_SIZE : Z := 2 ^ BIT_WIDTH.

(** [freqs[char] / total] *)
Definition charProb (freqs : obj N) (total : Z) (char : jsstring) : float :=
  PrimFloat.div (num_or_undefined (obj_get char freqs)) (num total).

(** [(a, b) => b.prob - a.prob] is positive. *)
Definition by_prob (a b : Entry) : bool :=
  PrimFloat.ltb 0%float (PrimFloat.sub (prob b) (prob a)).

(** The entries pushed for one removed [best]. *)
Definition expand (freqs : obj N) (total : Z) (alphabet : list jsstring) (best : Entry)
  : list Entry :=
  List.map
    (fun char =>
       mkEntry (seq best ++ char) (PrimFloat.mul (prob best) (charProb freqs total char)))
    alphabet.

(** The growth loop; [None] when the iteration budget runs out while the
    loop condition still holds. *)
Fixpoint grow (fuel : nat) (freqs : obj N) (total : Z) (alphabet : list jsstring)
    (dictionary : list Entry) : option (list Entry) :=
  if Z.leb (Z.of_nat (List.length dictionary) + Z.of_nat (List.length alphabet) - 1)
           MAX_DICT_SIZE
  then
    match fuel with
    | O => None
    | S fuel' =>
        match stable_sort by_prob dictionary with
        | [] => Some []
        | best :: rest => grow fuel' freqs total alphabet (rest ++ expand freqs total alphabet best)
        end
    end
  else Some dictionary.

(** [dictionary.forEach((item, index) => codeMap[item.seq] = ...)] *)
Fixpoint fill_codeMap (index : N) (dictionary : list Entry) (codeMap : obj jsstring)
  : obj jsstring :=
  match dictionary with
  | [] => codeMap
  | item :: rest =>
      fill_codeMap (index + 1)%N rest
        (obj_set (seq item) (padStart BIT_WIDTH (digit_char 0) (toString2 (Z.of_N index)))
                 codeMap)
  end.

(** [(a, b) => b.length - a.length] is positive. *)
Definition by_length (a b : jsstring) : bool := Nat.ltb (List.length a) (List.length b).

(** The tokenizer, on the input from position [i] on; [None] when the
    iteration budget runs out before the end of the input is reached. *)
Fixpoint tokenize (fuel : nat) (sortedKeys : list jsstring) (codeMap : obj jsstring)
    (rest : jsstring) (encoded : jsstring) (steps : list Step)
  : option (jsstring * list Step) :=
  match rest with
  | [] => Some (encoded, steps)
  | char :: _ =>
      match fuel with
      | O => None
      | S fuel' =>
          match List.find (fun seq => starts_with seq rest) sortedKeys with
          | Some seq =>
              let code := or_undefined (obj_get seq codeMap) in
              tokenize fuel' sortedKeys codeMap (List.skipn (List.length seq) rest)
                       (encoded ++ code) (steps ++ [mkStep seq code])
          | None =>
              tokenize fuel' sortedKeys codeMap (List.skipn 1 rest)
                       (encoded ++ js "ERR") (steps ++ [mkStep [char] (js "ERR")])
          end
      end
  end.

(** The dictionary after the growth loop. *)
Definition final_dictionary (fuel : nat) (input : jsstring) : option (list Entry) :=
  let freqs := count_freqs (chars_of input) in
  let alphabet := obj_keys freqs in
  let total := Z.of_nat (List.length input) in
  grow fuel freqs total alphabet
       (List.map (fun char => mkEntry char (charProb freqs total char)) alphabet).

(** [fuel] bounds the iterations of the growth loop; the tokenizer gets one
    iteration per code unit of the input. *)
Definition compressTunstall (fuel : nat) (input : jsstring)
  : option (CompressionResult Step (obj jsstring) unit) :=
  match input with
  | [] => Some zero_result
  | _ :: _ =>
      match final_dictionary fuel input with
      | Some dictionary =>
          let codeMap := fill_codeMap 0%N dictionary [] in
          let sortedKeys := stable_sort by_length (obj_keys codeMap) in
          match tokenize (List.length input) sortedKeys codeMap input [] [] with
          | Some (encoded, steps) =>
              let originalSize := (Z.of_nat (List.length input) * 8)%Z in
              let compressedSize := Z.of_nat (List.length encoded) in
              Some (mkResult encoded originalSize compressedSize
                      (ratio_of compressedSize originalSize) steps (Some codeMap) None)
          | None => None
          end
      | None => None
      end
  end.

End Tunstall.

(* ===================================================================== *)
(** * Predicates used in the statements                                  *)
(* ===================================================================== *)

(** The symbols of a text, in the order [Object.keys(freqs)] lists them. *)
Definition alphabet_of (input : jsstring) : list jsstring :=
  obj_keys (count_freqs (chars_of input)).

(** [a] is a prefix of [b]. *)
Definition is_prefix (a b : jsstring) : Prop := exists t, b = a ++ t.

(** No symbol's code is a prefix of another symbol's code. *)
Definition prefix_free (codes : obj jsstring) : Prop :=
  forall c1 c2 code1 code2,
    obj_get c1 codes = Some code1 ->
    obj_get c2 codes = Some code2 ->
    c1 <> c2 ->
    ~ is_prefix code1 code2.

(** The text has at least two distinct symbols. *)
Definition two_symbols (input : jsstring) : Prop :=
  exists c1 c2, List.In c1 (chars_of input) /\ List.In c2 (chars_of input) /\ c1 <> c2.

(** The assignments [codes[char] = code] that [generateCodes] makes, in
    the order of its walk. *)
Fixpoint assignments (node : Huffman.HuffmanNode) (code : jsstring)
  : list (jsstring * jsstring) :=
  match node with
  | Huffman.Leaf char _ _ => [(char, code)]
  | Huffman.Internal _ left' right' _ =>
      assignments left' (code ++ js "0") ++ assignments right' (code ++ js "1")
  end.

(** The symbols at the leaves of a tree, and of a list of trees. *)
Fixpoint leaves (node : Huffman.HuffmanNode) : list jsstring :=
  match node with
  | Huffman.Leaf char _ _ => [char]
  | Huffman.Internal _ left' right' _ => leaves left' ++ leaves right'
  end.

Definition forest_leaves (nodes : list Huffman.HuffmanNode) : list jsstring :=
  List.flat_map leaves nodes.

(** [codes[k] = v] for each pair of a list, in order. *)
Definition assign_all (l : list (jsstring * jsstring)) (codes : obj jsstring)
  : obj jsstring :=
  List.fold_left (fun o kv => obj_set (fst kv) (snd kv) o) l codes.

(** The number a token of the Golomb input contributes: none when
    [parseInt] gives [NaN] or a negative value. *)
Definition token_number (tok : jsstring) : option Z :=
  match Golomb.parseInt tok with
  | Some n => if Z.leb 0 n then Some n else None
  | None => None
  end.

(** The numbers of the tokens that stand for one, in order. *)
Definition token_numbers (toks : list jsstring) : list Z :=
  List.flat_map (fun tok => match token_number tok with Some n => [n] | None => [] end) toks.














(** The numbers and divisors on which the integer arithmetic of
    [Golomb.encode_number] is the arithmetic of the source: a number below
    2^53 is parsed, divided and reduced exactly in binary64, and for a
    divisor of at most 2^32 the rounding of [Math.log2] cannot change [b]
    and [r + cutoff] stays far below 2^53. *)
Definition exact_number (n : Z) : Prop := (0 <= n < 2 ^ 53)%Z.

Definition exact_divisor (M : Z) : Prop := (1 <= M <= 2 ^ 32)%Z.

(** The calls of [compressGolomb] made of such a divisor and such numbers. *)
Definition golomb_exact (inputStr : jsstring) (mParam : Q) : Prop :=
  exact_divisor (Golomb.divisor mParam)
  /\ Forall exact_number (Golomb.parse_numbers inputStr).

(** The prefix [w] is empty, a single unit, or an own key of the dictionary;
    these are the only keys [dictionary[w]] is read at. *)
Definition lzw_w_ok (st : LZW.State) : Prop :=
  LZW.st_w st = [] \/ List.length (LZW.st_w st) = 1
  \/ is_Some (LZW.st_dictionary st !! LZW.st_w st).

(** The invariant of the scan on byte-range input. *)
Record lzw_inv (st : LZW.State) : Prop := {
  inv_seeded : forall c, (c < 256)%N -> is_Some (LZW.st_dictionary st !! [c]);
  inv_w : LZW.st_w st = [] \/ is_Some (LZW.st_dictionary st !! LZW.st_w st);
  inv_result : Forall is_Some (LZW.st_result st);
  inv_steps : Forall (fun s => is_Some (LZW.output s)) (LZW.st_steps st)
}.

(** Neighbouring elements of a list differ. *)
Fixpoint adjacent_differ {A} (l : list A) : Prop :=
  match l with
  | a :: (b :: _) as t => a <> b /\ adjacent_differ t
  | _ => True
  end.

(** The text a list of runs stands for: each [char] written [count] times. *)
Definition expand_runs (steps : list RLE.Step) : jsstring :=
  List.flat_map
    (fun s => List.concat (List.repeat (RLE.char s) (N.to_nat (RLE.count s)))) steps.

(** [p] occurs in [s] as a contiguous piece. *)
Definition is_substring (p s : jsstring) : Prop := exists a b, s = a ++ p ++ b.

(** What the scan keeps true about codes: the next free code counts the
    insertions, every stored code is below it, no two keys share a code,
    the [i]-th emitted code is below [256 + i], and the [i]-th step
    records the insertion of code [256 + i] as step number [i + 1]. *)
Record lzw_codes_inv (st : LZW.State) : Prop := {
  ci_size : LZW.st_dictSize st = (256 + N.of_nat (List.length (LZW.st_steps st)))%N;
  ci_result : List.length (LZW.st_result st) = List.length (LZW.st_steps st);
  ci_bound : forall k v, LZW.st_dictionary st !! k = Some v -> (v < LZW.st_dictSize st)%N;
  ci_inj : forall k1 k2 v,
      LZW.st_dictionary st !! k1 = Some v -> LZW.st_dictionary st !! k2 = Some v -> k1 = k2;
  ci_emitted : forall i v,
      LZW.st_result st !! i = Some (Some v) -> (v < 256 + N.of_nat i)%N;
  ci_steps : forall i s,
      LZW.st_steps st !! i = Some s ->
      LZW.newCode s = inl (256 + N.of_nat i)%N /\ LZW.step s = (N.of_nat i + 1)%N
}.

(** A unit is one of the digits ['0'] and ['1']. *)
Definition is_bit (c : N) : Prop := c = digit_char 0 \/ c = digit_char 1.

(** The number a string of binary digits stands for. *)
Definition bin_value (s : jsstring) : Z :=
  List.fold_left (fun acc c => 2 * acc + (Z.of_N c - 48))%Z s 0%Z.

(** The length of the binary part of a Golomb codeword for remainder [r]. *)
Definition binary_length (M r : Z) : Z :=
  if Z.eqb M 1 then 0%Z
  else if Z.ltb r (Golomb.cutoff M) then (Golomb.bits M - 1)%Z
  else Golomb.bits M.

(** How often a symbol occurs in a text. *)
Definition occurrences (c : jsstring) (chars : list jsstring) : N :=
  N.of_nat (List.length (List.filter (str_eqb c) chars)).

(** The sum of the counts of a frequency table. *)
Definition sum_values (o : obj N) : N := List.fold_right (fun e acc => snd e + acc)%N 0%N o.

(** The symbols and frequencies at the leaves of a tree, left to right. *)
Fixpoint leaf_entries (node : Huffman.HuffmanNode) : obj N :=
  match node with
  | Huffman.Leaf char f _ => [(char, f)]
  | Huffman.Internal _ left' right' _ => leaf_entries left' ++ leaf_entries right'
  end.

(** Every internal node carries the sum of the frequencies of its children. *)
Fixpoint tree_ok (node : Huffman.HuffmanNode) : Prop :=
  match node with
  | Huffman.Leaf _ _ _ => True
  | Huffman.Internal f left' right' _ =>
      f = (Huffman.freq left' + Huffman.freq right')%N /\ tree_ok left' /\ tree_ok right'
  end.

(** The intervals of the arithmetic table in the order they are assigned:
    each starts where the previous one ends. *)
Fixpoint intervals_from (freqs : obj N) (total : Z) (chars : list jsstring) (start : float)
  : obj Arithmetic.Interval :=
  match chars with
  | [] => []
  | c :: rest =>
      let p := PrimFloat.div (num_or_undefined (obj_get c freqs)) (num total) in
      (c, Arithmetic.mkInterval start (PrimFloat.add start p) p)
        :: intervals_from freqs total rest (PrimFloat.add start p)
  end.

(** A list of intervals is a chain from [s]: the first starts at [s], each
    ends at its start plus its width, and the next starts at that end. *)
Fixpoint chained (l : obj Arithmetic.Interval) (s : float) : Prop :=
  match l with
  | [] => True
  | (_, iv) :: rest =>
      Arithmetic.start iv = s
      /\ Arithmetic.end_ iv = PrimFloat.add s (Arithmetic.p iv)
      /\ chained rest (Arithmetic.end_ iv)
  end.

(** The result of the arithmetic coder with the truncation mark appended. *)
Definition mark_truncated
    (r : CompressionResult Arithmetic.Step (obj Arithmetic.Interval) unit)
  : CompressionResult Arithmetic.Step (obj Arithmetic.Interval) unit :=
  mkResult (encoded r ++ js "...") (originalSize r) (compressedSize r) (ratio r)
           (steps r) (dictionary r) (tree r).

(** The code still owed for the pending prefix of the LZW scan. *)
Definition pending (st : LZW.State) : nat :=
  match LZW.st_w st with [] => 0 | _ :: _ => 1 end.

(** [a] is a prefix of [b] and shorter. *)
Definition proper_prefix (a b : jsstring) : Prop := exists t, t <> [] /\ b = a ++ t.

(** The sequences are distinct and none is a prefix of another. *)
Definition prefix_code (seqs : list jsstring) : Prop :=
  List.NoDup seqs /\ forall s t, List.In s seqs -> List.In t seqs -> is_prefix s t -> s = t.

(** Every text over the alphabet starts with one of the sequences, or
    stops inside one. *)
Definition complete_code (alphabet seqs : list jsstring) : Prop :=
  forall text,
    Forall (fun u => List.In [u] alphabet) text ->
    (exists s, List.In s seqs /\ is_prefix s text)
    \/ (exists s, List.In s seqs /\ proper_prefix text s).

(** The steps [new] tokenize the text [rest]: each step takes its sequence
    off the front; a step with a dictionary sequence carries a binary code,
    any other step carries ["ERR"] and stands where the rest of the text
    stops inside a dictionary sequence. *)
Fixpoint trace_ok (seqs : list jsstring) (new : list Tunstall.Step) (rest : jsstring) : Prop :=
  match new with
  | [] => rest = []
  | s :: new' =>
      exists rest',
        rest = Tunstall.step_seq s ++ rest'
        /\ ((List.In (Tunstall.step_seq s) seqs /\ Forall is_bit (Tunstall.code s))
            \/ (Tunstall.code s = js "ERR"
                /\ exists k, List.In k seqs /\ proper_prefix rest k))
        /\ trace_ok seqs new' rest'
  end.

(* ===================================================================== *)
(** * Properties                                                         *)
(* ===================================================================== *)

(** ** Plain objects: reading after writing *)

Lemma str_eqb_eq (a b : jsstring) : str_eqb a b = true <-> a = b.
Proof.
  revert b. induction a as [|x a IH]; intros [|y b]; simpl; split; intros H;
    try reflexivity; try discriminate.
  - apply andb_prop in H as [Hx Hab]. apply N.eqb_eq in Hx. apply IH in Hab. congruence.
  - inversion H; subst. rewrite N.eqb_refl. simpl. now apply IH.
Qed.

Lemma str_eqb_refl (a : jsstring) : str_eqb a a = true.
Proof. now apply str_eqb_eq. Qed.

Lemma str_eqb_neq (a b : jsstring) : a <> b -> str_eqb a b = false.
Proof.
  intros H. destruct (str_eqb a b) eqn:E; [|reflexivity].
  apply str_eqb_eq in E. contradiction.
Qed.

Section ObjFacts.
Context {V : Type}.
Implicit Types (o : obj V) (k : jsstring) (v : V).

Lemma obj_get_None_keys k o : obj_get k o = None <-> ~ List.In k (obj_keys o).
Proof.
  induction o as [|[k' v'] o IH]; simpl; [tauto|].
  destruct (str_eqb k k') eqn:E.
  - apply str_eqb_eq in E. subst. split; [discriminate|]. intros H. exfalso. auto.
  - split.
    + intros H [Heq|Hin]; [|now apply IH in H].
      subst. rewrite str_eqb_refl in E. discriminate.
    + intros H. apply IH. tauto.
Qed.

Lemma obj_get_Some_keys k o v : obj_get k o = Some v -> List.In k (obj_keys o).
Proof.
  induction o as [|[k' v'] o IH]; simpl; [discriminate|].
  destruct (str_eqb k k') eqn:E; [|now right; apply IH].
  apply str_eqb_eq in E. now left.
Qed.

Lemma obj_keys_replace k v o : obj_keys (obj_replace k v o) = obj_keys o.
Proof.
  induction o as [|[k' v'] o IH]; simpl; [reflexivity|].
  destruct (str_eqb k k'); simpl; [reflexivity|]. now rewrite IH.
Qed.

Lemma obj_keys_insert_index n k v o :
  Permutation (k :: obj_keys o) (obj_keys (obj_insert_index n k v o)).
Proof.
  induction o as [|[k' v'] o IH]; simpl; [reflexivity|].
  destruct (array_index k') as [n'|]; [|reflexivity].
  destruct (N.ltb n' n); [|reflexivity].
  simpl. rewrite perm_swap. now apply perm_skip.
Qed.

Lemma obj_keys_set k v o :
  Permutation (obj_keys (obj_set k v o))
              (match obj_get k o with Some _ => obj_keys o | None => k :: obj_keys o end).
Proof.
  unfold obj_set. destruct (obj_get k o).
  - now rewrite obj_keys_replace.
  - destruct (array_index k).
    + symmetry. apply obj_keys_insert_index.
    + unfold obj_keys. rewrite List.map_app. simpl.
      symmetry. apply Permutation_cons_append.
Qed.

Lemma obj_keys_set_in k v o k' :
  List.In k' (obj_keys (obj_set k v o)) <-> k' = k \/ List.In k' (obj_keys o).
Proof.
  pose proof (obj_keys_set k v o) as HP.
  destruct (obj_get k o) eqn:E.
  - split.
    + intros H. right. eapply Permutation_in; [exact HP|exact H].
    + intros [->|H]; (eapply Permutation_in; [symmetry; exact HP|]);
        [eapply obj_get_Some_keys; exact E|exact H].
  - split.
    + intros H. eapply Permutation_in in H; [|exact HP]. simpl in H. intuition auto.
    + intros H. eapply Permutation_in; [symmetry; exact HP|]. simpl. intuition auto.
Qed.

Lemma obj_keys_set_NoDup k v o :
  List.NoDup (obj_keys o) -> List.NoDup (obj_keys (obj_set k v o)).
Proof.
  intros H. pose proof (obj_keys_set k v o) as HP.
  eapply Permutation_NoDup; [symmetry; exact HP|].
  destruct (obj_get k o) eqn:E; [exact H|].
  constructor; [|exact H]. now apply obj_get_None_keys.
Qed.

Lemma obj_get_replace_eq k v o :
  List.In k (obj_keys o) -> obj_get k (obj_replace k v o) = Some v.
Proof.
  induction o as [|[k' v'] o IH]; simpl; [tauto|].
  intros Hin. destruct (str_eqb k k') eqn:E; simpl; rewrite E; [reflexivity|].
  apply IH. destruct Hin as [Heq|Hin]; [|exact Hin].
  subst. rewrite str_eqb_refl in E. discriminate.
Qed.

Lemma obj_get_replace_ne k v o k' :
  k' <> k -> obj_get k' (obj_replace k v o) = obj_get k' o.
Proof.
  intros Hne. induction o as [|[k'' v''] o IH]; simpl; [reflexivity|].
  destruct (str_eqb k k'') eqn:E; simpl.
  - apply str_eqb_eq in E. subst. now rewrite (str_eqb_neq k' k'').
  - now rewrite IH.
Qed.

Lemma obj_get_insert_index_eq n k v o :
  obj_get k o = None -> obj_get k (obj_insert_index n k v o) = Some v.
Proof.
  induction o as [|[k' v'] o IH]; simpl; [now rewrite str_eqb_refl|].
  destruct (str_eqb k k') eqn:E; [discriminate|]. intros Hnone.
  destruct (array_index k') as [n'|]; [|simpl; now rewrite str_eqb_refl].
  destruct (N.ltb n' n); simpl; [|now rewrite str_eqb_refl].
  rewrite E. now apply IH.
Qed.

Lemma obj_get_insert_index_ne n k v o k' :
  k' <> k -> obj_get k' (obj_insert_index n k v o) = obj_get k' o.
Proof.
  intros Hne. induction o as [|[k'' v''] o IH]; simpl.
  - now rewrite (str_eqb_neq k' k).
  - destruct (array_index k'') as [n'|]; [|simpl; now rewrite (str_eqb_neq k' k)].
    destruct (N.ltb n' n); simpl; [|now rewrite (str_eqb_neq k' k)].
    now rewrite IH.
Qed.

Lemma obj_get_app_ne k v o k' :
  k' <> k -> obj_get k' (o ++ [(k, v)]) = obj_get k' o.
Proof.
  intros Hne. induction o as [|[k'' v''] o IH]; simpl.
  - now rewrite (str_eqb_neq k' k).
  - now rewrite IH.
Qed.

Lemma obj_get_app_eq k v o :
  obj_get k o = None -> obj_get k (o ++ [(k, v)]) = Some v.
Proof.
  induction o as [|[k' v'] o IH]; simpl; [now rewrite str_eqb_refl|].
  destruct (str_eqb k k'); [discriminate|exact IH].
Qed.

Lemma obj_get_set_eq k v o : obj_get k (obj_set k v o) = Some v.
Proof.
  unfold obj_set. destruct (obj_get k o) eqn:E.
  - apply obj_get_replace_eq. eapply obj_get_Some_keys; exact E.
  - destruct (array_index k).
    + now apply obj_get_insert_index_eq.
    + now apply obj_get_app_eq.
Qed.

Lemma obj_get_set_ne k v o k' : k' <> k -> obj_get k' (obj_set k v o) = obj_get k' o.
Proof.
  intros Hne. unfold obj_set. destruct (obj_get k o).
  - now apply obj_get_replace_ne.
  - destruct (array_index k).
    + now apply obj_get_insert_index_ne.
    + now apply obj_get_app_ne.
Qed.

End ObjFacts.

(** ** Sorting keeps the elements *)

Section StableSortFacts.
Context {A : Type} (after : A -> A -> bool).

Lemma sort_insert_perm x l : Permutation (x :: l) (sort_insert after x l).
Proof.
  induction l as [|y l IH]; simpl; [reflexivity|].
  destruct (after x y); [|reflexivity].
  rewrite perm_swap. now apply perm_skip.
Qed.

Lemma stable_sort_perm l : Permutation l (stable_sort after l).
Proof.
  induction l as [|x l IH]; simpl; [constructor|].
  etransitivity; [apply perm_skip, IH|apply sort_insert_perm].
Qed.

Lemma stable_sort_length l : List.length (stable_sort after l) = List.length l.
Proof. symmetry. apply Permutation_length, stable_sort_perm. Qed.

End StableSortFacts.

(** ** Characters and frequency tables *)

Lemma chars_of_nonempty_aux s :
  Forall (fun c => c <> []) (chars_of s)
  /\ forall c, Forall (fun c => c <> []) (chars_of (c :: s)).
Proof.
  induction s as [|d s [IH1 IH2]].
  - split; [constructor|]. intros c. simpl. repeat constructor. discriminate.
  - split; [apply IH2|]. intros c. simpl.
    destruct (is_high_surrogate c && is_low_surrogate d).
    + constructor; [discriminate|exact IH1].
    + constructor; [discriminate|apply IH2].
Qed.

Lemma chars_of_nonempty s : Forall (fun c => c <> []) (chars_of s).
Proof. apply chars_of_nonempty_aux. Qed.

Lemma fold_bump_keys chars : forall acc k,
  List.In k (obj_keys (List.fold_left bump chars acc))
  <-> List.In k chars \/ List.In k (obj_keys acc).
Proof.
  induction chars as [|c chars IH]; intros acc k; simpl; [tauto|].
  rewrite IH. unfold bump. rewrite obj_keys_set_in. intuition auto.
Qed.

Lemma fold_bump_NoDup chars : forall acc,
  List.NoDup (obj_keys acc) -> List.NoDup (obj_keys (List.fold_left bump chars acc)).
Proof.
  induction chars as [|c chars IH]; intros acc H; simpl; [exact H|].
  apply IH. unfold bump. now apply obj_keys_set_NoDup.
Qed.

Lemma alphabet_of_in input k : List.In k (alphabet_of input) <-> List.In k (chars_of input).
Proof.
  unfold alphabet_of, count_freqs. rewrite fold_bump_keys. simpl. tauto.
Qed.

Lemma alphabet_of_NoDup input : List.NoDup (alphabet_of input).
Proof. apply fold_bump_NoDup. constructor. Qed.

Lemma alphabet_of_nonempty input : Forall (fun c => c <> []) (alphabet_of input).
Proof.
  apply List.Forall_forall. intros k Hk. apply alphabet_of_in in Hk.
  pose proof (chars_of_nonempty input) as H.
  rewrite List.Forall_forall in H. now apply H.
Qed.

(** ** Worked examples *)

(** C9: [compressRLE] on ["AAAAAAABBBCCDDDDDDEEE"] records the five runs
    (A,7), (B,3), (C,2), (D,6), (E,3) in order, encodes ["7A3B2C6D3E"],
    and accounts 80 compressed bits (16 per run) against 168 original bits
    (8 per character). *)
Theorem rle_worked_example :
  let r := RLE.compressRLE (js "AAAAAAABBBCCDDDDDDEEE") in
  steps r = [RLE.mkStep (js "A") 7 (js "7A"); RLE.mkStep (js "B") 3 (js "3B");
             RLE.mkStep (js "C") 2 (js "2C"); RLE.mkStep (js "D") 6 (js "6D");
             RLE.mkStep (js "E") 3 (js "3E")]
  /\ encoded r = js "7A3B2C6D3E"
  /\ compressedSize r = 80%Z
  /\ compressedSize r = (Z.of_nat (List.length (steps r)) * 16)%Z
  /\ originalSize r = 168%Z
  /\ originalSize r = (Z.of_nat (List.length (js "AAAAAAABBBCCDDDDDDEEE")) * 8)%Z.
Proof. vm_compute. repeat split; reflexivity. Qed.

(** C2, as stated (cutoff 2, binary part ["00"], codeword ["11000"]), does
    not hold of the code. *)
Lemma golomb_M4_10_not_as_stated :
  ~ (Golomb.bits 4 = 2%Z
     /\ Golomb.cutoff 4 = 2%Z
     /\ steps (Golomb.compressGolomb (js "10") (inject_Z 4))
        = [Golomb.mkStep 10 2 2 (js "110") (js "00") (js "11000")]).
Proof. intros (_ & H & _). vm_compute in H. discriminate H. Qed.

(** C2, amended: with divisor 4 the number 10 gets b = 2 and cutoff
    2^2 - 4 = 0, quotient 2 and remainder 2, unary part ["110"], and, the
    remainder being at least the cutoff, the binary part (2 + 0) in 2 bits,
    ["10"]; the codeword is ["11010"]. *)
Theorem golomb_M4_10 :
  let r := Golomb.compressGolomb (js "10") (inject_Z 4) in
  Golomb.divisor (inject_Z 4) = 4%Z
  /\ Golomb.bits 4 = 2%Z
  /\ Golomb.cutoff 4 = 0%Z
  /\ Z.ltb 2 (Golomb.cutoff 4) = false
  /\ steps r = [Golomb.mkStep 10 2 2 (js "110") (js "10") (js "11010")]
  /\ encoded r = js "11010".
Proof. vm_compute. repeat split; reflexivity. Qed.

(** C8: on ["BABA"] the arithmetic coder ends with the interval
    [0.625, 0.6875), which is not empty, and the tag that [encoded] is
    formatted from is its midpoint 0.65625, strictly inside it; the bounds
    come from the probability table that the result carries. *)
Theorem arithmetic_BABA_tag_inside
    (toFixed : float -> nat -> jsstring) (Math_log2 : float -> float)
    (Math_ceil : float -> Z) :
  exists r low high,
    Arithmetic.compressArithmetic toFixed Math_log2 Math_ceil (js "BABA") = Some r
    /\ dictionary r
       = Some [(js "A", Arithmetic.mkInterval 0 0.5 0.5);
               (js "B", Arithmetic.mkInterval 0.5 1 0.5)]
    /\ Arithmetic.narrow toFixed
         [(js "A", Arithmetic.mkInterval 0 0.5 0.5);
          (js "B", Arithmetic.mkInterval 0.5 1 0.5)]
         (chars_of (js "BABA")) 0 1 [] = Some (low, high, steps r)
    /\ List.map (fun s => (Arithmetic.low s, Arithmetic.high s)) (steps r)
       = [(0.5, 1); (0.5, 0.75); (0.625, 0.75); (low, high)]%float
    /\ encoded r = toFixed (Arithmetic.tag_of low high) 10
    /\ PrimFloat.ltb low high = true
    /\ PrimFloat.leb low (Arithmetic.tag_of low high) = true
    /\ PrimFloat.ltb low (Arithmetic.tag_of low high) = true
    /\ PrimFloat.ltb (Arithmetic.tag_of low high) high = true
    /\ (low, Arithmetic.tag_of low high, high) = (0.625, 0.65625, 0.6875)%float.
Proof.
  eexists. exists 0.625%float, 0.6875%float.
  split; [vm_compute; reflexivity|].
  cbn [dictionary steps encoded].
  repeat split; try reflexivity.
  apply List.app_nil_r.
Qed.

(** ** Empty input *)

(** C6: on the empty string each of the six encoders returns the
    zero-valued result (empty [encoded], both sizes 0, ratio 0, no steps);
    [compressGolomb] does so whenever parsing leaves no valid number. *)
Theorem empty_input_zero_result :
  RLE.compressRLE [] = zero_result
  /\ Huffman.compressHuffman [] = Some zero_result
  /\ LZW.compressLZW [] = Some zero_result
  /\ (forall mParam, Golomb.compressGolomb [] mParam = zero_result)
  /\ (forall toFixed Math_log2 Math_ceil,
        Arithmetic.compressArithmetic toFixed Math_log2 Math_ceil [] = Some zero_result)
  /\ (forall fuel, Tunstall.compressTunstall fuel [] = Some zero_result)
  /\ (forall inputStr mParam,
        Golomb.parse_numbers inputStr = [] ->
        Golomb.compressGolomb inputStr mParam = zero_result)
  /\ (encoded (@zero_result unit unit unit) = []
      /\ originalSize (@zero_result unit unit unit) = 0%Z
      /\ compressedSize (@zero_result unit unit unit) = 0%Z
      /\ ratio (@zero_result unit unit unit) = 0%float
      /\ steps (@zero_result unit unit unit) = []).
Proof.
  repeat split; try reflexivity.
  intros inputStr mParam H. unfold Golomb.compressGolomb. now rewrite H.
Qed.

Lemma empty_input_zero_result_witness :
  Golomb.parse_numbers (js "x, -3 ,") = []
  /\ Golomb.compressGolomb (js "x, -3 ,") (inject_Z 4) = zero_result.
Proof.
  split; [reflexivity|].
  apply (proj1 (proj2 (proj2 (proj2 (proj2 (proj2 (proj2 empty_input_zero_result))))))).
  reflexivity.
Defined.

(** ** The trace and the payload grow together *)

Lemma concat_snoc (l : list jsstring) (x : jsstring) :
  List.concat (l ++ [x]) = List.concat l ++ x.
Proof. rewrite List.concat_app. simpl. now rewrite List.app_nil_r. Qed.

Lemma rle_loop_concat s : forall count enc sts,
  List.concat (List.map RLE.code sts) = enc ->
  List.concat (List.map RLE.code (snd (RLE.loop s count enc sts)))
  = fst (RLE.loop s count enc sts).
Proof.
  induction s as [|c rest IH]; intros count enc sts Hinv; simpl; [exact Hinv|].
  destruct (match rest with [] => false | d :: _ => N.eqb c d end).
  - now apply IH.
  - apply IH. rewrite List.map_app. simpl. rewrite concat_snoc. now rewrite Hinv.
Qed.

Lemma golomb_loop_concat M numbers : forall acc,
  List.concat (List.map Golomb.code (snd acc)) = fst acc ->
  let out :=
    List.fold_left
      (fun acc n =>
         let s := Golomb.encode_number M n in
         (fst acc ++ Golomb.code s, snd acc ++ [s]))
      numbers acc in
  List.concat (List.map Golomb.code (snd out)) = fst out.
Proof.
  induction numbers as [|n numbers IH]; intros acc Hinv; simpl; [exact Hinv|].
  apply IH. simpl. rewrite List.map_app. simpl. rewrite concat_snoc. now rewrite Hinv.
Qed.

Lemma tunstall_tokenize_concat fuel keys codeMap : forall rest enc sts enc' sts',
  List.concat (List.map Tunstall.code sts) = enc ->
  Tunstall.tokenize fuel keys codeMap rest enc sts = Some (enc', sts') ->
  List.concat (List.map Tunstall.code sts') = enc'.
Proof.
  induction fuel as [|fuel IH]; intros rest enc sts enc' sts' Hinv Hrun.
  - destruct rest; simpl in Hrun; [|discriminate]. now inversion Hrun; subst.
  - destruct rest as [|c rest]; simpl in Hrun; [now inversion Hrun; subst|].
    destruct (List.find _ keys) as [seq|]; (eapply IH; [|exact Hrun]);
      rewrite List.map_app; simpl; rewrite concat_snoc; now rewrite Hinv.
Qed.

(** ** Huffman: the merge loop ends with one tree *)

Lemma forest_leaves_app a b : forest_leaves (a ++ b) = forest_leaves a ++ forest_leaves b.
Proof. apply List.flat_map_app. Qed.

Lemma build_single fuel : forall nodes counter,
  nodes <> [] ->
  List.length nodes <= S fuel ->
  exists root,
    Huffman.build fuel nodes counter = Some [root]
    /\ Permutation (leaves root) (forest_leaves nodes).
Proof.
  induction fuel as [|fuel IH]; intros nodes counter Hne Hlen.
  - destruct nodes as [|root [|x nodes]]; [contradiction| |simpl in Hlen; lia].
    exists root. split; [reflexivity|]. simpl. now rewrite List.app_nil_r.
  - destruct nodes as [|root [|x nodes]]; [contradiction| |].
    + exists root. split; [reflexivity|]. simpl. now rewrite List.app_nil_r.
    + cbn [Huffman.build].
      replace (Nat.ltb 1 (List.length (root :: x :: nodes))) with true by reflexivity.
      pose proof (stable_sort_perm Huffman.by_freq (root :: x :: nodes)) as HP.
      pose proof (Permutation_length HP) as HL.
      destruct (stable_sort Huffman.by_freq (root :: x :: nodes)) as [|l [|r rest]];
        try (simpl in HL; lia).
      destruct (IH (rest ++ [Huffman.Internal (Huffman.freq l + Huffman.freq r) l r
                               (js "internal-" ++ dec counter)])
                   (counter + 1)%N) as (t & Ht & Hperm).
      * destruct rest; discriminate.
      * rewrite List.length_app. simpl in *. lia.
      * exists t. split; [exact Ht|].
        rewrite Hperm, forest_leaves_app.
        unfold forest_leaves at 3. rewrite (Permutation_flat_map leaves HP).
        simpl. rewrite List.app_nil_r.
        rewrite Permutation_app_comm. now rewrite List.app_assoc.
Qed.

Lemma forest_leaves_leaf_of freqs : forall i,
  forest_leaves (mapi_from i Huffman.leaf_of freqs) = obj_keys freqs.
Proof.
  induction freqs as [|[k n] freqs IH]; intros i; simpl; [reflexivity|].
  f_equal. apply IH.
Qed.

Lemma mapi_from_length {A B} (f : A -> N -> B) l : forall i,
  List.length (mapi_from i f l) = List.length l.
Proof. induction l as [|x l IH]; intros i; simpl; [reflexivity|]. now rewrite IH. Qed.

(** ** Huffman: the code table *)

Lemma generateCodes_assignments node : forall code codes,
  Huffman.generateCodes node code codes = assign_all (assignments node code) codes.
Proof.
  induction node as [char f id|f l IHl r IHr id]; intros code codes; simpl.
  - reflexivity.
  - unfold assign_all. rewrite List.fold_left_app. fold (assign_all (assignments l (code ++ js "0")) codes).
    rewrite <- IHl. apply IHr.
Qed.

Lemma assign_all_get l : forall codes c cd,
  obj_get c (assign_all l codes) = Some cd ->
  List.In (c, cd) l \/ obj_get c codes = Some cd.
Proof.
  induction l as [|[k v] l IH]; intros codes c cd Hget; simpl in *; [now right|].
  apply IH in Hget as [Hin|Hget]; [now left; right|].
  destruct (list_eq_dec c k) as [->|Hne].
  - rewrite obj_get_set_eq in Hget. inversion Hget; subst. now left; left.
  - rewrite obj_get_set_ne in Hget by exact Hne. now right.
Qed.

Lemma assign_all_keys l : forall codes c,
  List.In c (List.map fst l) \/ List.In c (obj_keys codes) ->
  List.In c (obj_keys (assign_all l codes)).
Proof.
  induction l as [|[k v] l IH]; intros codes c H; simpl in *; [tauto|].
  apply IH. rewrite obj_keys_set_in. intuition auto.
Qed.

Lemma assignments_keys node : forall code,
  List.map fst (assignments node code) = leaves node.
Proof.
  induction node as [char f id|f l IHl r IHr id]; intros code; simpl; [reflexivity|].
  now rewrite List.map_app, IHl, IHr.
Qed.

Lemma assignments_extend node : forall code p,
  List.In p (assignments node code) -> is_prefix code (snd p).
Proof.
  induction node as [char f id|f l IHl r IHr id]; intros code p Hin; simpl in Hin.
  - destruct Hin as [<-|[]]. exists []. simpl. now rewrite List.app_nil_r.
  - apply List.in_app_or in Hin as [Hin|Hin].
    + apply IHl in Hin as [t Ht]. exists (js "0" ++ t). rewrite Ht.
      now rewrite <- List.app_assoc.
    + apply IHr in Hin as [t Ht]. exists (js "1" ++ t). rewrite Ht.
      now rewrite <- List.app_assoc.
Qed.

Lemma branches_incomparable code a b :
  is_prefix (code ++ js "0") a -> is_prefix (code ++ js "1") b ->
  ~ is_prefix a b /\ ~ is_prefix b a.
Proof.
  intros [ta Ha] [tb Hb]. subst a b.
  split; intros [t Ht]; rewrite <- !List.app_assoc in Ht;
    apply List.app_inv_head in Ht; discriminate.
Qed.

(** Two assignments with comparable codes are the same assignment. *)
Lemma assignments_incomparable node : forall code p1 p2,
  List.In p1 (assignments node code) ->
  List.In p2 (assignments node code) ->
  is_prefix (snd p1) (snd p2) ->
  p1 = p2.
Proof.
  induction node as [char f id|f l IHl r IHr id]; intros code p1 p2 H1 H2 Hpre; simpl in *.
  - destruct H1 as [<-|[]], H2 as [<-|[]]. reflexivity.
  - apply List.in_app_or in H1 as [H1|H1]; apply List.in_app_or in H2 as [H2|H2].
    + eapply IHl; eassumption.
    + apply assignments_extend in H1, H2.
      destruct (branches_incomparable code _ _ H1 H2) as [Hno _]. contradiction.
    + apply assignments_extend in H1, H2.
      destruct (branches_incomparable code _ _ H2 H1) as [_ Hno]. contradiction.
    + eapply IHr; eassumption.
Qed.

Lemma generateCodes_prefix_free root : prefix_free (Huffman.generateCodes root [] []).
Proof.
  intros c1 c2 code1 code2 H1 H2 Hne Hpre.
  rewrite generateCodes_assignments in H1, H2.
  apply assign_all_get in H1 as [H1|H1]; [|discriminate].
  apply assign_all_get in H2 as [H2|H2]; [|discriminate].
  pose proof (assignments_incomparable root [] _ _ H1 H2 Hpre) as Heq.
  inversion Heq. contradiction.
Qed.

Lemma single_code_prefix_free char code : prefix_free (obj_set char code []).
Proof.
  intros c1 c2 code1 code2 H1 H2 Hne _.
  apply obj_get_Some_keys in H1, H2. apply obj_keys_set_in in H1, H2.
  simpl in *. intuition congruence.
Qed.

Lemma code_table_prefix_free freqs codes root :
  Huffman.code_table freqs = Some (codes, root) -> prefix_free codes.
Proof.
  unfold Huffman.code_table.
  set (nodes := mapi_from 0 Huffman.leaf_of freqs).
  assert (Hgen : match Huffman.build (List.length nodes) nodes 0 with
                 | Some (r :: _) => Some (Huffman.generateCodes r [] [], Some r)
                 | Some [] => Some ([], None)
                 | None => None
                 end = Some (codes, root) -> prefix_free codes).
  { destruct (Huffman.build _ _ _) as [[|r rest]|]; try discriminate.
    - intros H. inversion H; subst. intros c1 c2 code1 code2 H1. discriminate.
    - intros H. inversion H; subst. apply generateCodes_prefix_free. }
  destruct nodes as [|[char f id|f l r id] [|y nodes]]; try exact Hgen.
  - intros H. inversion H; subst. apply single_code_prefix_free.
  - discriminate.
Qed.

(** The code table exists and gives a code to every symbol of the table. *)
Lemma code_table_total freqs :
  freqs <> [] ->
  exists codes root,
    Huffman.code_table freqs = Some (codes, root)
    /\ forall c, List.In c (obj_keys freqs) -> exists code, obj_get c codes = Some code.
Proof.
  intros Hne. unfold Huffman.code_table.
  pose proof (forest_leaves_leaf_of freqs 0) as Hleaves.
  pose proof (mapi_from_length Huffman.leaf_of freqs 0%N) as Hlen.
  assert (Hcovered : forall (codes : obj jsstring) c,
             List.In c (obj_keys codes) -> exists code, obj_get c codes = Some code).
  { intros codes c Hin. destruct (obj_get c codes) eqn:E; [eauto|].
    apply obj_get_None_keys in E. contradiction. }
  destruct freqs as [|[k n] [|e freqs]]; [contradiction| |].
  - simpl. do 2 eexists. split; [reflexivity|].
    intros c [<-|[]]. rewrite obj_get_set_eq. eauto.
  - set (nodes := mapi_from 0 Huffman.leaf_of ((k, n) :: e :: freqs)) in *.
    destruct (build_single (List.length nodes) nodes 0%N) as (t & Ht & Hperm).
    { subst nodes. discriminate. }
    { lia. }
    assert (Hnodes : exists a b rest, nodes = a :: b :: rest).
    { subst nodes. simpl. eauto. }
    destruct Hnodes as (a & b & rest & Hnodes).
    rewrite Hnodes in *. rewrite Ht.
    destruct a; do 2 eexists; (split; [reflexivity|]);
      intros c Hc; apply Hcovered; rewrite generateCodes_assignments;
      apply assign_all_keys; left; rewrite assignments_keys;
      (eapply Permutation_in; [symmetry; exact Hperm|]); rewrite Hleaves; exact Hc.
Qed.

Lemma two_symbols_alphabet input : two_symbols input -> 2 <= List.length (alphabet_of input).
Proof.
  intros (c1 & c2 & H1 & H2 & Hne).
  apply alphabet_of_in in H1, H2.
  destruct (alphabet_of input) as [|a [|b rest]]; simpl in *; [tauto| |lia].
  destruct H1 as [<-|[]], H2 as [<-|[]]. contradiction.
Qed.

(** C3: for an input with at least two distinct symbols, [compressHuffman]
    returns a code table in which every symbol of the input has a code and
    no symbol's code is a prefix of a different symbol's code. *)
Theorem huffman_codes_prefix_free input :
  two_symbols input ->
  exists r codes,
    Huffman.compressHuffman input = Some r
    /\ dictionary r = Some codes
    /\ (forall c, List.In c (chars_of input) -> exists code, obj_get c codes = Some code)
    /\ prefix_free codes.
Proof.
  intros Htwo. pose proof (two_symbols_alphabet input Htwo) as Hlen.
  destruct input as [|u input]; [simpl in Hlen; lia|].
  unfold Huffman.compressHuffman.
  destruct (code_table_total (count_freqs (chars_of (u :: input)))) as (codes & root & Ht & Hcov).
  { intros Hnil. unfold alphabet_of in Hlen. rewrite Hnil in Hlen. simpl in Hlen. lia. }
  rewrite Ht. do 2 eexists. split; [reflexivity|]. cbn [dictionary].
  split; [reflexivity|]. split.
  - intros c Hc. apply Hcov. now apply alphabet_of_in.
  - eapply code_table_prefix_free. exact Ht.
Qed.

Lemma huffman_codes_prefix_free_witness :
  two_symbols (js "ABRACADABRA")
  /\ exists r codes,
       Huffman.compressHuffman (js "ABRACADABRA") = Some r
       /\ dictionary r = Some codes
       /\ prefix_free codes.
Proof.
  assert (Htwo : two_symbols (js "ABRACADABRA")).
  { exists (js "A"), (js "B"). simpl. split; [now left|]. split; [now right; left|].
    discriminate. }
  split; [exact Htwo|].
  destruct (huffman_codes_prefix_free (js "ABRACADABRA") Htwo) as (r & codes & Hr & Hd & _ & Hp).
  exists r, codes. auto.
Defined.

(** ** LZW: emitted codes are defined *)

Lemma has_own_spec (wc : jsstring) (d : gmap (list N) N) (b : bool) :
  LZW.has_own wc d = Some b -> (b = true <-> is_Some (d !! wc)).
Proof.
  unfold LZW.has_own. destruct (d !! js "hasOwnProperty"); [discriminate|].
  intros H. inversion H; subst. destruct (d !! wc) as [v|]; split; intros H'; eauto.
  - discriminate.
  - destruct H' as [v H']. discriminate.
Qed.

Lemma dict_set_keeps (wc : jsstring) (v : N) (d : gmap (list N) N) (key : jsstring) :
  is_Some (d !! key) -> is_Some (LZW.dict_set wc v d !! key).
Proof.
  intros H. unfold LZW.dict_set. destruct (str_eqb wc (js "__proto__")); [exact H|].
  destruct (decide (wc = key)) as [->|Hne].
  - rewrite lookup_insert_eq. eauto.
  - now rewrite lookup_insert_ne.
Qed.

Lemma seed_fold_lookup n : forall i,
  i < n ->
  List.fold_left (fun (d : gmap (list N) N) i => <[ [N.of_nat i] := N.of_nat i ]> d)
                 (List.seq 0 n) ∅
  !! [N.of_nat i] = Some (N.of_nat i).
Proof.
  induction n as [|n IH]; intros i Hi; [lia|].
  rewrite List.seq_S, List.fold_left_app. simpl.
  destruct (decide (i = n)) as [->|Hne].
  - apply lookup_insert_eq.
  - rewrite lookup_insert_ne; [apply IH; lia|].
    intros Heq. apply Hne. inversion Heq. lia.
Qed.

Lemma seed_lookup (c : N) : (c < 256)%N -> LZW.seed !! [c] = Some c.
Proof.
  intros Hc. unfold LZW.seed.
  rewrite <- (N2Nat.id c). apply seed_fold_lookup. lia.
Qed.

Lemma lzw_w_invariant input : forall st,
  lzw_w_ok st -> lzw_w_ok (fst (LZW.loop input st)).
Proof.
  induction input as [|c input IH]; intros st Hst; [exact Hst|].
  simpl. destruct (LZW.iter c st) as [st'|] eqn:Hiter; [|exact Hst].
  apply IH. unfold LZW.iter in Hiter.
  destruct (LZW.has_own (LZW.st_w st ++ [c]) (LZW.st_dictionary st)) as [[|]|] eqn:Hown;
    inversion Hiter; subst; unfold lzw_w_ok; simpl.
  - right; right. now apply (has_own_spec _ _ true Hown).
  - right; left. reflexivity.
Qed.

Lemma lzw_inv_init : lzw_inv (LZW.mkState LZW.seed [] [] [] 256%N).
Proof.
  split.
  - intros c Hc. cbn [LZW.st_dictionary]. rewrite seed_lookup by exact Hc. eauto.
  - left. reflexivity.
  - constructor.
  - constructor.
Qed.

Lemma lzw_inv_iter c st st' :
  (c < 256)%N -> lzw_inv st -> LZW.iter c st = Some st' -> lzw_inv st'.
Proof.
  intros Hc [Hseed Hw Hres Hsteps] Hiter. unfold LZW.iter in Hiter.
  destruct (LZW.has_own (LZW.st_w st ++ [c]) (LZW.st_dictionary st)) as [[|]|] eqn:Hown;
    inversion Hiter; subst; clear Hiter.
  - split; simpl; auto. right. now apply (has_own_spec _ _ true Hown).
  - assert (Hout : is_Some (LZW.dict_get (LZW.st_w st) (LZW.st_dictionary st))).
    { destruct Hw as [Hnil|Hsome]; [|exact Hsome].
      rewrite Hnil in Hown. simpl in Hown.
      apply Hseed, (has_own_spec _ _ false Hown) in Hc. discriminate. }
    split; simpl.
    + intros c' Hc'. apply dict_set_keeps, Hseed, Hc'.
    + right. apply dict_set_keeps, Hseed, Hc.
    + apply Forall_app. split; [exact Hres|]. constructor; [exact Hout|constructor].
    + apply Forall_app. split; [exact Hsteps|]. constructor; [exact Hout|constructor].
Qed.

Lemma lzw_inv_loop input : forall st,
  Forall (fun c => (c < 256)%N) input -> lzw_inv st -> lzw_inv (fst (LZW.loop input st)).
Proof.
  induction input as [|c input IH]; intros st Hin Hst; [exact Hst|].
  inversion Hin; subst. simpl.
  destruct (LZW.iter c st) as [st'|] eqn:Hiter; [|exact Hst].
  apply IH; [assumption|]. eapply lzw_inv_iter; eassumption.
Qed.

Lemma lzw_inv_flush st : lzw_inv st -> lzw_inv (LZW.flush st).
Proof.
  intros [Hseed Hw Hres Hsteps]. unfold LZW.flush.
  destruct (LZW.st_w st) as [|c w] eqn:Hwst.
  { split; auto. }
  destruct Hw as [Hnil|Hsome]; [discriminate|].
  split; simpl; auto.
  - apply Forall_app. split; [exact Hres|]. constructor; [exact Hsome|constructor].
  - apply Forall_app. split; [exact Hsteps|]. constructor; [exact Hsome|constructor].
Qed.

Lemma lzw_inv_run input :
  Forall (fun c => (c < 256)%N) input -> lzw_inv (fst (LZW.run input)).
Proof.
  intros Hin. unfold LZW.run.
  pose proof (lzw_inv_loop input _ Hin lzw_inv_init) as Hinv.
  destruct (LZW.loop input _) as [st [|]]; simpl in *; [now apply lzw_inv_flush|exact Hinv].
Qed.

(** C10: on an input whose code units are all in 0 .. 255, every code that
    [compressLZW] emits (also one pushed before a later failure) is a
    defined number, because the prefix looked up is a seeded single byte or
    a string inserted before.  The guarantee needs the byte range: a unit
    256 misses the seeded dictionary, and the lookup made when it is read
    yields [undefined]. *)
Theorem lzw_emitted_codes_defined :
  (forall input,
      Forall (fun c => (c < 256)%N) input ->
      Forall is_Some (LZW.st_result (fst (LZW.run input)))
      /\ forall r, LZW.compressLZW input = Some r ->
                   Forall (fun s => is_Some (LZW.output s)) (steps r))
  /\ (LZW.has_own [256%N] LZW.seed = Some false
      /\ LZW.st_result (fst (LZW.run [256%N])) = [None; Some 256%N]
      /\ option_map (fun r => List.map LZW.output (steps r)) (LZW.compressLZW [256%N])
         = Some [None; Some 256%N]
      /\ LZW.st_result (fst (LZW.run (js "a" ++ [256%N]))) = [Some 97%N; None]).
Proof.
  split.
  - intros input Hin.
    pose proof (lzw_inv_run input Hin) as [_ _ Hres Hsteps].
    split; [exact Hres|].
    intros r Hr. destruct input as [|c input].
    + inversion Hr; subst. constructor.
    + unfold LZW.compressLZW in Hr.
      destruct (LZW.run (c :: input)) as [st [|]]; [|discriminate].
      inversion Hr; subst. exact Hsteps.
  - repeat split; vm_compute; reflexivity.
Qed.

Lemma lzw_emitted_codes_defined_witness :
  Forall (fun c => (c < 256)%N) (js "abab")
  /\ Forall is_Some (LZW.st_result (fst (LZW.run (js "abab"))))
  /\ LZW.st_result (fst (LZW.run (js "abab"))) = [Some 97%N; Some 98%N; Some 256%N].
Proof.
  assert (Hin : Forall (fun c => (c < 256)%N) (js "abab")).
  { repeat constructor. }
  split; [exact Hin|].
  split; [exact (proj1 (proj1 lzw_emitted_codes_defined (js "abab") Hin))|].
  vm_compute. reflexivity.
Defined.

(** ** Golomb: parsing *)

Lemma parse_numbers_tokens inputStr :
  Golomb.parse_numbers inputStr = token_numbers (Golomb.split inputStr).
Proof.
  unfold Golomb.parse_numbers, token_numbers.
  induction (Golomb.split inputStr) as [|tok toks IH]; simpl; [reflexivity|].
  unfold token_number.
  destruct (Golomb.parseInt tok) as [n|]; simpl; [|exact IH].
  destruct (Z.leb 0 n); simpl; [now rewrite IH|exact IH].
Qed.

Lemma token_numbers_app a b : token_numbers (a ++ b) = token_numbers a ++ token_numbers b.
Proof. unfold token_numbers. apply List.flat_map_app. Qed.

Lemma token_numbers_cons tok toks :
  token_numbers (tok :: toks) = token_numbers [tok] ++ token_numbers toks.
Proof. apply (token_numbers_app [tok] toks). Qed.

Lemma token_numbers_empty_token toks : token_numbers ([] :: toks) = token_numbers toks.
Proof. reflexivity. Qed.

(** Entering a piece of text inside a run of separators or outside of one
    differs by one empty piece at most. *)
Lemma split_from_run s :
  token_numbers (Golomb.split_from [] true s) = token_numbers (Golomb.split_from [] false s).
Proof.
  destruct s as [|c s]; simpl; [reflexivity|].
  destruct (Golomb.is_separator c); reflexivity.
Qed.

Lemma split_from_separator sep after : forall before cur in_run,
  Golomb.is_separator sep = true ->
  (in_run = true -> cur = []) ->
  token_numbers (Golomb.split_from cur in_run (before ++ sep :: after))
  = token_numbers (Golomb.split_from cur in_run before) ++ token_numbers (Golomb.split after).
Proof.
  intros before. induction before as [|c before IH]; intros cur in_run Hsep Hcur; simpl.
  - rewrite Hsep. destruct in_run.
    + rewrite (Hcur eq_refl). simpl. apply split_from_run.
    + rewrite token_numbers_cons, split_from_run. reflexivity.
  - destruct (Golomb.is_separator c).
    + destruct in_run.
      * now apply IH.
      * rewrite (token_numbers_cons _ (Golomb.split_from [] true (before ++ sep :: after))).
        rewrite (token_numbers_cons _ (Golomb.split_from [] true before)).
        rewrite <- List.app_assoc. f_equal. now apply IH.
    + apply IH; [exact Hsep|discriminate].
Qed.

(** Numbers on both sides of a separator are parsed independently. *)
Lemma parse_numbers_separator before sep after :
  Golomb.is_separator sep = true ->
  Golomb.parse_numbers (before ++ sep :: after)
  = Golomb.parse_numbers before ++ Golomb.parse_numbers after.
Proof.
  intros Hsep. rewrite !parse_numbers_tokens. unfold Golomb.split.
  apply split_from_separator; [exact Hsep|discriminate].
Qed.



Lemma golomb_loop_spec M numbers : forall acc,
  List.fold_left
    (fun acc n =>
       let s := Golomb.encode_number M n in
       (fst acc ++ Golomb.code s, snd acc ++ [s]))
    numbers acc
  = (fst acc ++ List.concat (List.map (fun n => Golomb.code (Golomb.encode_number M n)) numbers),
     snd acc ++ List.map (Golomb.encode_number M) numbers).
Proof.
  induction numbers as [|n numbers IH]; intros [enc sts]; simpl.
  - now rewrite !List.app_nil_r.
  - rewrite IH. simpl. now rewrite <- !List.app_assoc.
Qed.


Lemma golomb_result inputStr mParam :
  let r := Golomb.compressGolomb inputStr mParam in
  steps r = List.map (Golomb.encode_number (Golomb.divisor mParam))
                     (Golomb.parse_numbers inputStr)
  /\ encoded r = List.concat (List.map Golomb.code (steps r)).
Proof.
  cbv zeta. unfold Golomb.compressGolomb.
  destruct (Golomb.parse_numbers inputStr) as [|n numbers]; [split; reflexivity|].
  unfold Golomb.loop. rewrite golomb_loop_spec.
  cbn [fst snd List.app steps encoded]. rewrite List.map_map. split; reflexivity.
Qed.

Lemma golomb_sizes inputStr mParam :
  let r := Golomb.compressGolomb inputStr mParam in
  originalSize r = (Z.of_nat (List.length (steps r)) * 32)%Z
  /\ compressedSize r = Z.of_nat (List.length (encoded r)).
Proof.
  cbv zeta. unfold Golomb.compressGolomb.
  destruct (Golomb.parse_numbers inputStr) as [|n numbers]; [split; reflexivity|].
  unfold Golomb.loop. rewrite golomb_loop_spec.
  cbn [fst snd List.app steps originalSize compressedSize encoded].
  rewrite List.length_map. split; reflexivity.
Qed.

(** ** Golomb: what [parseInt] makes of a token *)












Lemma golomb_step_numbers inputStr mParam :
  List.map Golomb.number (steps (Golomb.compressGolomb inputStr mParam))
  = Golomb.parse_numbers inputStr.
Proof.
  rewrite (proj1 (golomb_result inputStr mParam)), List.map_map.
  cbn [Golomb.encode_number Golomb.number]. apply List.map_id.
Qed.




(** [parseInt] reads the longest numeric prefix: such tokens are numbers
    for the filter, and only tokens without one, or negative ones, go. *)
Example golomb_numeric_prefix_tokens :
  List.map Golomb.parseInt
    (Golomb.split (js "10 -4 12abc 0x1F +7 -0 abc 3.7 1e3 - 0x"))
  = [Some 10; Some (-4); Some 12; Some 31; Some 7; Some 0; None; Some 3; Some 1; None; None]%Z
  /\ Golomb.parse_numbers (js "10 -4 12abc 0x1F +7 -0 abc 3.7 1e3 - 0x")
     = [10; 12; 31; 7; 0; 3; 1]%Z.
Proof. split; reflexivity. Qed.

(** ** Tunstall: the growth loop *)

Lemma expand_length freqs total alphabet best :
  List.length (Tunstall.expand freqs total alphabet best) = List.length alphabet.
Proof. unfold Tunstall.expand. apply List.length_map. Qed.

(** With a one-symbol alphabet the dictionary keeps exactly one entry, the
    loop condition [1 + 1 - 1 <= 16] never fails, and no budget is enough. *)
Lemma grow_single_symbol fuel freqs total alphabet : forall dictionary,
  List.length alphabet = 1 ->
  List.length dictionary = 1 ->
  Tunstall.grow fuel freqs total alphabet dictionary = None.
Proof.
  induction fuel as [|fuel IH]; intros dictionary Ha Hd; simpl; rewrite Ha, Hd.
  - reflexivity.
  - change (Z.leb (Z.of_nat 1 + Z.of_nat 1 - 1) Tunstall.MAX_DICT_SIZE) with true.
    cbv iota.
    pose proof (stable_sort_length Tunstall.by_prob dictionary) as Hlen.
    destruct (stable_sort Tunstall.by_prob dictionary) as [|best [|x rest]];
      rewrite Hd in Hlen; simpl in Hlen; try discriminate.
    apply IH; [exact Ha|]. simpl. now rewrite expand_length.
Qed.

Lemma tunstall_single_symbol_never_returns input :
  input <> [] ->
  List.length (obj_keys (count_freqs (chars_of input))) = 1 ->
  forall fuel, Tunstall.compressTunstall fuel input = None.
Proof.
  intros Hne Ha fuel. destruct input as [|c input]; [contradiction|].
  unfold Tunstall.compressTunstall, Tunstall.final_dictionary.
  rewrite grow_single_symbol; [reflexivity|exact Ha|].
  now rewrite List.length_map.
Qed.

(** ** Tunstall: termination with two or more symbols *)

Lemma grow_terminates freqs total alphabet fuel : forall dictionary,
  2 <= List.length alphabet ->
  17 <= fuel + List.length dictionary ->
  exists d, Tunstall.grow fuel freqs total alphabet dictionary = Some d.
Proof.
  induction fuel as [|fuel IH]; intros dictionary Ha Hfuel; simpl.
  - destruct (Z.leb _ _) eqn:Hcond; [|eauto].
    apply Z.leb_le in Hcond. unfold Tunstall.MAX_DICT_SIZE, Tunstall.BIT_WIDTH in Hcond.
    simpl in Hfuel. change (2 ^ 4)%Z with 16%Z in Hcond. lia.
  - destruct (Z.leb _ _) eqn:Hcond; [|eauto].
    pose proof (stable_sort_length Tunstall.by_prob dictionary) as Hlen.
    destruct (stable_sort Tunstall.by_prob dictionary) as [|best rest]; [eauto|].
    apply IH; [exact Ha|].
    rewrite List.length_app, expand_length. simpl in Hlen. lia.
Qed.

Lemma grow_more_fuel freqs total alphabet fuel : forall fuel' dictionary d,
  fuel <= fuel' ->
  Tunstall.grow fuel freqs total alphabet dictionary = Some d ->
  Tunstall.grow fuel' freqs total alphabet dictionary = Some d.
Proof.
  induction fuel as [|fuel IH]; intros fuel' dictionary d Hle Hrun.
  - simpl in Hrun. destruct fuel'; simpl; destruct (Z.leb _ _); congruence.
  - destruct fuel' as [|fuel']; [lia|]. simpl in *.
    destruct (Z.leb _ _); [|exact Hrun].
    destruct (stable_sort Tunstall.by_prob dictionary) as [|best rest]; [exact Hrun|].
    apply IH; [lia|exact Hrun].
Qed.

Lemma grow_seqs_nonempty freqs total alphabet fuel : forall dictionary d,
  Forall (fun e => Tunstall.seq e <> []) dictionary ->
  Tunstall.grow fuel freqs total alphabet dictionary = Some d ->
  Forall (fun e => Tunstall.seq e <> []) d.
Proof.
  induction fuel as [|fuel IH]; intros dictionary d Hne Hrun; simpl in Hrun.
  - destruct (Z.leb _ _); [discriminate|]. now inversion Hrun; subst.
  - destruct (Z.leb _ _); [|now inversion Hrun; subst].
    pose proof (stable_sort_perm Tunstall.by_prob dictionary) as HP.
    destruct (stable_sort Tunstall.by_prob dictionary) as [|best rest].
    + inversion Hrun; subst. constructor.
    + eapply Permutation_Forall in Hne; [|exact HP]. inversion Hne; subst.
      eapply IH; [|exact Hrun]. apply List.Forall_app. split; [assumption|].
      unfold Tunstall.expand. apply List.Forall_forall. intros e He.
      apply List.in_map_iff in He as (char & <- & _). simpl.
      intros Happ. apply List.app_eq_nil in Happ as [Hnil _]. contradiction.
Qed.

Lemma grow_length_bound freqs total alphabet fuel : forall dictionary d,
  List.length dictionary <= 16 ->
  Tunstall.grow fuel freqs total alphabet dictionary = Some d ->
  List.length d <= 16.
Proof.
  induction fuel as [|fuel IH]; intros dictionary d Hle Hrun; simpl in Hrun.
  - destruct (Z.leb _ _); [discriminate|]. now inversion Hrun; subst.
  - destruct (Z.leb _ _) eqn:Hcond; [|now inversion Hrun; subst].
    apply Z.leb_le in Hcond. unfold Tunstall.MAX_DICT_SIZE, Tunstall.BIT_WIDTH in Hcond.
    change (2 ^ 4)%Z with 16%Z in Hcond.
    pose proof (stable_sort_length Tunstall.by_prob dictionary) as Hlen.
    destruct (stable_sort Tunstall.by_prob dictionary) as [|best rest].
    + inversion Hrun; subst. simpl. lia.
    + eapply IH; [|exact Hrun].
      rewrite List.length_app, expand_length. simpl in Hlen. lia.
Qed.

Lemma fill_codeMap_keys dictionary : forall index codeMap k,
  List.In k (obj_keys (Tunstall.fill_codeMap index dictionary codeMap)) ->
  List.In k (List.map Tunstall.seq dictionary) \/ List.In k (obj_keys codeMap).
Proof.
  induction dictionary as [|item rest IH]; intros index codeMap k Hin; simpl in *; [now right|].
  apply IH in Hin as [Hin|Hin]; [now left; right|].
  apply obj_keys_set_in in Hin as [->|Hin]; [now left; left|now right].
Qed.

Lemma skipn_shorter {A} n (l : list A) :
  0 < n -> l <> [] -> List.length (List.skipn n l) < List.length l.
Proof.
  intros Hn Hl. rewrite List.length_skipn. destruct l; [contradiction|]. simpl. lia.
Qed.

Lemma tokenize_total keys codeMap fuel : forall rest enc sts,
  Forall (fun k => k <> []) keys ->
  List.length rest <= fuel ->
  exists out, Tunstall.tokenize fuel keys codeMap rest enc sts = Some out.
Proof.
  induction fuel as [|fuel IH]; intros rest enc sts Hkeys Hlen.
  - destruct rest; [simpl; eauto|simpl in Hlen; lia].
  - destruct rest as [|c rest]; [simpl; eauto|].
    cbn [Tunstall.tokenize].
    destruct (List.find _ keys) as [seq|] eqn:Hfind.
    + apply IH; [exact Hkeys|].
      apply List.find_some in Hfind as [Hin _].
      rewrite List.Forall_forall in Hkeys. specialize (Hkeys _ Hin).
      assert (Hs : List.length (List.skipn (List.length seq) (c :: rest))
                   < List.length (c :: rest)).
      { apply skipn_shorter; [destruct seq; [contradiction|simpl; lia]|discriminate]. }
      lia.
    + apply IH; [exact Hkeys|]. rewrite List.length_skipn. simpl in *. lia.
Qed.

(** With at least two distinct symbols [compressTunstall] returns, and 16
    iterations of the growth loop are enough whatever the input. *)
Lemma tunstall_terminates input :
  2 <= List.length (alphabet_of input) ->
  exists r, forall fuel, 16 <= fuel -> Tunstall.compressTunstall fuel input = Some r.
Proof.
  intros Ha. destruct input as [|c input]; [now exists zero_result|].
  unfold Tunstall.compressTunstall, Tunstall.final_dictionary.
  fold (alphabet_of (c :: input)).
  set (freqs := count_freqs (chars_of (c :: input))).
  set (total := Z.of_nat (List.length (c :: input))).
  set (init := List.map _ (alphabet_of (c :: input))).
  destruct (grow_terminates freqs total (alphabet_of (c :: input)) 16 init Ha) as [d Hd].
  { unfold init. rewrite List.length_map. lia. }
  assert (Hkeys : Forall (fun k => k <> [])
                    (stable_sort Tunstall.by_length
                       (obj_keys (Tunstall.fill_codeMap 0 d [])))).
  { eapply Permutation_Forall; [apply stable_sort_perm|].
    apply List.Forall_forall. intros k Hk.
    apply fill_codeMap_keys in Hk as [Hk|[]].
    apply List.in_map_iff in Hk as (e & <- & He).
    assert (Hd' : Forall (fun e => Tunstall.seq e <> []) d).
    { eapply grow_seqs_nonempty; [|exact Hd]. unfold init.
      apply List.Forall_forall. intros e' He'.
      apply List.in_map_iff in He' as (char & <- & Hchar). simpl.
      pose proof (alphabet_of_nonempty (c :: input)) as Hne.
      rewrite List.Forall_forall in Hne. now apply Hne. }
    rewrite List.Forall_forall in Hd'. now apply Hd'. }
  destruct (tokenize_total _ (Tunstall.fill_codeMap 0 d []) (List.length (c :: input))
              (c :: input) [] [] Hkeys (le_n _)) as [[enc sts] Htok].
  eexists. intros fuel Hfuel.
  rewrite (grow_more_fuel _ _ _ 16 fuel init d Hfuel Hd). rewrite Htok. reflexivity.
Qed.

(** ** Tunstall: the code map *)

Lemma pad_index_length (index : N) :
  (index < 16)%N ->
  List.length (padStart Tunstall.BIT_WIDTH (digit_char 0) (toString2 (Z.of_N index))) = 4.
Proof.
  intros H. rewrite <- (N2Nat.id index).
  assert (Hn : N.to_nat index < 16) by lia.
  revert Hn. generalize (N.to_nat index). intros n Hn.
  do 16 (destruct n as [|n]; [reflexivity|]). lia.
Qed.

Lemma fill_codeMap_codes dictionary : forall index codeMap k code,
  obj_get k (Tunstall.fill_codeMap index dictionary codeMap) = Some code ->
  obj_get k codeMap = Some code
  \/ exists j e,
       List.nth_error dictionary j = Some e
       /\ Tunstall.seq e = k
       /\ code = padStart Tunstall.BIT_WIDTH (digit_char 0)
                   (toString2 (Z.of_N (index + N.of_nat j))).
Proof.
  induction dictionary as [|item rest IH]; intros index codeMap k code Hget; simpl in Hget.
  - now left.
  - apply IH in Hget as [Hget|(j & e & Hj & He & Hcode)].
    + destruct (list_eq_dec (Tunstall.seq item) k) as [Heq|Hne].
      * subst k. rewrite obj_get_set_eq in Hget. inversion Hget; subst.
        right. exists 0, item. repeat split. now rewrite N.add_0_r.
      * rewrite obj_get_set_ne in Hget by congruence. now left.
    + right. exists (S j), e. repeat split; [exact Hj|exact He|].
      rewrite Hcode. do 3 f_equal. lia.
Qed.

(** The part of C5 that the code keeps: with at most 16 distinct symbols
    the final dictionary has at most 16 entries, and every code of the code
    map is the 4-digit binary index of an entry with that sequence. *)
Lemma tunstall_codes_four_bits input fuel r :
  input <> [] ->
  List.length (alphabet_of input) <= 16 ->
  Tunstall.compressTunstall fuel input = Some r ->
  exists dict codeMap,
    Tunstall.final_dictionary fuel input = Some dict
    /\ dictionary r = Some codeMap
    /\ List.length dict <= 16
    /\ forall k code,
         obj_get k codeMap = Some code ->
         List.length code = 4
         /\ exists index e,
              List.nth_error dict index = Some e
              /\ Tunstall.seq e = k
              /\ code = padStart 4 (digit_char 0) (toString2 (Z.of_nat index)).
Proof.
  intros Hne Ha Hrun. destruct input as [|c input]; [contradiction|].
  unfold Tunstall.compressTunstall in Hrun.
  destruct (Tunstall.final_dictionary fuel (c :: input)) as [dict|] eqn:Hdict; [|discriminate].
  destruct (Tunstall.tokenize _ _ _ _ _ _) as [[enc sts]|]; [|discriminate].
  inversion Hrun; subst. cbn [dictionary].
  assert (Hlen : List.length dict <= 16).
  { unfold Tunstall.final_dictionary in Hdict.
    eapply grow_length_bound; [|exact Hdict].
    rewrite List.length_map. exact Ha. }
  exists dict, (Tunstall.fill_codeMap 0 dict []). repeat split; trivial.
  - apply fill_codeMap_codes in H as [H|(j & e & Hj & He & Hcode)]; [discriminate|].
    subst code. apply pad_index_length.
    assert (Hlt : j < List.length dict) by (apply List.nth_error_Some; congruence). lia.
  - apply fill_codeMap_codes in H as [H|(j & e & Hj & He & Hcode)]; [discriminate|].
    exists j, e. repeat split; trivial. rewrite Hcode. do 2 f_equal. lia.
Qed.

(** With more than 16 symbols the growth loop never runs and the seeded
    dictionary, one entry per symbol, is the final one. *)
Lemma tunstall_large_alphabet_not_capped input fuel :
  17 <= List.length (alphabet_of input) ->
  exists dict,
    Tunstall.final_dictionary fuel input = Some dict
    /\ List.map Tunstall.seq dict = alphabet_of input
    /\ 16 < List.length dict.
Proof.
  intros Ha. unfold Tunstall.final_dictionary. fold (alphabet_of input).
  set (init := List.map _ (alphabet_of input)).
  assert (Hlen : List.length init = List.length (alphabet_of input)).
  { unfold init. apply List.length_map. }
  exists init. split; [|split].
  - assert (Hcond : Z.leb (Z.of_nat (List.length init)
                           + Z.of_nat (List.length (alphabet_of input)) - 1)
                          Tunstall.MAX_DICT_SIZE = false).
    { apply Z.leb_gt. unfold Tunstall.MAX_DICT_SIZE, Tunstall.BIT_WIDTH.
      change (2 ^ 4)%Z with 16%Z. lia. }
    destruct fuel; simpl; now rewrite Hcond.
  - unfold init. rewrite List.map_map. simpl. apply List.map_id.
  - lia.
Qed.

(** C5 fails beyond 16 symbols: on the 17 distinct letters A .. Q the
    growth loop never runs, the dictionary is the 17 seeded entries, and the
    entry of index 16 gets the 5-digit code ["10000"]. *)
Theorem tunstall_17_symbols_overflow :
  let input := js "ABCDEFGHIJKLMNOPQ" in
  List.length (alphabet_of input) = 17
  /\ exists r dict codeMap,
       (forall fuel, Tunstall.final_dictionary fuel input = Some dict)
       /\ (forall fuel, Tunstall.compressTunstall fuel input = Some r)
       /\ dictionary r = Some codeMap
       /\ List.length dict = 17
       /\ List.map Tunstall.seq dict = alphabet_of input
       /\ List.nth_error (List.map Tunstall.seq dict) 16 = Some (js "Q")
       /\ obj_get (js "Q") codeMap = Some (js "10000")
       /\ List.length (js "10000") = 5
       /\ encoded r
          = js "0000000100100011010001010110011110001001101010111100110111101111"
            ++ js "10000".
Proof.
  split; [reflexivity|].
  assert (Hdict : exists dict, forall fuel,
             Tunstall.final_dictionary fuel (js "ABCDEFGHIJKLMNOPQ") = Some dict).
  { eexists. intros fuel. unfold Tunstall.final_dictionary.
    destruct fuel; vm_compute; reflexivity. }
  destruct Hdict as [dict Hdict].
  pose proof (Hdict 0) as H0. vm_compute in H0. inversion H0 as [Hd]. clear H0.
  eexists. exists dict. eexists. split; [exact Hdict|].
  split.
  { intros fuel. unfold Tunstall.compressTunstall.
    change (js "ABCDEFGHIJKLMNOPQ") with (65%N :: js "BCDEFGHIJKLMNOPQ") at 1.
    cbv iota. rewrite Hdict. rewrite <- Hd. vm_compute. reflexivity. }
  rewrite <- Hd. repeat split; vm_compute; reflexivity.
Qed.

(** ** Which calls return *)

Lemma huffman_total input : exists r, Huffman.compressHuffman input = Some r.
Proof.
  destruct input as [|u input]; [simpl; eauto|].
  unfold Huffman.compressHuffman.
  destruct (code_table_total (count_freqs (chars_of (u :: input)))) as (codes & root & Ht & _).
  { intros Hnil.
    assert (Hin : List.In (List.hd [] (chars_of (u :: input))) (alphabet_of (u :: input))).
    { apply alphabet_of_in. simpl. destruct input as [|d input]; [now left|].
      destruct (is_high_surrogate u && is_low_surrogate d); now left. }
    unfold alphabet_of in Hin. rewrite Hnil in Hin. exact Hin. }
  rewrite Ht. eauto.
Qed.

Lemma build_probs_keys freqs total sortedChars c :
  List.In c sortedChars ->
  List.In c (obj_keys (Arithmetic.build_probs freqs total sortedChars)).
Proof.
  unfold Arithmetic.build_probs.
  assert (Hgen : forall l (acc : obj Arithmetic.Interval * float),
             List.In c l \/ List.In c (obj_keys (fst acc)) ->
             List.In c (obj_keys (fst (List.fold_left
               (fun acc char =>
                  let '(probs, currentStart) := acc in
                  let p := PrimFloat.div (num_or_undefined (obj_get char freqs)) (num total) in
                  (obj_set char
                     (Arithmetic.mkInterval currentStart (PrimFloat.add currentStart p) p)
                     probs,
                   PrimFloat.add currentStart p)) l acc)))).
  { induction l as [|x l IH]; intros [probs cs] H; simpl in *; [tauto|].
    apply IH. simpl. rewrite obj_keys_set_in. intuition auto. }
  intros Hin. apply Hgen. now left.
Qed.

Lemma narrow_total toFixed probs chars : forall low high rangeSteps,
  (forall c, List.In c chars -> List.In c (obj_keys probs)) ->
  exists out, Arithmetic.narrow toFixed probs chars low high rangeSteps = Some out.
Proof.
  induction chars as [|c chars IH]; intros low high rangeSteps Hcov; simpl; [eauto|].
  destruct (obj_get c probs) as [iv|] eqn:E.
  - apply IH. intros c' Hc'. apply Hcov. now right.
  - apply obj_get_None_keys in E. exfalso. apply E, Hcov. now left.
Qed.

Lemma arithmetic_total toFixed Math_log2 Math_ceil input :
  exists r, Arithmetic.compressArithmetic toFixed Math_log2 Math_ceil input = Some r.
Proof.
  destruct input as [|u input]; [simpl; eauto|].
  unfold Arithmetic.compressArithmetic.
  set (safeInput := List.firstn 15 (u :: input)).
  destruct (narrow_total toFixed
              (Arithmetic.build_probs (count_freqs (chars_of safeInput))
                 (Z.of_nat (List.length safeInput))
                 (stable_sort Arithmetic.by_code_units
                    (obj_keys (count_freqs (chars_of safeInput)))))
              (chars_of safeInput) 0%float 1%float []) as [[[low high] sts] Hn].
  { intros c Hc. apply build_probs_keys.
    eapply Permutation_in; [apply stable_sort_perm|].
    now apply (alphabet_of_in safeInput). }
  rewrite Hn. eauto.
Qed.

(** [compressRLE] and [compressGolomb] are total functions;
    [compressHuffman] and [compressArithmetic] return on every input; and
    [compressTunstall] returns exactly when the input is empty or has two
    or more distinct symbols. *)
Lemma encoders_return :
  (forall input, exists r, Huffman.compressHuffman input = Some r)
  /\ (forall toFixed Math_log2 Math_ceil input,
        exists r, Arithmetic.compressArithmetic toFixed Math_log2 Math_ceil input = Some r)
  /\ (forall input,
        2 <= List.length (alphabet_of input) ->
        exists r, forall fuel, 16 <= fuel -> Tunstall.compressTunstall fuel input = Some r)
  /\ (forall input,
        input <> [] -> List.length (alphabet_of input) = 1 ->
        forall fuel, Tunstall.compressTunstall fuel input = None).
Proof.
  split; [exact huffman_total|]. split; [exact arithmetic_total|].
  split; [exact tunstall_terminates|exact tunstall_single_symbol_never_returns].
Qed.

Lemma count_freqs_nonempty input : input <> [] -> count_freqs (chars_of input) <> [].
Proof.
  intros Hne Hnil. destruct input as [|u input]; [contradiction|].
  assert (Hin : List.In (List.hd [] (chars_of (u :: input))) (alphabet_of (u :: input))).
  { apply alphabet_of_in. simpl. destruct input as [|d input]; [now left|].
    destruct (is_high_surrogate u && is_low_surrogate d); now left. }
  unfold alphabet_of in Hin. rewrite Hnil in Hin. exact Hin.
Qed.

(** ** The trace reproduces the payload, where there is one *)

Lemma alphabet_of_empty input : alphabet_of input = [] -> input = [].
Proof.
  intros Ha. destruct input as [|c input]; [reflexivity|]. exfalso.
  apply (count_freqs_nonempty (c :: input)); [discriminate|].
  unfold alphabet_of in Ha. destruct (count_freqs (chars_of (c :: input))); [reflexivity|].
  discriminate.
Qed.

(** C4 fails for [compressTunstall] on the inputs with exactly one distinct
    symbol: no result is returned there, so there is no trace and no
    [encoded] string.  On every other input, and for [compressRLE] and
    [compressGolomb] on every input, the result exists and the [code]
    fields of its trace steps, concatenated in order, are its [encoded]
    string. *)
Theorem steps_concat_is_encoded :
  (forall input,
      List.concat (List.map RLE.code (steps (RLE.compressRLE input)))
      = encoded (RLE.compressRLE input))
  /\ (forall inputStr mParam,
      List.concat (List.map Golomb.code (steps (Golomb.compressGolomb inputStr mParam)))
      = encoded (Golomb.compressGolomb inputStr mParam))
  /\ (forall input,
      List.length (alphabet_of input) <> 1 ->
      exists r,
        (forall fuel, 16 <= fuel -> Tunstall.compressTunstall fuel input = Some r)
        /\ List.concat (List.map Tunstall.code (steps r)) = encoded r)
  /\ (forall input,
      List.length (alphabet_of input) = 1 ->
      forall fuel, Tunstall.compressTunstall fuel input = None)
  /\ (forall fuel, Tunstall.compressTunstall fuel (js "A") = None).
Proof.
  split; [|split; [|split; [|split]]].
  - intros [|c input]; [reflexivity|].
    unfold RLE.compressRLE.
    pose proof (rle_loop_concat (c :: input) 1%N [] [] eq_refl) as H.
    destruct (RLE.loop (c :: input) 1 [] []) as [enc sts]. exact H.
  - intros inputStr mParam. unfold Golomb.compressGolomb.
    destruct (Golomb.parse_numbers inputStr) as [|n numbers]; [reflexivity|].
    pose proof (golomb_loop_concat (Golomb.divisor mParam) (n :: numbers) ([], []) eq_refl)
      as H.
    unfold Golomb.loop.
    destruct (List.fold_left _ (n :: numbers) ([], [])) as [enc sts]. exact H.
  - intros input Ha.
    assert (Hr : exists r, forall fuel, 16 <= fuel ->
                   Tunstall.compressTunstall fuel input = Some r).
    { destruct (List.length (alphabet_of input)) as [|[|a]] eqn:Hlen.
      - apply List.length_zero_iff_nil, alphabet_of_empty in Hlen. subst input.
        exists zero_result. reflexivity.
      - contradiction.
      - apply tunstall_terminates. lia. }
    destruct Hr as [r Hr]. exists r. split; [exact Hr|].
    specialize (Hr 16 (le_n 16)). destruct input as [|c input].
    + inversion Hr; subst. reflexivity.
    + unfold Tunstall.compressTunstall in Hr.
      destruct (Tunstall.final_dictionary 16 (c :: input)) as [dict|]; [|discriminate].
      destruct (Tunstall.tokenize _ _ _ _ _ _) as [[enc sts]|] eqn:Htok; [|discriminate].
      inversion Hr; subst. simpl.
      eapply tunstall_tokenize_concat; [|exact Htok]. reflexivity.
  - intros input Ha. apply tunstall_single_symbol_never_returns; [|exact Ha].
    intros ->. discriminate.
  - intros fuel. apply tunstall_single_symbol_never_returns; [discriminate|reflexivity].
Qed.

Lemma steps_concat_is_encoded_witness :
  (exists r,
      Tunstall.compressTunstall 16 (js "ABAAB") = Some r
      /\ List.concat (List.map Tunstall.code (steps r)) = encoded r
      /\ encoded r = js "0010ERR")
  /\ Tunstall.compressTunstall 16 (js "AAAA") = None.
Proof.
  split.
  - destruct (proj1 (proj2 (proj2 steps_concat_is_encoded)) (js "ABAAB")) as (r & Hr & Hcat).
    { change (List.length (alphabet_of (js "ABAAB"))) with 2. discriminate. }
    exists r. split; [apply Hr; lia|]. split; [exact Hcat|].
    specialize (Hr 16 (le_n 16)). vm_compute in Hr. injection Hr as <-. reflexivity.
  - apply (proj1 (proj2 (proj2 (proj2 steps_concat_is_encoded))) (js "AAAA")). reflexivity.
Defined.

(** C1 fails.  On ["A"], and on ["AAAA"], whose alphabet has exactly one
    symbol, the growth loop of [compressTunstall] never exits, so the call
    returns no result however many iterations it is given.  And
    [compressLZW] throws on a byte-range text that makes it insert the key
    [hasOwnProperty] into its dictionary: the next membership test calls a
    number. *)
Theorem some_calls_do_not_return :
  (forall fuel, Tunstall.compressTunstall fuel (js "A") = None)
  /\ (forall fuel, Tunstall.compressTunstall fuel (js "AAAA") = None)
  /\ (forall fuel,
        Tunstall.grow fuel (count_freqs (chars_of (js "A"))) 1 [js "A"]
                      [Tunstall.mkEntry (js "A") 1] = None)
  /\ (let text :=
        js "ha0has1hasO2hasOw3hasOwn4hasOwnP5hasOwnPr6hasOwnPro7hasOwnProp8hasOwnPrope"
        ++ js "9hasOwnProper!hasOwnPropert@hasOwnProperty#" in
      LZW.compressLZW text = None
      /\ snd (LZW.run text) = false
      /\ LZW.st_dictionary (fst (LZW.run text)) !! js "hasOwnProperty" = Some 292%N).
Proof.
  split; [|split; [|split]].
  - intros fuel. apply tunstall_single_symbol_never_returns; [discriminate|reflexivity].
  - intros fuel. apply tunstall_single_symbol_never_returns; [discriminate|reflexivity].
  - intros fuel. apply grow_single_symbol; reflexivity.
  - vm_compute. repeat split; reflexivity.
Qed.

(* ===================================================================== *)
(** * Further properties of the encoders                                 *)
(* ===================================================================== *)

(** ** RLE: the runs *)

Lemma adjacent_differ_snoc {A} (l : list A) x y :
  adjacent_differ (l ++ [x]) -> x <> y -> adjacent_differ (l ++ [x; y]).
Proof.
  induction l as [|a [|b l] IH]; simpl; intros H Hxy.
  - auto.
  - destruct H as [Hax _]. auto.
  - destruct H as [Hab H]. split; [exact Hab|]. apply IH; assumption.
Qed.

Lemma concat_repeat_unit (c : N) n : List.concat (List.repeat [c] n) = List.repeat c n.
Proof. induction n as [|n IH]; simpl; [reflexivity|]. now rewrite IH. Qed.

Lemma repeat_move (c : N) n (t : jsstring) :
  List.repeat c (S n) ++ t = List.repeat c n ++ c :: t.
Proof.
  change (List.repeat c (S n)) with (c :: List.repeat c n).
  rewrite List.repeat_cons, <- List.app_assoc. reflexivity.
Qed.

Lemma expand_runs_snoc sts (c : N) count :
  expand_runs (sts ++ [RLE.mkStep [c] count (dec count ++ [c])])
  = expand_runs sts ++ List.repeat c (N.to_nat count).
Proof.
  unfold expand_runs. rewrite List.flat_map_app. simpl.
  now rewrite List.app_nil_r, concat_repeat_unit.
Qed.

Lemma rle_loop_expand s : forall count enc sts,
  (1 <= count)%N ->
  expand_runs (snd (RLE.loop s count enc sts))
  = expand_runs sts
    ++ match s with [] => [] | c :: _ => List.repeat c (N.to_nat count - 1) end
    ++ s.
Proof.
  induction s as [|c rest IH]; intros count enc sts Hc.
  - simpl. now rewrite List.app_nil_r.
  - assert (Hcnt : N.to_nat count = S (N.to_nat count - 1)) by lia.
    cbn [RLE.loop]. destruct rest as [|d rest'].
    + cbn [RLE.loop snd]. rewrite expand_runs_snoc. f_equal.
      rewrite Hcnt at 1. rewrite <- (List.app_nil_r (List.repeat c (S _))).
      apply repeat_move.
    + destruct (N.eqb c d) eqn:E.
      * apply N.eqb_eq in E. subst d. rewrite IH by lia. f_equal.
        replace (N.to_nat (count + 1) - 1) with (S (N.to_nat count - 1)) by lia.
        apply repeat_move.
      * rewrite IH by lia. rewrite expand_runs_snoc, <- List.app_assoc. f_equal.
        simpl. rewrite Hcnt at 1. apply repeat_move.
Qed.

Lemma rle_loop_counts s : forall count enc sts,
  (1 <= count)%N ->
  Forall (fun st => (1 <= RLE.count st)%N) sts ->
  Forall (fun st => (1 <= RLE.count st)%N) (snd (RLE.loop s count enc sts)).
Proof.
  induction s as [|c rest IH]; intros count enc sts Hc Hsts; [exact Hsts|].
  cbn [RLE.loop].
  destruct (match rest with [] => false | d :: _ => N.eqb c d end).
  - apply IH; [lia|exact Hsts].
  - apply IH; [lia|]. apply List.Forall_app. split; [exact Hsts|]. now repeat constructor.
Qed.

Lemma rle_loop_shape s : forall count enc sts,
  Forall (fun st => exists c, RLE.char st = [c] /\ RLE.code st = dec (RLE.count st) ++ [c]) sts ->
  Forall (fun st => exists c, RLE.char st = [c] /\ RLE.code st = dec (RLE.count st) ++ [c])
         (snd (RLE.loop s count enc sts)).
Proof.
  induction s as [|c rest IH]; intros count enc sts Hsts; [exact Hsts|].
  cbn [RLE.loop].
  destruct (match rest with [] => false | d :: _ => N.eqb c d end).
  - now apply IH.
  - apply IH. apply List.Forall_app. split; [exact Hsts|].
    constructor; [|constructor]. exists c. split; reflexivity.
Qed.

Lemma rle_loop_adjacent s : forall count enc sts,
  match s with
  | [] => adjacent_differ (List.map RLE.char sts)
  | c :: _ => adjacent_differ (List.map RLE.char sts ++ [[c]])
  end ->
  adjacent_differ (List.map RLE.char (snd (RLE.loop s count enc sts))).
Proof.
  induction s as [|c rest IH]; intros count enc sts H; [exact H|].
  cbn [RLE.loop]. destruct rest as [|d rest'].
  - cbn [RLE.loop snd]. rewrite List.map_app. exact H.
  - destruct (N.eqb c d) eqn:E.
    + apply N.eqb_eq in E. subst d. apply IH. exact H.
    + apply N.eqb_neq in E. apply IH. rewrite List.map_app. simpl.
      rewrite <- List.app_assoc. simpl.
      apply adjacent_differ_snoc; [exact H|congruence].
Qed.

(** X1: the runs that [compressRLE] records are the input: every count is
    at least 1, every step is one code unit with the code "count, then the
    unit", and writing each unit [count] times in order gives back the
    input. *)
Theorem rle_runs_rebuild_input input :
  let r := RLE.compressRLE input in
  expand_runs (steps r) = input
  /\ Forall (fun st => (1 <= RLE.count st)%N) (steps r)
  /\ Forall (fun st => exists c, RLE.char st = [c]
                                 /\ RLE.code st = dec (RLE.count st) ++ [c]) (steps r).
Proof.
  destruct input as [|c input]; [repeat split; constructor|].
  unfold RLE.compressRLE.
  pose proof (rle_loop_expand (c :: input) 1%N [] [] (N.le_refl 1)) as Hexp.
  pose proof (rle_loop_counts (c :: input) 1%N [] [] (N.le_refl 1) (List.Forall_nil _)) as Hcnt.
  pose proof (rle_loop_shape (c :: input) 1%N [] [] (List.Forall_nil _)) as Hshape.
  destruct (RLE.loop (c :: input) 1 [] []) as [enc sts]. cbn [steps snd] in *.
  repeat split; assumption.
Qed.

(** X2: the runs are maximal: two consecutive steps never carry the same
    unit. *)
Theorem rle_runs_are_maximal input :
  adjacent_differ (List.map RLE.char (steps (RLE.compressRLE input))).
Proof.
  destruct input as [|c input]; [exact I|].
  unfold RLE.compressRLE.
  pose proof (rle_loop_adjacent (c :: input) 1%N [] [] I) as H.
  destruct (RLE.loop (c :: input) 1 [] []) as [enc sts]. exact H.
Qed.

Lemma rle_loop_length s : forall count enc sts,
  List.length (snd (RLE.loop s count enc sts)) <= List.length sts + List.length s
  /\ (adjacent_differ s ->
      List.length (snd (RLE.loop s count enc sts)) = List.length sts + List.length s).
Proof.
  induction s as [|c rest IH]; intros count enc sts; [simpl; lia|].
  cbn [RLE.loop]. destruct rest as [|d rest'].
  - cbn [RLE.loop snd]. rewrite List.length_app. simpl. lia.
  - destruct (N.eqb c d) eqn:E.
    + destruct (IH (count + 1)%N enc sts) as [Hle _]. split; [simpl in *; lia|].
      intros [Hne _]. apply N.eqb_eq in E. contradiction.
    + destruct (IH 1%N (enc ++ dec count ++ [c])
                   (sts ++ [RLE.mkStep [c] count (dec count ++ [c])])) as [Hle Heq].
      rewrite List.length_app in Hle, Heq. simpl in *. split; [lia|].
      intros [_ Hadj]. specialize (Heq Hadj). lia.
Qed.

(** X3: [compressRLE] charges 16 bits per run and never more runs than
    units, so the compressed size is at most twice the original; on a text
    without two equal neighbouring units it is exactly twice the original
    (the expansion the interface warns about). *)
Theorem rle_size_at_most_doubles input :
  let r := RLE.compressRLE input in
  (compressedSize r <= 2 * originalSize r)%Z
  /\ (adjacent_differ input -> compressedSize r = (2 * originalSize r)%Z).
Proof.
  destruct input as [|c input]; [simpl; split; [lia|reflexivity]|].
  unfold RLE.compressRLE.
  destruct (rle_loop_length (c :: input) 1%N [] []) as [Hle Heq].
  destruct (RLE.loop (c :: input) 1 [] []) as [enc sts]. cbn [compressedSize originalSize snd] in *.
  split; [simpl in *; lia|]. intros Hadj. specialize (Heq Hadj). simpl in *. lia.
Qed.

Lemma rle_size_at_most_doubles_witness :
  adjacent_differ (js "ABAB")
  /\ compressedSize (RLE.compressRLE (js "ABAB")) = 64%Z.
Proof.
  assert (H : adjacent_differ (js "ABAB")).
  { simpl. repeat split; discriminate. }
  split; [exact H|].
  rewrite (proj2 (rle_size_at_most_doubles (js "ABAB")) H). reflexivity.
Defined.

(** ** LZW: the trace, the codes and the shadowed method *)

Lemma lzw_loop_covers input : forall st st',
  LZW.loop input st = (st', true) ->
  List.concat (List.map LZW.w (LZW.st_steps st')) ++ LZW.st_w st'
  = List.concat (List.map LZW.w (LZW.st_steps st)) ++ LZW.st_w st ++ input.
Proof.
  induction input as [|c input IH]; intros st st' Hrun; simpl in Hrun.
  - inversion Hrun; subst. now rewrite List.app_nil_r.
  - destruct (LZW.iter c st) as [st1|] eqn:Hiter; [|discriminate].
    rewrite (IH _ _ Hrun). unfold LZW.iter in Hiter.
    destruct (LZW.has_own _ _) as [[|]|]; inversion Hiter; subst;
      cbn [LZW.st_steps LZW.st_w].
    + now rewrite <- List.app_assoc.
    + rewrite List.map_app. cbn [List.map LZW.w]. rewrite concat_snoc.
      now rewrite <- List.app_assoc.
Qed.

(** X4: when [compressLZW] returns, the prefixes [w] recorded in the trace,
    concatenated in order, are the input: the steps cut the input into the
    phrases the codes stand for. *)
Theorem lzw_trace_covers_input input r :
  LZW.compressLZW input = Some r ->
  List.concat (List.map LZW.w (steps r)) = input.
Proof.
  intros Hr. destruct input as [|c input]; [now inversion Hr|].
  unfold LZW.compressLZW, LZW.run in Hr.
  destruct (LZW.loop (c :: input) _) as [st [|]] eqn:Hloop; [|discriminate].
  inversion Hr; subst. cbn [steps].
  apply lzw_loop_covers in Hloop. simpl in Hloop.
  unfold LZW.flush. destruct (LZW.st_w st) as [|u w] eqn:Hw; simpl.
  - now rewrite List.app_nil_r in Hloop.
  - rewrite List.map_app. cbn [List.map LZW.w]. rewrite concat_snoc. exact Hloop.
Qed.

Lemma lzw_trace_covers_input_witness :
  exists r,
    LZW.compressLZW (js "abababab") = Some r
    /\ List.map LZW.w (steps r) = [js "a"; js "b"; js "ab"; js "aba"; js "b"]
    /\ List.concat (List.map LZW.w (steps r)) = js "abababab".
Proof.
  eexists. split; [vm_compute; reflexivity|]. split; [reflexivity|].
  apply (lzw_trace_covers_input (js "abababab")). vm_compute. reflexivity.
Defined.

Lemma dict_set_lookup (wc : jsstring) (v : N) (d : gmap (list N) N) (k : jsstring) (x : N) :
  LZW.dict_set wc v d !! k = Some x -> (k = wc /\ x = v) \/ d !! k = Some x.
Proof.
  unfold LZW.dict_set. destruct (str_eqb wc (js "__proto__")); [now right|].
  rewrite lookup_insert_Some. intros [[-> ->]|[_ H]]; auto.
Qed.

Lemma dict_set_method_name (wc : jsstring) (v : N) (d : gmap (list N) N) :
  wc <> js "hasOwnProperty" ->
  d !! js "hasOwnProperty" = None ->
  LZW.dict_set wc v d !! js "hasOwnProperty" = None.
Proof.
  intros Hne Hd. unfold LZW.dict_set. destruct (str_eqb wc (js "__proto__")); [exact Hd|].
  now rewrite lookup_insert_ne.
Qed.

Lemma lzw_loop_completes input : forall st pre,
  ~ is_substring (js "hasOwnProperty") (pre ++ LZW.st_w st ++ input) ->
  LZW.st_dictionary st !! js "hasOwnProperty" = None ->
  snd (LZW.loop input st) = true.
Proof.
  induction input as [|c input IH]; intros st pre Hsub Hd; [reflexivity|].
  simpl. unfold LZW.iter, LZW.has_own. rewrite Hd.
  destruct (LZW.st_dictionary st !! (LZW.st_w st ++ [c])).
  - apply (IH _ pre); simpl; [|exact Hd].
    now rewrite <- List.app_assoc.
  - apply (IH _ (pre ++ LZW.st_w st)); simpl.
    + now rewrite <- List.app_assoc.
    + apply dict_set_method_name; [|exact Hd].
      intros Heq. apply Hsub. exists pre, input.
      rewrite <- Heq, <- List.app_assoc. reflexivity.
Qed.

(** X5: [compressLZW] returns on every input in which the text
    ["hasOwnProperty"] does not occur: only that key, once inserted, makes
    the membership test throw. *)
Theorem lzw_returns_without_method_name input :
  ~ is_substring (js "hasOwnProperty") input ->
  exists r, LZW.compressLZW input = Some r.
Proof.
  intros Hsub. destruct input as [|c input]; [simpl; eauto|].
  unfold LZW.compressLZW, LZW.run.
  assert (Hseed : LZW.seed !! js "hasOwnProperty" = None) by (vm_compute; reflexivity).
  pose proof (lzw_loop_completes (c :: input) (LZW.mkState LZW.seed [] [] [] 256%N) []
                Hsub Hseed) as Hdone.
  destruct (LZW.loop (c :: input) _) as [st done]. cbn [snd] in Hdone.
  rewrite Hdone. eauto.
Qed.

Lemma lzw_returns_without_method_name_witness :
  ~ is_substring (js "hasOwnProperty") (js "ab")
  /\ exists r, LZW.compressLZW (js "ab") = Some r.
Proof.
  assert (H : ~ is_substring (js "hasOwnProperty") (js "ab")).
  { intros (a & b & Heq). apply (f_equal (@List.length N)) in Heq.
    rewrite !List.length_app in Heq. simpl in Heq. lia. }
  split; [exact H|]. exact (lzw_returns_without_method_name (js "ab") H).
Defined.

Lemma seed_fold_inv n : forall (k : jsstring) (v : N),
  List.fold_left (fun (d : gmap (list N) N) i => <[ [N.of_nat i] := N.of_nat i ]> d)
                 (List.seq 0 n) ∅ !! k = Some v ->
  k = [v] /\ (v < N.of_nat n)%N.
Proof.
  induction n as [|n IH]; intros k v H.
  - simpl in H. rewrite lookup_empty in H. discriminate.
  - rewrite List.seq_S, List.fold_left_app in H. simpl in H.
    apply lookup_insert_Some in H as [[<- <-]|[_ H]].
    + split; [reflexivity|lia].
    + apply IH in H as [-> Hv]. split; [reflexivity|lia].
Qed.

Lemma lzw_codes_inv_init : lzw_codes_inv (LZW.mkState LZW.seed [] [] [] 256%N).
Proof.
  split; cbn [LZW.st_dictionary LZW.st_dictSize LZW.st_steps LZW.st_result].
  - reflexivity.
  - reflexivity.
  - intros k v H. apply seed_fold_inv in H as [_ H]. exact H.
  - intros k1 k2 v H1 H2. apply seed_fold_inv in H1 as [-> _], H2 as [-> _]. reflexivity.
  - intros i v H. destruct i; discriminate.
  - intros i s H. destruct i; discriminate.
Qed.

Lemma lzw_codes_inv_iter c st st' :
  lzw_codes_inv st -> LZW.iter c st = Some st' -> lzw_codes_inv st'.
Proof.
  intros [Hsize Hres Hbound Hinj Hem Hsteps] Hiter. unfold LZW.iter, LZW.has_own in Hiter.
  destruct (LZW.st_dictionary st !! js "hasOwnProperty"); [discriminate|].
  destruct (LZW.st_dictionary st !! (LZW.st_w st ++ [c])) eqn:Hwc;
    inversion Hiter; subst; clear Hiter.
  { split; assumption. }
  split; cbn [LZW.st_dictionary LZW.st_dictSize LZW.st_steps LZW.st_result].
  - rewrite List.length_app. simpl. lia.
  - rewrite !List.length_app. simpl. lia.
  - intros k v H. apply dict_set_lookup in H as [[_ ->]|H]; [lia|].
    apply Hbound in H. lia.
  - intros k1 k2 v H1 H2.
    apply dict_set_lookup in H1 as [[-> ->]|H1], H2 as [[-> Hv]|H2]; try reflexivity.
    + apply Hbound in H2. lia.
    + apply Hbound in H1. lia.
    + eapply Hinj; eassumption.
  - intros i v H. apply lookup_snoc_Some in H as [[_ H]|[-> H]]; [now apply Hem|].
    unfold LZW.dict_get in H. apply Hbound in H. lia.
  - intros i s H. apply lookup_snoc_Some in H as [[_ H]|[-> <-]]; [now apply Hsteps|].
    simpl. split; [congruence|reflexivity].
Qed.

Lemma lzw_codes_inv_loop input : forall st,
  lzw_codes_inv st -> lzw_codes_inv (fst (LZW.loop input st)).
Proof.
  induction input as [|c input IH]; intros st Hst; [exact Hst|].
  simpl. destruct (LZW.iter c st) as [st'|] eqn:Hiter; [|exact Hst].
  apply IH. eapply lzw_codes_inv_iter; eassumption.
Qed.

Lemma lzw_run_codes input :
  let st := fst (LZW.run input) in
  (forall k1 k2 v,
      LZW.st_dictionary st !! k1 = Some v -> LZW.st_dictionary st !! k2 = Some v -> k1 = k2)
  /\ (forall i v, LZW.st_result st !! i = Some (Some v) -> (v < 256 + N.of_nat i)%N)
  /\ (forall i s, LZW.st_steps st !! i = Some s ->
        LZW.step s = (N.of_nat i + 1)%N
        /\ forall n, LZW.newCode s = inl n -> n = (256 + N.of_nat i)%N).
Proof.
  unfold LZW.run.
  pose proof (lzw_codes_inv_loop input _ lzw_codes_inv_init) as Hinv.
  destruct (LZW.loop input _) as [st [|]]; cbn [fst] in *;
    destruct Hinv as [Hsize Hres Hbound Hinj Hem Hsteps].
  - unfold LZW.flush. destruct (LZW.st_w st) as [|u w]; cbn [LZW.st_dictionary LZW.st_result LZW.st_steps].
    + repeat split; try assumption; try (now apply Hsteps).
      intros n Hn. destruct (Hsteps _ _ H) as [Hc _]. congruence.
    + split; [exact Hinj|]. split.
      * intros i v H. apply lookup_snoc_Some in H as [[_ H]|[-> H]]; [now apply Hem|].
        unfold LZW.dict_get in H. apply Hbound in H. lia.
      * intros i s H. apply lookup_snoc_Some in H as [[_ H]|[-> <-]].
        -- destruct (Hsteps _ _ H) as [Hc Hn]. split; [exact Hn|]. intros n Hn'. congruence.
        -- simpl. split; [reflexivity|]. intros n Hn. discriminate.
  - repeat split; try assumption; try (now apply Hsteps).
    intros n Hn. destruct (Hsteps _ _ H) as [Hc _]. congruence.
Qed.

(** X6: [compressLZW] hands out codes consecutively from 256: the step of
    position [i] is numbered [i + 1] and, when it inserts, inserts code
    [256 + i]; and the [i]-th emitted code is below [256 + i], so it names
    a seeded byte or an entry inserted by an earlier step. *)
Theorem lzw_codes_are_consecutive input :
  let st := fst (LZW.run input) in
  (forall i v, LZW.st_result st !! i = Some (Some v) -> (v < 256 + N.of_nat i)%N)
  /\ (forall i s, LZW.st_steps st !! i = Some s ->
        LZW.step s = (N.of_nat i + 1)%N
        /\ forall n, LZW.newCode s = inl n -> n = (256 + N.of_nat i)%N).
Proof. exact (proj2 (lzw_run_codes input)). Qed.

Lemma lzw_codes_are_consecutive_witness :
  LZW.st_result (fst (LZW.run (js "abab"))) !! 2 = Some (Some 256%N)
  /\ (256 < 256 + N.of_nat 2)%N.
Proof.
  assert (H : LZW.st_result (fst (LZW.run (js "abab"))) !! 2 = Some (Some 256%N)).
  { vm_compute. reflexivity. }
  split; [exact H|].
  exact (proj1 (lzw_codes_are_consecutive (js "abab")) 2 256%N H).
Defined.

(** X7: the LZW dictionary never holds two strings under one code, so a
    code identifies its string. *)
Theorem lzw_dictionary_codes_distinct input (k1 k2 : jsstring) (v : N) :
  LZW.st_dictionary (fst (LZW.run input)) !! k1 = Some v ->
  LZW.st_dictionary (fst (LZW.run input)) !! k2 = Some v ->
  k1 = k2.
Proof. apply (proj1 (lzw_run_codes input)). Qed.

Lemma lzw_dictionary_codes_distinct_witness :
  LZW.st_dictionary (fst (LZW.run (js "abab"))) !! js "ab" = Some 256%N
  /\ js "ab" = js "ab".
Proof.
  assert (H : LZW.st_dictionary (fst (LZW.run (js "abab"))) !! js "ab" = Some 256%N).
  { vm_compute. reflexivity. }
  split; [exact H|].
  exact (lzw_dictionary_codes_distinct (js "abab") (js "ab") (js "ab") 256%N H H).
Defined.

(** ** Golomb: quotient, remainder and the codeword *)

Lemma parse_numbers_nonneg inputStr : Forall (fun n => (0 <= n)%Z) (Golomb.parse_numbers inputStr).
Proof.
  unfold Golomb.parse_numbers. apply List.Forall_forall. intros n Hn.
  apply List.in_map_iff in Hn as (o & <- & Ho).
  apply List.filter_In in Ho as [_ Hv]. destruct o as [z|]; simpl in *; [|discriminate].
  now apply Z.leb_le.
Qed.

Lemma divisor_positive mParam : (1 <= Golomb.divisor mParam)%Z.
Proof. unfold Golomb.divisor. lia. Qed.

(** Beyond 2^53 the quotient of the source is no longer the integer
    quotient: for [n = 9007200336871424] and [M = 2^30 + 1] the binary64
    division gives 8388609, one more than the integer quotient, while the
    remainder [n % M] is exact; the number is outside [exact_number]. *)
Example binary64_quotient_beyond_2_53 :
  PrimFloat.div 9007200336871424 1073741825 = 8388609%float
  /\ (9007200336871424 / 1073741825 = 8388608)%Z
  /\ ~ exact_number 9007200336871424.
Proof.
  split; [reflexivity|]. split; [reflexivity|].
  intros [_ H]. apply Z.ltb_lt in H. discriminate H.
Qed.

(** X8: for a divisor of at most 2^32 and numbers below 2^53, where the
    binary64 division of the source is the integer division, the steps of
    [compressGolomb] carry the parsed numbers in order, and every step
    splits its number by the clamped divisor [M >= 1]:
    [number = q * M + r] with [0 <= r < M] and [0 <= q], and the number
    is not negative. *)
Theorem golomb_steps_divide inputStr mParam :
  golomb_exact inputStr mParam ->
  let M := Golomb.divisor mParam in
  (1 <= M)%Z
  /\ List.map Golomb.number (steps (Golomb.compressGolomb inputStr mParam))
     = Golomb.parse_numbers inputStr
  /\ Forall (fun s =>
               (0 <= Golomb.number s
                /\ Golomb.number s = Golomb.q s * M + Golomb.r s
                /\ 0 <= Golomb.r s < M
                /\ 0 <= Golomb.q s)%Z)
            (steps (Golomb.compressGolomb inputStr mParam)).
Proof.
  intros _. cbv zeta. pose proof (divisor_positive mParam) as HM. split; [exact HM|].
  split; [apply golomb_step_numbers|].
  rewrite (proj1 (golomb_result inputStr mParam)).
  apply List.Forall_forall. intros s Hs.
  apply List.in_map_iff in Hs as (n & <- & Hn).
  pose proof (parse_numbers_nonneg inputStr) as Hpos.
  rewrite List.Forall_forall in Hpos. specialize (Hpos n Hn).
  cbn [Golomb.encode_number Golomb.number Golomb.q Golomb.r].
  pose proof (Z.div_mod n (Golomb.divisor mParam) ltac:(lia)) as Hdm.
  pose proof (Z.mod_pos_bound n (Golomb.divisor mParam) ltac:(lia)) as Hr.
  assert (0 <= n / Golomb.divisor mParam)%Z by (apply Z.div_pos; lia).
  repeat split; try lia.
Qed.

Lemma golomb_exact_example : golomb_exact (js "42, 10 7") (inject_Z 5).
Proof.
  split; [split; apply Z.leb_le; reflexivity|].
  repeat constructor; apply Z.leb_le || apply Z.ltb_lt; reflexivity.
Qed.

Lemma golomb_steps_divide_witness :
  golomb_exact (js "42, 10 7") (inject_Z 5)
  /\ List.map (fun s => (Golomb.q s, Golomb.r s))
       (steps (Golomb.compressGolomb (js "42, 10 7") (inject_Z 5)))
     = [(8, 2); (2, 0); (1, 2)]%Z.
Proof.
  split; [exact golomb_exact_example|].
  pose proof (golomb_steps_divide (js "42, 10 7") (inject_Z 5) golomb_exact_example) as H.
  reflexivity.
Defined.

Lemma pos_bits_app p : forall acc, pos_bits p acc = pos_bits p [] ++ acc.
Proof.
  induction p as [p IH|p IH|]; intros acc; simpl; [| |reflexivity].
  - rewrite (IH (digit_char 1 :: acc)), (IH [digit_char 1]), <- List.app_assoc. reflexivity.
  - rewrite (IH (digit_char 0 :: acc)), (IH [digit_char 0]), <- List.app_assoc. reflexivity.
Qed.

Lemma pos_bits_length p : forall acc,
  List.length (pos_bits p acc) = Pos.size_nat p + List.length acc.
Proof.
  induction p as [p IH|p IH|]; intros acc; simpl; [| |reflexivity];
    rewrite IH; simpl; lia.
Qed.

Lemma pos_size_bound p : forall k, (Zpos p < 2 ^ Z.of_nat k)%Z -> Pos.size_nat p <= k.
Proof.
  induction p as [p IH|p IH|]; intros k Hk; simpl.
  - destruct k as [|k]; [simpl in Hk; lia|].
    rewrite Nat2Z.inj_succ, Z.pow_succ_r in Hk by lia.
    specialize (IH k ltac:(lia)). lia.
  - destruct k as [|k]; [simpl in Hk; lia|].
    rewrite Nat2Z.inj_succ, Z.pow_succ_r in Hk by lia.
    specialize (IH k ltac:(lia)). lia.
  - destruct k as [|k]; [simpl in Hk; lia|lia].
Qed.

Lemma pos_bits_bits p : forall acc, Forall is_bit acc -> Forall is_bit (pos_bits p acc).
Proof.
  induction p as [p IH|p IH|]; intros acc Hacc; simpl.
  - apply IH. constructor; [now right|exact Hacc].
  - apply IH. constructor; [now left|exact Hacc].
  - constructor; [now right|exact Hacc].
Qed.

Lemma toString2_bits n : (0 <= n)%Z -> Forall is_bit (toString2 n).
Proof.
  intros Hn. destruct n as [|p|p]; simpl; [| |lia].
  - constructor; [now left|constructor].
  - apply pos_bits_bits. constructor.
Qed.

Lemma toString2_length n k :
  (0 <= n < 2 ^ Z.of_nat k)%Z -> 1 <= k -> List.length (toString2 n) <= k.
Proof.
  intros Hn Hk. destruct n as [|p|p]; simpl; [lia| |lia].
  rewrite pos_bits_length. simpl. pose proof (pos_size_bound p k ltac:(lia)). lia.
Qed.

Lemma padStart_length target c s :
  (Z.of_nat (List.length s) <= target)%Z ->
  Z.of_nat (List.length (padStart target c s)) = target.
Proof.
  intros H. unfold padStart. rewrite List.length_app, List.repeat_length. lia.
Qed.

Lemma padStart_bits target s : Forall is_bit s -> Forall is_bit (padStart target (digit_char 0) s).
Proof.
  intros H. unfold padStart. apply List.Forall_app. split; [|exact H].
  apply List.Forall_forall. intros c Hc. apply List.repeat_spec in Hc. now left.
Qed.

Lemma bits_spec M :
  (2 <= M)%Z ->
  (1 <= Golomb.bits M /\ 2 ^ (Golomb.bits M - 1) < M <= 2 ^ Golomb.bits M)%Z.
Proof.
  intros HM. unfold Golomb.bits.
  pose proof (Z.log2_up_spec M ltac:(lia)) as Hspec.
  pose proof (Z.log2_up_pos M ltac:(lia)).
  replace (Z.pred (Z.log2_up M)) with (Z.log2_up M - 1)%Z in Hspec by lia. lia.
Qed.

Lemma cutoff_bounds M :
  (2 <= M)%Z -> (0 <= Golomb.cutoff M < 2 ^ (Golomb.bits M - 1))%Z.
Proof.
  intros HM. destruct (bits_spec M HM) as (Hb & Hlo & Hhi). unfold Golomb.cutoff.
  assert (Hpow : (2 ^ Golomb.bits M = 2 * 2 ^ (Golomb.bits M - 1))%Z).
  { rewrite <- Z.pow_succ_r by lia. f_equal. lia. }
  lia.
Qed.

Lemma golomb_binary_part M n :
  (1 <= M)%Z -> (0 <= n)%Z ->
  let s := Golomb.encode_number M n in
  Z.of_nat (List.length (Golomb.binary s)) = binary_length M (Golomb.r s)
  /\ Forall is_bit (Golomb.binary s).
Proof.
  intros HM Hn. cbv zeta. unfold binary_length.
  cbn [Golomb.encode_number Golomb.binary Golomb.r].
  destruct (Z.eqb M 1) eqn:E1; [split; [reflexivity|constructor]|].
  apply Z.eqb_neq in E1. assert (HM2 : (2 <= M)%Z) by lia.
  destruct (bits_spec M HM2) as (Hb & Hlo & Hhi).
  pose proof (cutoff_bounds M HM2) as Hcut.
  pose proof (Z.mod_pos_bound n M ltac:(lia)) as Hr.
  destruct (Z.ltb (n mod M) (Golomb.cutoff M)) eqn:Ecut.
  - apply Z.ltb_lt in Ecut. split; [|apply padStart_bits, toString2_bits; lia].
    apply padStart_length.
    assert (Hb1 : (1 <= Golomb.bits M - 1)%Z).
    { destruct (Z.eq_dec (Golomb.bits M) 1%Z) as [Heq|]; [|lia].
      rewrite Heq in Hcut. simpl in Hcut. lia. }
    pose proof (toString2_length (n mod M) (Z.to_nat (Golomb.bits M - 1))) as Hlen.
    rewrite Z2Nat.id in Hlen by lia. specialize (Hlen ltac:(lia) ltac:(lia)). lia.
  - apply Z.ltb_ge in Ecut. split; [|apply padStart_bits, toString2_bits; lia].
    apply padStart_length.
    pose proof (toString2_length (n mod M + Golomb.cutoff M) (Z.to_nat (Golomb.bits M))) as Hlen.
    rewrite Z2Nat.id in Hlen by lia.
    assert (n mod M + Golomb.cutoff M < 2 ^ Golomb.bits M)%Z by (unfold Golomb.cutoff in *; lia).
    specialize (Hlen ltac:(lia) ltac:(lia)). lia.
Qed.

(** X9: for a divisor of at most 2^32 and numbers below 2^53, a Golomb
    codeword is [q] ones, a zero, and a binary part of exactly [b - 1]
    digits when the remainder is below the cutoff, [b] digits otherwise,
    and none when [M = 1]; it consists of the digits 0 and 1 only, and the
    stream is the codewords of the steps in order. *)
Theorem golomb_codeword_shape inputStr mParam :
  golomb_exact inputStr mParam ->
  let M := Golomb.divisor mParam in
  let r := Golomb.compressGolomb inputStr mParam in
  Forall (fun s =>
            Golomb.unary s = List.repeat (digit_char 1) (Z.to_nat (Golomb.q s)) ++ [digit_char 0]
            /\ Golomb.code s = Golomb.unary s ++ Golomb.binary s
            /\ Z.of_nat (List.length (Golomb.binary s)) = binary_length M (Golomb.r s)
            /\ Z.of_nat (List.length (Golomb.code s))
               = (Golomb.q s + 1 + binary_length M (Golomb.r s))%Z)
         (steps r)
  /\ Forall is_bit (encoded r).
Proof.
  intros _. cbv zeta. destruct (golomb_result inputStr mParam) as [Hsteps Henc].
  pose proof (divisor_positive mParam) as HM.
  pose proof (parse_numbers_nonneg inputStr) as Hpos.
  rewrite List.Forall_forall in Hpos.
  assert (Hall : forall s, List.In s (steps (Golomb.compressGolomb inputStr mParam)) ->
             exists n, (0 <= n)%Z /\ s = Golomb.encode_number (Golomb.divisor mParam) n).
  { intros s Hs. rewrite Hsteps in Hs. apply List.in_map_iff in Hs as (n & <- & Hn). eauto. }
  split.
  - apply List.Forall_forall. intros s Hs. destruct (Hall s Hs) as (n & Hn & ->).
    destruct (golomb_binary_part (Golomb.divisor mParam) n HM Hn) as [Hlen _].
    repeat split; try exact Hlen.
    set (s := Golomb.encode_number (Golomb.divisor mParam) n) in *.
    change (Golomb.code s) with (Golomb.unary s ++ Golomb.binary s).
    rewrite List.length_app, Nat2Z.inj_add, Hlen.
    change (Golomb.unary s) with (repeat_char (digit_char 1) (Golomb.q s) ++ js "0").
    unfold repeat_char. rewrite List.length_app, List.repeat_length.
    assert (0 <= Golomb.q s)%Z by (apply Z.div_pos; lia).
    change (List.length (js "0")) with 1. lia.
  - rewrite Henc. apply List.Forall_forall. intros c Hc.
    apply List.in_concat in Hc as (code & Hcode & Hc).
    apply List.in_map_iff in Hcode as (s & <- & Hs).
    destruct (Hall s Hs) as (n & Hn & ->).
    destruct (golomb_binary_part (Golomb.divisor mParam) n HM Hn) as [_ Hbits].
    cbn [Golomb.encode_number Golomb.code Golomb.binary] in *.
    apply List.in_app_or in Hc as [Hc|Hc].
    + apply List.in_app_or in Hc as [Hc|[<-|[]]]; [|now left].
      apply List.repeat_spec in Hc. now right.
    + rewrite List.Forall_forall in Hbits. now apply Hbits.
Qed.

Lemma golomb_codeword_shape_witness :
  golomb_exact (js "42, 10 7") (inject_Z 5)
  /\ encoded (Golomb.compressGolomb (js "42, 10 7") (inject_Z 5)) = js "11111111010110001010"
  /\ Forall is_bit (encoded (Golomb.compressGolomb (js "42, 10 7") (inject_Z 5))).
Proof.
  split; [exact golomb_exact_example|]. split; [reflexivity|].
  exact (proj2 (golomb_codeword_shape (js "42, 10 7") (inject_Z 5) golomb_exact_example)).
Defined.

Lemma unary_split q1 : forall q2 (b1 b2 : jsstring),
  List.repeat (digit_char 1) q1 ++ digit_char 0 :: b1
  = List.repeat (digit_char 1) q2 ++ digit_char 0 :: b2 ->
  q1 = q2 /\ b1 = b2.
Proof.
  induction q1 as [|q1 IH]; intros [|q2] b1 b2 H; simpl in H.
  - inversion H. auto.
  - inversion H.
  - inversion H.
  - inversion H as [H']. apply IH in H' as [-> ->]. auto.
Qed.

Lemma bin_fold_pos_bits p : forall (acc : jsstring) init,
  List.fold_left (fun a c => 2 * a + (Z.of_N c - 48))%Z (pos_bits p acc) init
  = List.fold_left (fun a c => 2 * a + (Z.of_N c - 48))%Z acc
      (init * 2 ^ Z.of_nat (Pos.size_nat p) + Zpos p)%Z.
Proof.
  induction p as [p IH|p IH|]; intros acc init; cbn [pos_bits Pos.size_nat].
  - rewrite IH. cbn [List.fold_left]. f_equal.
    rewrite Nat2Z.inj_succ, Z.pow_succ_r by lia. change (Z.of_N (digit_char 1)) with 49%Z. lia.
  - rewrite IH. cbn [List.fold_left]. f_equal.
    rewrite Nat2Z.inj_succ, Z.pow_succ_r by lia. change (Z.of_N (digit_char 0)) with 48%Z. lia.
  - cbn [List.fold_left]. f_equal. change (Z.of_N (digit_char 1)) with 49%Z.
    change (2 ^ Z.of_nat 1)%Z with 2%Z. lia.
Qed.

Lemma bin_fold_zeros k (s : jsstring) :
  List.fold_left (fun a c => 2 * a + (Z.of_N c - 48))%Z (List.repeat (digit_char 0) k ++ s) 0%Z
  = List.fold_left (fun a c => 2 * a + (Z.of_N c - 48))%Z s 0%Z.
Proof. induction k as [|k IH]; simpl; [reflexivity|exact IH]. Qed.

(** Reading back a padded binary numeral. *)
Lemma bin_value_padStart target n :
  (0 <= n)%Z -> bin_value (padStart target (digit_char 0) (toString2 n)) = n.
Proof.
  intros Hn. unfold bin_value, padStart. rewrite bin_fold_zeros.
  destruct n as [|p|p]; [reflexivity| |lia].
  cbn [toString2]. rewrite bin_fold_pos_bits. simpl. lia.
Qed.

(** X10: for one divisor of at most 2^32, the Golomb codeword determines
    the number: two numbers below 2^53 with the same codeword are equal. *)
Theorem golomb_codeword_determines_number mParam n1 n2 :
  exact_divisor (Golomb.divisor mParam) ->
  exact_number n1 -> exact_number n2 ->
  Golomb.code (Golomb.encode_number (Golomb.divisor mParam) n1)
  = Golomb.code (Golomb.encode_number (Golomb.divisor mParam) n2) ->
  n1 = n2.
Proof.
  intros _ [H1 _] [H2 _] Hcode. pose proof (divisor_positive mParam) as HM.
  set (M := Golomb.divisor mParam) in *.
  destruct (golomb_binary_part M n1 HM H1) as [Hlen1 _].
  destruct (golomb_binary_part M n2 HM H2) as [Hlen2 _].
  assert (Hq1 : (0 <= n1 / M)%Z) by (apply Z.div_pos; lia).
  assert (Hq2 : (0 <= n2 / M)%Z) by (apply Z.div_pos; lia).
  assert (Hsplit : Z.to_nat (n1 / M) = Z.to_nat (n2 / M)
                   /\ Golomb.binary (Golomb.encode_number M n1)
                      = Golomb.binary (Golomb.encode_number M n2)).
  { apply unary_split.
    change (Golomb.code (Golomb.encode_number M n1))
      with ((repeat_char (digit_char 1) (n1 / M) ++ js "0")
              ++ Golomb.binary (Golomb.encode_number M n1)) in Hcode.
    change (Golomb.code (Golomb.encode_number M n2))
      with ((repeat_char (digit_char 1) (n2 / M) ++ js "0")
              ++ Golomb.binary (Golomb.encode_number M n2)) in Hcode.
    rewrite <- !List.app_assoc in Hcode. exact Hcode. }
  destruct Hsplit as [Hq Hbin].
  assert (Hqeq : (n1 / M = n2 / M)%Z) by lia.
  rewrite Hbin in Hlen1. rewrite Hlen1 in Hlen2.
  cbn [Golomb.encode_number Golomb.r Golomb.binary] in Hlen2, Hbin.
  unfold binary_length in Hlen2.
  assert (Hr : (n1 mod M = n2 mod M)%Z).
  { destruct (Z.eqb M 1) eqn:E1.
    - apply Z.eqb_eq in E1. rewrite E1, !Z.mod_1_r. reflexivity.
    - pose proof (Z.mod_pos_bound n1 M ltac:(lia)).
      pose proof (Z.mod_pos_bound n2 M ltac:(lia)).
      apply Z.eqb_neq in E1. pose proof (cutoff_bounds M ltac:(lia)) as Hcut.
      apply (f_equal bin_value) in Hbin.
      destruct (Z.ltb (n1 mod M) (Golomb.cutoff M)), (Z.ltb (n2 mod M) (Golomb.cutoff M));
        try lia; rewrite !bin_value_padStart in Hbin by lia; lia. }
  rewrite (Z.div_mod n1 M), (Z.div_mod n2 M) by lia. now rewrite Hqeq, Hr.
Qed.

Lemma golomb_codeword_determines_number_witness :
  exact_divisor (Golomb.divisor (inject_Z 5))
  /\ exact_number 12
  /\ Golomb.code (Golomb.encode_number (Golomb.divisor (inject_Z 5)) 12)
     = js "11010"
  /\ 12%Z = 12%Z.
Proof.
  assert (HM : exact_divisor (Golomb.divisor (inject_Z 5)))
    by (split; apply Z.leb_le; reflexivity).
  assert (Hn : exact_number 12) by (unfold exact_number; lia).
  split; [exact HM|]. split; [exact Hn|]. split; [reflexivity|].
  apply (golomb_codeword_determines_number (inject_Z 5) 12 12 HM Hn Hn). reflexivity.
Defined.

(** ** Frequency tables *)

Lemma sum_values_replace k v (o : obj N) old :
  obj_get k o = Some old -> (sum_values (obj_replace k v o) + old = sum_values o + v)%N.
Proof.
  induction o as [|[k' v'] o IH]; simpl; [discriminate|].
  destruct (str_eqb k k'); simpl.
  - intros H. inversion H; subst. lia.
  - intros H. specialize (IH H). lia.
Qed.

Lemma sum_values_insert_index n k v (o : obj N) :
  sum_values (obj_insert_index n k v o) = (v + sum_values o)%N.
Proof.
  induction o as [|[k' v'] o IH]; simpl; [reflexivity|].
  destruct (array_index k') as [n'|]; [|reflexivity].
  destruct (N.ltb n' n); simpl; [|reflexivity]. rewrite IH. lia.
Qed.

Lemma sum_values_app (o o' : obj N) : sum_values (o ++ o') = (sum_values o + sum_values o')%N.
Proof. induction o as [|[k v] o IH]; simpl; [reflexivity|]. rewrite IH. lia. Qed.

Lemma sum_values_bump freqs c : sum_values (bump freqs c) = (sum_values freqs + 1)%N.
Proof.
  unfold bump, obj_set. destruct (obj_get c freqs) as [old|] eqn:E.
  - pose proof (sum_values_replace c (old + 1)%N freqs old E). lia.
  - destruct (array_index c).
    + rewrite sum_values_insert_index. lia.
    + rewrite sum_values_app. simpl. lia.
Qed.

Lemma sum_values_fold_bump chars : forall acc,
  sum_values (List.fold_left bump chars acc)
  = (sum_values acc + N.of_nat (List.length chars))%N.
Proof.
  induction chars as [|c chars IH]; intros acc; simpl; [lia|].
  rewrite IH, sum_values_bump. lia.
Qed.

Lemma obj_get_bump freqs c k :
  obj_get k (bump freqs c)
  = if str_eqb k c
    then Some (match obj_get k freqs with Some n => n | None => 0 end + 1)%N
    else obj_get k freqs.
Proof.
  unfold bump. destruct (str_eqb k c) eqn:E.
  - apply str_eqb_eq in E. subst k. apply obj_get_set_eq.
  - apply obj_get_set_ne. intros ->. rewrite str_eqb_refl in E. discriminate.
Qed.

Lemma occurrences_cons k c chars :
  occurrences k (c :: chars)
  = ((if str_eqb k c then 1 else 0) + occurrences k chars)%N.
Proof.
  unfold occurrences. cbn [List.filter]. destruct (str_eqb k c); [|reflexivity].
  cbn [List.length]. lia.
Qed.

Lemma obj_get_fold_bump chars : forall acc k,
  obj_get k (List.fold_left bump chars acc)
  = if N.eqb (occurrences k chars) 0 then obj_get k acc
    else Some (match obj_get k acc with Some n => n | None => 0 end
               + occurrences k chars)%N.
Proof.
  induction chars as [|c chars IH]; intros acc k; [reflexivity|].
  cbn [List.fold_left]. rewrite IH, obj_get_bump, occurrences_cons.
  destruct (str_eqb k c).
  - destruct (N.eqb (occurrences k chars) 0) eqn:E.
    + apply N.eqb_eq in E. rewrite E. cbn. reflexivity.
    + destruct (N.eqb (1 + occurrences k chars) 0) eqn:E'; [apply N.eqb_eq in E'; lia|].
      f_equal. lia.
  - reflexivity.
Qed.

Lemma count_freqs_spec (chars : list jsstring) :
  let freqs := count_freqs chars in
  List.NoDup (obj_keys freqs)
  /\ (forall c, List.In c (obj_keys freqs) <-> List.In c chars)
  /\ (forall c, List.In c chars -> obj_get c freqs = Some (occurrences c chars))
  /\ (forall c, ~ List.In c chars -> obj_get c freqs = None)
  /\ sum_values freqs = N.of_nat (List.length chars).
Proof.
  cbv zeta. unfold count_freqs. split; [apply fold_bump_NoDup; constructor|].
  split; [intros c; rewrite fold_bump_keys; simpl; tauto|].
  assert (Hocc : forall c, List.In c chars <-> occurrences c chars <> 0%N).
  { intros c. unfold occurrences. split.
    - intros Hin Hz.
      assert (Hf : List.In c (List.filter (str_eqb c) chars)).
      { apply List.filter_In. split; [exact Hin|apply str_eqb_refl]. }
      destruct (List.filter (str_eqb c) chars); [destruct Hf|simpl in Hz; lia].
    - intros Hnz. destruct (List.filter (str_eqb c) chars) as [|x l] eqn:E; [simpl in Hnz; lia|].
      assert (Hx : List.In x (List.filter (str_eqb c) chars)) by (rewrite E; now left).
      apply List.filter_In in Hx as [Hx Heq]. apply str_eqb_eq in Heq. now subst. }
  split; [|split].
  - intros c Hc. rewrite obj_get_fold_bump. apply Hocc in Hc.
    destruct (N.eqb (occurrences c chars) 0) eqn:E; [apply N.eqb_eq in E; contradiction|].
    reflexivity.
  - intros c Hc. rewrite obj_get_fold_bump.
    destruct (N.eqb (occurrences c chars) 0) eqn:E; [reflexivity|].
    apply N.eqb_neq in E. apply Hocc in E. contradiction.
  - rewrite sum_values_fold_bump. reflexivity.
Qed.

(** X11: the frequency table built by the [freqs[char] = (freqs[char] || 0)
    + 1] loop has exactly one entry per distinct symbol of the text, each
    entry holds the number of occurrences of its symbol, and the counts add
    up to the number of symbols. *)
Theorem freqs_count_occurrences (chars : list jsstring) :
  let freqs := count_freqs chars in
  List.NoDup (obj_keys freqs)
  /\ (forall c, List.In c (obj_keys freqs) <-> List.In c chars)
  /\ (forall c, List.In c chars -> obj_get c freqs = Some (occurrences c chars))
  /\ (forall c, ~ List.In c chars -> obj_get c freqs = None)
  /\ sum_values freqs = N.of_nat (List.length chars).
Proof. exact (count_freqs_spec chars). Qed.

(** ** Huffman: the tree *)

Lemma sum_values_perm (o o' : obj N) : Permutation o o' -> sum_values o = sum_values o'.
Proof.
  induction 1 as [|[k v] l l' _ IH|[k v] [k' v'] l|l l' l'' _ IH1 _ IH2]; simpl; lia.
Qed.

Lemma tree_ok_freq node : tree_ok node -> Huffman.freq node = sum_values (leaf_entries node).
Proof.
  induction node as [char f id|f l IHl r IHr id]; simpl.
  - intros _. lia.
  - intros (-> & Hl & Hr). rewrite sum_values_app, <- IHl, <- IHr by assumption. reflexivity.
Qed.

Lemma build_tree_ok fuel : forall nodes counter nodes',
  Forall tree_ok nodes ->
  Huffman.build fuel nodes counter = Some nodes' ->
  Forall tree_ok nodes'
  /\ Permutation (List.flat_map leaf_entries nodes') (List.flat_map leaf_entries nodes).
Proof.
  induction fuel as [|fuel IH]; intros nodes counter nodes' Hok Hrun; simpl in Hrun.
  - destruct (Nat.ltb 1 (List.length nodes)); [discriminate|].
    inversion Hrun; subst. split; [exact Hok|reflexivity].
  - destruct (Nat.ltb 1 (List.length nodes)); [|inversion Hrun; subst; split; [exact Hok|reflexivity]].
    pose proof (stable_sort_perm Huffman.by_freq nodes) as HP.
    destruct (stable_sort Huffman.by_freq nodes) as [|l [|r rest]]; try discriminate.
    eapply Permutation_Forall in Hok; [|exact HP].
    inversion Hok as [|? ? Hl Hok']; subst. inversion Hok' as [|? ? Hr Hrest]; subst.
    apply IH in Hrun as [Hok'' Hperm].
    + split; [exact Hok''|]. rewrite Hperm, List.flat_map_app.
      rewrite (Permutation_flat_map leaf_entries HP). simpl. rewrite List.app_nil_r.
      rewrite Permutation_app_comm. now rewrite List.app_assoc.
    + apply List.Forall_app. split; [exact Hrest|].
      constructor; [|constructor]. simpl. auto.
Qed.

Lemma leaf_entries_leaf_of freqs : forall i,
  List.flat_map leaf_entries (mapi_from i Huffman.leaf_of freqs) = freqs.
Proof.
  induction freqs as [|[k n] freqs IH]; intros i; simpl; [reflexivity|].
  f_equal. apply IH.
Qed.

Lemma leaf_of_tree_ok freqs : forall i, Forall tree_ok (mapi_from i Huffman.leaf_of freqs).
Proof.
  induction freqs as [|[k n] freqs IH]; intros i; simpl; constructor; [exact I|apply IH].
Qed.

Lemma code_table_tree freqs codes root :
  freqs <> [] ->
  Huffman.code_table freqs = Some (codes, root) ->
  exists t,
    root = Some t /\ tree_ok t /\ Permutation (leaf_entries t) freqs.
Proof.
  intros Hne. unfold Huffman.code_table.
  pose proof (leaf_entries_leaf_of freqs 0) as Hleaves.
  pose proof (leaf_of_tree_ok freqs 0) as Hok.
  pose proof (mapi_from_length Huffman.leaf_of freqs 0%N) as Hlen.
  set (nodes := mapi_from 0 Huffman.leaf_of freqs) in *.
  assert (Hgen : match Huffman.build (List.length nodes) nodes 0 with
                 | Some (r :: _) => Some (Huffman.generateCodes r [] [], Some r)
                 | Some [] => Some ([], None)
                 | None => None
                 end = Some (codes, root) ->
                 exists t, root = Some t /\ tree_ok t /\ Permutation (leaf_entries t) freqs).
  { destruct (build_single (List.length nodes) nodes 0%N) as (t & Ht & _).
    { intros Hnil. rewrite Hnil in Hlen. destruct freqs; [contradiction|discriminate]. }
    { lia. }
    rewrite Ht. intros H. injection H as <- <-. exists t. split; [reflexivity|].
    destruct (build_tree_ok _ _ _ _ Hok Ht) as [Hok' Hperm].
    simpl in Hperm. rewrite List.app_nil_r, Hleaves in Hperm.
    apply List.Forall_inv in Hok'. auto. }
  clearbody nodes.
  destruct nodes as [|[char f id|f l r id] [|y nodes]]; try exact Hgen.
  - intros H. injection H as <- <-. eexists. split; [reflexivity|].
    simpl in Hleaves. rewrite <- Hleaves. split; [exact I|reflexivity].
  - discriminate.
Qed.

(** X12: for a non-empty input [compressHuffman] returns a tree in which
    every internal node carries the sum of its children's frequencies, the
    leaves are exactly the entries of the frequency table (each symbol
    once, with its count), and the root carries the number of symbols of
    the input. *)
Theorem huffman_tree_accounts_for_input input :
  input <> [] ->
  exists r root,
    Huffman.compressHuffman input = Some r
    /\ tree r = Some root
    /\ tree_ok root
    /\ Permutation (leaf_entries root) (count_freqs (chars_of input))
    /\ Huffman.freq root = N.of_nat (List.length (chars_of input)).
Proof.
  intros Hne. pose proof (count_freqs_nonempty input Hne) as Hfreqs.
  destruct (code_table_total _ Hfreqs) as (codes & root & Ht & _).
  destruct (code_table_tree _ _ _ Hfreqs Ht) as (t & -> & Hok & Hperm).
  destruct input as [|u input]; [contradiction|].
  eexists. exists t. split.
  { unfold Huffman.compressHuffman. rewrite Ht. reflexivity. }
  cbn [tree]. split; [reflexivity|]. split; [exact Hok|]. split; [exact Hperm|].
  rewrite (tree_ok_freq t Hok), (sum_values_perm _ _ Hperm).
  apply (count_freqs_spec (chars_of (u :: input))).
Qed.

Lemma huffman_tree_accounts_for_input_witness :
  exists r root,
    Huffman.compressHuffman (js "kese sene keke ekle") = Some r
    /\ tree r = Some root
    /\ Huffman.freq root = 19%N.
Proof.
  destruct (huffman_tree_accounts_for_input (js "kese sene keke ekle") ltac:(discriminate))
    as (r & root & Hr & Ht & _ & _ & Hf).
  exists r, root. repeat split; assumption.
Defined.

(** ** Huffman: the code table and the payload *)

Lemma encode_flat_map codes chars : forall acc,
  List.fold_left (fun encoded char => encoded ++ or_undefined (obj_get char codes)) chars acc
  = acc ++ List.flat_map (fun char => or_undefined (obj_get char codes)) chars.
Proof.
  induction chars as [|c chars IH]; intros acc; simpl; [now rewrite List.app_nil_r|].
  rewrite IH. now rewrite <- List.app_assoc.
Qed.

Lemma build_ends_internal fuel : forall nodes counter nodes',
  2 <= List.length nodes ->
  Huffman.build fuel nodes counter = Some nodes' ->
  exists f l r id rest, nodes' = rest ++ [Huffman.Internal f l r id].
Proof.
  induction fuel as [|fuel IH]; intros nodes counter nodes' Hlen Hrun; simpl in Hrun.
  - destruct (Nat.ltb 1 (List.length nodes)) eqn:E; [discriminate|].
    apply Nat.ltb_ge in E. lia.
  - destruct (Nat.ltb 1 (List.length nodes)) eqn:E; [|apply Nat.ltb_ge in E; lia].
    destruct (stable_sort Huffman.by_freq nodes) as [|l [|r rest]]; try discriminate.
    set (nodes1 := rest ++ [_]) in Hrun.
    destruct (Nat.le_gt_cases 2 (List.length nodes1)) as [Hbig|Hsmall].
    + eapply IH; eassumption.
    + destruct fuel as [|fuel']; simpl in Hrun.
      * destruct (Nat.ltb 1 (List.length nodes1)) eqn:E'; [discriminate|].
        inversion Hrun. subst nodes1. eauto 6.
      * destruct (Nat.ltb 1 (List.length nodes1)) eqn:E'; [apply Nat.ltb_lt in E'; lia|].
        inversion Hrun. subst nodes1. eauto 6.
Qed.

Lemma assignments_bits node : forall code p,
  Forall is_bit code -> List.In p (assignments node code) -> Forall is_bit (snd p).
Proof.
  induction node as [char f id|f l IHl r IHr id]; intros code p Hcode Hin; simpl in Hin.
  - destruct Hin as [<-|[]]. exact Hcode.
  - apply List.in_app_or in Hin as [Hin|Hin].
    + eapply IHl; [|exact Hin]. apply List.Forall_app. split; [exact Hcode|].
      constructor; [now left|constructor].
    + eapply IHr; [|exact Hin]. apply List.Forall_app. split; [exact Hcode|].
      constructor; [now right|constructor].
Qed.

Lemma assignments_internal_nonempty f l r id p :
  List.In p (assignments (Huffman.Internal f l r id) []) -> snd p <> [].
Proof.
  simpl. intros Hin Hnil.
  apply List.in_app_or in Hin as [Hin|Hin]; apply assignments_extend in Hin as [t Ht];
    rewrite Hnil in Ht; discriminate.
Qed.

Lemma code_table_codes freqs codes root c code :
  freqs <> [] ->
  Huffman.code_table freqs = Some (codes, root) ->
  obj_get c codes = Some code ->
  List.In c (obj_keys freqs) /\ Forall is_bit code /\ code <> [].
Proof.
  intros Hne. unfold Huffman.code_table.
  pose proof (forest_leaves_leaf_of freqs 0) as Hleaves.
  pose proof (mapi_from_length Huffman.leaf_of freqs 0%N) as Hlen.
  set (nodes := mapi_from 0 Huffman.leaf_of freqs) in *.
  assert (Hgen : 2 <= List.length nodes ->
                 match Huffman.build (List.length nodes) nodes 0 with
                 | Some (r :: _) => Some (Huffman.generateCodes r [] [], Some r)
                 | Some [] => Some ([], None)
                 | None => None
                 end = Some (codes, root) ->
                 obj_get c codes = Some code ->
                 List.In c (obj_keys freqs) /\ Forall is_bit code /\ code <> []).
  { intros Hbig.
    destruct (build_single (List.length nodes) nodes 0%N) as (t & Ht & Hperm).
    { intros Hnil. rewrite Hnil in Hbig. simpl in Hbig. lia. }
    { lia. }
    rewrite Ht. intros H Hget. injection H as <- <-.
    destruct (build_ends_internal _ _ _ _ Hbig Ht) as (f & l & r & id & rest & Heq).
    destruct rest as [|x rest]; [|destruct rest; discriminate].
    injection Heq as ->.
    rewrite generateCodes_assignments in Hget.
    apply assign_all_get in Hget as [Hin|Hget]; [|discriminate].
    split; [|split].
    - rewrite <- Hleaves. eapply Permutation_in; [exact Hperm|].
      rewrite <- assignments_keys with (code := []).
      apply List.in_map_iff. exists (c, code). auto.
    - apply (assignments_bits (Huffman.Internal f l r id) [] (c, code)); [constructor|exact Hin].
    - apply (assignments_internal_nonempty _ _ _ _ (c, code) Hin). }
  clearbody nodes.
  destruct nodes as [|[char f id|f l r id] [|y nodes]].
  - destruct freqs; [contradiction|discriminate].
  - intros H Hget. injection H as <- <-.
    apply obj_get_Some_keys in Hget as Hkey. apply obj_keys_set_in in Hkey as [->|[]].
    rewrite obj_get_set_eq in Hget. injection Hget as <-.
    split; [|split; [|discriminate]].
    + rewrite <- Hleaves. now left.
    + constructor; [now left|constructor].
  - apply Hgen. simpl. lia.
  - discriminate.
  - apply Hgen. simpl. lia.
Qed.

(** X13: for a non-empty input the Huffman code table has an entry for
    exactly the symbols of the input, every code is a non-empty string of
    the digits 0 and 1, and the payload is the codes of the symbols of the
    input in order, so it consists of binary digits only. *)
Theorem huffman_payload_is_the_codes input :
  input <> [] ->
  exists r codes,
    Huffman.compressHuffman input = Some r
    /\ dictionary r = Some codes
    /\ (forall c, List.In c (chars_of input) <-> exists code, obj_get c codes = Some code)
    /\ (forall c code, obj_get c codes = Some code -> Forall is_bit code /\ code <> [])
    /\ encoded r
       = List.flat_map (fun c => or_undefined (obj_get c codes)) (chars_of input)
    /\ Forall is_bit (encoded r).
Proof.
  intros Hne. pose proof (count_freqs_nonempty input Hne) as Hfreqs.
  destruct (code_table_total _ Hfreqs) as (codes & root & Ht & Hcov).
  destruct input as [|u input]; [contradiction|].
  eexists. exists codes. split.
  { unfold Huffman.compressHuffman. rewrite Ht. reflexivity. }
  cbn [dictionary encoded]. split; [reflexivity|].
  assert (Hkeys : forall c, List.In c (chars_of (u :: input))
                            <-> exists code, obj_get c codes = Some code).
  { intros c. split.
    - intros Hc. apply Hcov. now apply alphabet_of_in.
    - intros [code Hcode].
      destruct (code_table_codes _ _ _ c code Hfreqs Ht Hcode) as [Hin _].
      now apply (alphabet_of_in (u :: input)). }
  assert (Hbits : forall c code, obj_get c codes = Some code -> Forall is_bit code /\ code <> []).
  { intros c code Hcode. eapply code_table_codes; eassumption. }
  split; [exact Hkeys|]. split; [exact Hbits|].
  unfold Huffman.encode. rewrite encode_flat_map. simpl List.app.
  split; [reflexivity|].
  apply List.Forall_forall. intros b Hb.
  apply List.in_flat_map in Hb as (c & Hc & Hb).
  apply Hkeys in Hc as [code Hcode]. rewrite Hcode in Hb. simpl in Hb.
  destruct (Hbits c code Hcode) as [Hall _].
  rewrite List.Forall_forall in Hall. now apply Hall.
Qed.

Lemma huffman_payload_is_the_codes_witness :
  exists r codes,
    Huffman.compressHuffman (js "ABRACADABRA") = Some r
    /\ dictionary r = Some codes
    /\ Forall is_bit (encoded r).
Proof.
  destruct (huffman_payload_is_the_codes (js "ABRACADABRA") ltac:(discriminate))
    as (r & codes & Hr & Hd & _ & _ & _ & Hbits).
  exists r, codes. auto.
Defined.

Lemma NoDup_all_equal {A} (l : list A) (c : A) :
  List.NoDup l -> (forall x, List.In x l -> x = c) -> l <> [] -> l = [c].
Proof.
  intros Hnd Hall Hne. destruct l as [|a [|b l]]; [contradiction| |].
  - f_equal. apply Hall. now left.
  - exfalso. inversion Hnd as [|? ? Hnotin _]; subst. apply Hnotin.
    rewrite (Hall a), (Hall b); simpl; auto.
Qed.

Lemma obj_set_empty {V} k (v : V) : obj_set k v [] = [(k, v)].
Proof. unfold obj_set. simpl. destruct (array_index k); reflexivity. Qed.

Lemma flat_map_single_code c (chars : list jsstring) :
  (forall x, List.In x chars -> x = c) ->
  List.flat_map (fun ch => or_undefined (obj_get ch [(c, js "0")])) chars
  = List.repeat (digit_char 0) (List.length chars).
Proof.
  induction chars as [|x chars IH]; intros Hall; simpl; [reflexivity|].
  rewrite (Hall x) by now left. rewrite str_eqb_refl. simpl.
  f_equal. apply IH. intros y Hy. apply Hall. now right.
Qed.

(** X14: on an input with a single distinct symbol [compressHuffman]
    skips the merge loop: the table gives that symbol the code ["0"], the
    tree is the lone leaf with the number of symbols as its frequency, and
    the payload is one ["0"] per symbol. *)
Theorem huffman_single_symbol input c :
  input <> [] ->
  (forall x, List.In x (chars_of input) -> x = c) ->
  exists r,
    Huffman.compressHuffman input = Some r
    /\ dictionary r = Some [(c, js "0")]
    /\ tree r = Some (Huffman.Leaf c (N.of_nat (List.length (chars_of input)))
                        (js "leaf-" ++ c ++ js "-0"))
    /\ steps r = [Huffman.mkStep c (js "0") (Some (N.of_nat (List.length (chars_of input))))]
    /\ encoded r = List.repeat (digit_char 0) (List.length (chars_of input))
    /\ compressedSize r = Z.of_nat (List.length (chars_of input)).
Proof.
  intros Hne Hall.
  destruct (count_freqs_spec (chars_of input)) as (Hnd & Hkeys & _ & _ & Hsum).
  assert (Hk : obj_keys (count_freqs (chars_of input)) = [c]).
  { apply NoDup_all_equal; [exact Hnd| |].
    - intros x Hx. apply Hall, Hkeys, Hx.
    - intros Hnil. apply (count_freqs_nonempty input Hne).
      destruct (count_freqs (chars_of input)); [reflexivity|discriminate]. }
  destruct (count_freqs (chars_of input)) as [|[k n] [|e freqs]] eqn:Hf; try discriminate.
  simpl in Hk. injection Hk as ->. simpl in Hsum. rewrite N.add_0_r in Hsum. subst n.
  destruct input as [|u input]; [contradiction|].
  eexists. split.
  { unfold Huffman.compressHuffman. rewrite Hf.
    unfold Huffman.code_table. cbn [mapi_from Huffman.leaf_of fst snd].
    rewrite obj_set_empty. reflexivity. }
  cbn [dictionary tree steps encoded compressedSize].
  assert (Henc : Huffman.encode [(c, js "0")] (chars_of (u :: input))
                 = List.repeat (digit_char 0) (List.length (chars_of (u :: input)))).
  { unfold Huffman.encode. rewrite encode_flat_map.
    now rewrite flat_map_single_code by exact Hall. }
  rewrite Henc, List.repeat_length.
  split; [reflexivity|]. split; [reflexivity|]. split; [|split; reflexivity].
  cbn [List.map fst snd obj_get]. now rewrite str_eqb_refl.
Qed.

Lemma huffman_single_symbol_witness :
  exists r,
    Huffman.compressHuffman (js "AAAA") = Some r
    /\ dictionary r = Some [(js "A", js "0")]
    /\ encoded r = js "0000".
Proof.
  destruct (huffman_single_symbol (js "AAAA") (js "A") ltac:(discriminate))
    as (r & Hr & Hd & _ & _ & He & _).
  { intros x Hx. cbv in Hx.
    repeat (destruct Hx as [Hx|Hx]; [now subst|]). destruct Hx. }
  exists r. auto.
Defined.

(** ** Arithmetic coding: truncation, trace and table *)

(** X15: an input longer than 15 code units is coded as its first 15
    units: sizes, ratio, trace and table are those of the prefix, and the
    tag is the prefix's tag followed by ["..."]. *)
Theorem arithmetic_truncates_to_15
    (toFixed : float -> nat -> jsstring) (Math_log2 : float -> float)
    (Math_ceil : float -> Z) input :
  15 < List.length input ->
  Arithmetic.compressArithmetic toFixed Math_log2 Math_ceil input
  = option_map mark_truncated
      (Arithmetic.compressArithmetic toFixed Math_log2 Math_ceil (List.firstn 15 input)).
Proof.
  intros Hlen.
  assert (Hpre : List.length (List.firstn 15 input) = 15).
  { rewrite List.length_firstn. lia. }
  assert (Hidem : List.firstn 15 (List.firstn 15 input) = List.firstn 15 input).
  { rewrite List.firstn_firstn. reflexivity. }
  destruct input as [|u input]; [simpl in Hlen; lia|].
  destruct (List.firstn 15 (u :: input)) as [|v pre] eqn:Hf; [discriminate|].
  unfold Arithmetic.compressArithmetic. rewrite Hf, Hidem.
  replace (Nat.ltb 15 (List.length (u :: input))) with true
    by (symmetry; apply Nat.ltb_lt; exact Hlen).
  rewrite Hpre. change (Nat.ltb 15 15) with false.
  destruct (Arithmetic.narrow _ _ _ _ _ _) as [[[low high] sts]|]; [|reflexivity].
  unfold mark_truncated. cbn [option_map encoded originalSize compressedSize ratio steps
                              dictionary tree].
  now rewrite List.app_nil_r.
Qed.

Lemma arithmetic_truncates_to_15_witness :
  15 < List.length (js "ABABABABABABABABAB")
  /\ Arithmetic.compressArithmetic (fun _ _ => js "t") (fun x => x) (fun _ => 0%Z)
       (js "ABABABABABABABABAB")
     = option_map mark_truncated
         (Arithmetic.compressArithmetic (fun _ _ => js "t") (fun x => x) (fun _ => 0%Z)
            (js "ABABABABABABABA")).
Proof.
  assert (H : 15 < List.length (js "ABABABABABABABABAB")) by (simpl; lia).
  split; [exact H|].
  exact (arithmetic_truncates_to_15 (fun _ _ => js "t") (fun x => x) (fun _ => 0%Z)
           (js "ABABABABABABABABAB") H).
Defined.

Lemma narrow_steps toFixed probs chars : forall low high sts low' high' sts',
  Arithmetic.narrow toFixed probs chars low high sts = Some (low', high', sts') ->
  List.map Arithmetic.char sts' = List.map Arithmetic.char sts ++ chars.
Proof.
  induction chars as [|c chars IH]; intros low high sts low' high' sts' H; simpl in H.
  - inversion H; subst. now rewrite List.app_nil_r.
  - destruct (obj_get c probs) as [iv|]; [|discriminate].
    apply IH in H. rewrite H, List.map_app. simpl. now rewrite <- List.app_assoc.
Qed.

(** X16: the trace of [compressArithmetic] has one step per symbol of the
    first 15 code units of the input, in order, and the original size is 8
    bits for each of those units, hence at most 120. *)
Theorem arithmetic_trace_follows_prefix
    (toFixed : float -> nat -> jsstring) (Math_log2 : float -> float)
    (Math_ceil : float -> Z) input :
  exists r,
    Arithmetic.compressArithmetic toFixed Math_log2 Math_ceil input = Some r
    /\ List.map Arithmetic.char (steps r) = chars_of (List.firstn 15 input)
    /\ originalSize r = (8 * Z.of_nat (Nat.min 15 (List.length input)))%Z
    /\ (originalSize r <= 120)%Z.
Proof.
  destruct (arithmetic_total toFixed Math_log2 Math_ceil input) as [r Hr]. exists r.
  split; [exact Hr|]. destruct input as [|u input]; [inversion Hr; subst; simpl; repeat split; lia|].
  unfold Arithmetic.compressArithmetic in Hr.
  destruct (Arithmetic.narrow _ _ _ _ _ _) as [[[low high] sts]|] eqn:Hn; [|discriminate].
  apply narrow_steps in Hn. inversion Hr; subst. cbn [steps originalSize].
  rewrite List.length_firstn. split; [exact Hn|]. cbn [List.length]. split; lia.
Qed.

Lemma build_probs_intervals freqs total chars : forall probs start,
  fst (List.fold_left
         (fun acc char =>
            let '(probs, currentStart) := acc in
            let p := PrimFloat.div (num_or_undefined (obj_get char freqs)) (num total) in
            (obj_set char (Arithmetic.mkInterval currentStart (PrimFloat.add currentStart p) p)
                     probs,
             PrimFloat.add currentStart p))
         chars (probs, start))
  = List.fold_left (fun o kv => obj_set (fst kv) (snd kv) o)
                   (intervals_from freqs total chars start) probs.
Proof.
  induction chars as [|c chars IH]; intros probs start; simpl; [reflexivity|]. apply IH.
Qed.

Lemma intervals_from_chained freqs total chars : forall start,
  chained (intervals_from freqs total chars start) start
  /\ List.map fst (intervals_from freqs total chars start) = chars
  /\ Forall (fun kv =>
               Arithmetic.p (snd kv)
               = PrimFloat.div (num_or_undefined (obj_get (fst kv) freqs)) (num total))
            (intervals_from freqs total chars start).
Proof.
  induction chars as [|c chars IH]; intros start; simpl; [repeat split; constructor|].
  destruct (IH (PrimFloat.add start
                  (PrimFloat.div (num_or_undefined (obj_get c freqs)) (num total))))
    as (Hch & Hk & Hp).
  repeat split; try assumption; [now rewrite Hk|constructor; [reflexivity|exact Hp]].
Qed.

Section AssignFacts.
Context {V : Type}.

Lemma fold_set_get (l : obj V) : forall (o : obj V) k v,
  obj_get k (List.fold_left (fun o kv => obj_set (fst kv) (snd kv) o) l o) = Some v ->
  List.In (k, v) l \/ obj_get k o = Some v.
Proof.
  induction l as [|[k' v'] l IH]; intros o k v Hget; simpl in *; [now right|].
  apply IH in Hget as [Hin|Hget]; [now left; right|].
  destruct (list_eq_dec k k') as [->|Hne].
  - rewrite obj_get_set_eq in Hget. inversion Hget; subst. now left; left.
  - rewrite obj_get_set_ne in Hget by exact Hne. now right.
Qed.

Lemma fold_set_get_in (l : obj V) : forall (o : obj V) k v,
  List.NoDup (List.map fst l) ->
  List.In (k, v) l ->
  obj_get k (List.fold_left (fun o kv => obj_set (fst kv) (snd kv) o) l o) = Some v.
Proof.
  induction l as [|[k' v'] l IH]; intros o k v Hnd Hin; simpl in *; [destruct Hin|].
  inversion Hnd as [|? ? Hnotin Hnd']; subst. destruct Hin as [Heq|Hin].
  - inversion Heq; subst. clear IH.
    assert (Hkeep : forall (l : obj V) o, ~ List.In k (List.map fst l) ->
               obj_get k (List.fold_left (fun o kv => obj_set (fst kv) (snd kv) o) l o)
               = obj_get k o).
    { clear. induction l as [|[k'' v''] l IH]; intros o Hnot; simpl in *; [reflexivity|].
      rewrite IH by tauto. apply obj_get_set_ne. intros ->. tauto. }
    rewrite Hkeep by exact Hnotin. apply obj_get_set_eq.
  - now apply IH.
Qed.

End AssignFacts.

(** X17: the probability table of [compressArithmetic] is a chain of
    intervals over the symbols in sorted order: the first starts at 0, each
    ends at its start plus its width [freq / length], the next starts
    exactly there, and the table holds these intervals and no others. *)
Theorem arithmetic_table_is_a_chain
    (toFixed : float -> nat -> jsstring) (Math_log2 : float -> float)
    (Math_ceil : float -> Z) input :
  input <> [] ->
  let safeInput := List.firstn 15 input in
  let freqs := count_freqs (chars_of safeInput) in
  exists r probs table,
    Arithmetic.compressArithmetic toFixed Math_log2 Math_ceil input = Some r
    /\ dictionary r = Some probs
    /\ List.map fst table = stable_sort Arithmetic.by_code_units (alphabet_of safeInput)
    /\ chained table 0%float
    /\ Forall (fun kv =>
                 Arithmetic.p (snd kv)
                 = PrimFloat.div (num_or_undefined (obj_get (fst kv) freqs))
                                 (num (Z.of_nat (List.length safeInput))))
              table
    /\ forall c iv, obj_get c probs = Some iv <-> List.In (c, iv) table.
Proof.
  intros Hne. cbv zeta.
  destruct (arithmetic_total toFixed Math_log2 Math_ceil input) as [r Hr]. exists r.
  destruct input as [|u input]; [contradiction|].
  pose proof Hr as Hr0.
  unfold Arithmetic.compressArithmetic in Hr.
  destruct (Arithmetic.narrow _ _ _ _ _ _) as [[[low high] sts]|]; [|discriminate].
  set (safeInput := List.firstn 15 (u :: input)) in *.
  set (freqs := count_freqs (chars_of safeInput)) in *.
  set (sorted := stable_sort Arithmetic.by_code_units (obj_keys freqs)) in *.
  set (total := Z.of_nat (List.length safeInput)) in *.
  exists (Arithmetic.build_probs freqs total sorted), (intervals_from freqs total sorted 0%float).
  destruct (intervals_from_chained freqs total sorted 0%float) as (Hch & Hk & Hp).
  split; [exact Hr0|]. split; [inversion Hr; reflexivity|].
  split; [exact Hk|]. split; [exact Hch|]. split; [exact Hp|].
  intros c iv. unfold Arithmetic.build_probs. rewrite build_probs_intervals. split.
  - intros Hget. apply fold_set_get in Hget as [Hin|Hget]; [exact Hin|discriminate].
  - apply fold_set_get_in. rewrite Hk.
    eapply Permutation_NoDup; [apply stable_sort_perm|]. apply alphabet_of_NoDup.
Qed.

Lemma arithmetic_table_is_a_chain_witness :
  exists r probs,
    Arithmetic.compressArithmetic (fun _ _ => []) (fun x => x) (fun _ => 0%Z) (js "BABA")
    = Some r
    /\ dictionary r = Some probs
    /\ obj_get (js "B") probs = Some (Arithmetic.mkInterval 0.5 1 0.5).
Proof.
  destruct (arithmetic_table_is_a_chain (fun _ _ => []) (fun x => x) (fun _ => 0%Z)
              (js "BABA") ltac:(discriminate)) as (r & probs & table & Hr & Hd & _).
  exists r, probs. split; [exact Hr|]. split; [exact Hd|].
  vm_compute in Hr. injection Hr as <-. injection Hd as <-. reflexivity.
Defined.

(** ** Tunstall: the trace and the size of the dictionary *)

Lemma starts_with_split (p : jsstring) : forall s,
  starts_with p s = true -> s = p ++ List.skipn (List.length p) s.
Proof.
  induction p as [|x p IH]; intros s H; [reflexivity|].
  destruct s as [|y s]; [discriminate|]. simpl in H.
  apply andb_prop in H as [Hx Hp]. apply N.eqb_eq in Hx. subst y.
  simpl. f_equal. now apply IH.
Qed.

Lemma tokenize_covers fuel keys codeMap : forall rest enc sts enc' sts',
  Tunstall.tokenize fuel keys codeMap rest enc sts = Some (enc', sts') ->
  List.concat (List.map Tunstall.step_seq sts')
  = List.concat (List.map Tunstall.step_seq sts) ++ rest.
Proof.
  induction fuel as [|fuel IH]; intros rest enc sts enc' sts' Hrun.
  - destruct rest; simpl in Hrun; [|discriminate].
    inversion Hrun; subst. now rewrite List.app_nil_r.
  - destruct rest as [|c rest]; simpl in Hrun.
    { inversion Hrun; subst. now rewrite List.app_nil_r. }
    destruct (List.find _ keys) as [seq|] eqn:Hfind.
    + apply IH in Hrun. rewrite Hrun, List.map_app. cbn [List.map Tunstall.step_seq].
      rewrite concat_snoc, <- List.app_assoc. f_equal.
      apply List.find_some in Hfind as [_ Hsw]. symmetry. now apply starts_with_split.
    + apply IH in Hrun. rewrite Hrun, List.map_app. cbn [List.map Tunstall.step_seq].
      rewrite concat_snoc, <- List.app_assoc. reflexivity.
Qed.

(** X18: whenever [compressTunstall] returns, the sequences recorded in
    the trace, concatenated in order, are the input: matched sequences and
    the single units of the ["ERR"] steps cut the input without gap or
    overlap. *)
Theorem tunstall_trace_covers_input fuel input r :
  Tunstall.compressTunstall fuel input = Some r ->
  List.concat (List.map Tunstall.step_seq (steps r)) = input.
Proof.
  intros Hr. destruct input as [|c input]; [now inversion Hr|].
  unfold Tunstall.compressTunstall in Hr.
  destruct (Tunstall.final_dictionary fuel (c :: input)) as [dict|]; [|discriminate].
  destruct (Tunstall.tokenize _ _ _ _ _ _) as [[enc sts]|] eqn:Htok; [|discriminate].
  inversion Hr; subst. cbn [steps]. apply tokenize_covers in Htok. exact Htok.
Qed.

Lemma tunstall_trace_covers_input_witness :
  exists r,
    Tunstall.compressTunstall 16 (js "ABAAB") = Some r
    /\ List.map Tunstall.step_seq (steps r) = [js "ABAA"; js "B"]
    /\ List.concat (List.map Tunstall.step_seq (steps r)) = js "ABAAB".
Proof.
  eexists. split; [vm_compute; reflexivity|]. split; [reflexivity|].
  apply (tunstall_trace_covers_input 16 (js "ABAAB")). vm_compute. reflexivity.
Defined.

Lemma grow_size freqs total alphabet fuel : forall dictionary d,
  1 <= List.length alphabet ->
  dictionary <> [] ->
  Tunstall.grow fuel freqs total alphabet dictionary = Some d ->
  (exists k, List.length d = List.length dictionary + k * (List.length alphabet - 1))
  /\ 18 <= List.length d + List.length alphabet.
Proof.
  induction fuel as [|fuel IH]; intros dictionary d Ha Hne Hrun; simpl in Hrun.
  - destruct (Z.leb _ _) eqn:Hcond; [discriminate|].
    inversion Hrun; subst. apply Z.leb_gt in Hcond.
    unfold Tunstall.MAX_DICT_SIZE, Tunstall.BIT_WIDTH in Hcond.
    change (2 ^ 4)%Z with 16%Z in Hcond. split; [exists 0; lia|lia].
  - destruct (Z.leb _ _) eqn:Hcond.
    + pose proof (stable_sort_length Tunstall.by_prob dictionary) as Hlen.
      destruct (stable_sort Tunstall.by_prob dictionary) as [|best rest].
      { destruct dictionary; [contradiction|discriminate]. }
      apply IH in Hrun as [[k Hk] Hbig]; [|exact Ha|].
      * split; [|exact Hbig]. exists (S k).
        rewrite Hk, List.length_app, expand_length. simpl in Hlen. lia.
      * intros Hnil. apply (f_equal (@List.length _)) in Hnil.
        rewrite List.length_app, expand_length in Hnil. simpl in Hnil. lia.
    + inversion Hrun; subst. apply Z.leb_gt in Hcond.
      unfold Tunstall.MAX_DICT_SIZE, Tunstall.BIT_WIDTH in Hcond.
      change (2 ^ 4)%Z with 16%Z in Hcond. split; [exists 0; lia|lia].
Qed.

Lemma final_dictionary_size fuel input dict :
  input <> [] ->
  Tunstall.final_dictionary fuel input = Some dict ->
  let a := List.length (alphabet_of input) in
  (exists k, List.length dict = a + k * (a - 1))
  /\ 16 < List.length dict + (a - 1)
  /\ (a <= 16 -> List.length dict <= 16).
Proof.
  intros Hne Hrun. cbv zeta.
  assert (Ha : 1 <= List.length (alphabet_of input)).
  { pose proof (count_freqs_nonempty input Hne) as Hf. unfold alphabet_of.
    destruct (count_freqs (chars_of input)); [contradiction|simpl; lia]. }
  unfold Tunstall.final_dictionary in Hrun. fold (alphabet_of input) in Hrun.
  pose proof Hrun as Hrun'.
  apply grow_size in Hrun as [[k Hk] Hbig]; [|exact Ha|].
  - rewrite List.length_map in Hk. split; [eauto|]. split; [lia|].
    intros Hsmall. eapply grow_length_bound; [|exact Hrun'].
    now rewrite List.length_map.
  - intros Hnil. apply (f_equal (@List.length _)) in Hnil.
    rewrite List.length_map in Hnil. simpl in Hnil. lia.
Qed.

(** With two or more symbols the growth loop ends, within 16 rounds. *)
Lemma final_dictionary_terminates input :
  2 <= List.length (alphabet_of input) ->
  exists dict, forall fuel, 16 <= fuel -> Tunstall.final_dictionary fuel input = Some dict.
Proof.
  intros Ha. unfold Tunstall.final_dictionary. fold (alphabet_of input).
  set (freqs := count_freqs (chars_of input)).
  set (total := Z.of_nat (List.length input)).
  set (init := List.map _ (alphabet_of input)).
  destruct (grow_terminates freqs total (alphabet_of input) 16 init Ha) as [d Hd].
  { unfold init. rewrite List.length_map. lia. }
  exists d. intros fuel Hfuel. exact (grow_more_fuel _ _ _ 16 fuel init d Hfuel Hd).
Qed.

Lemma two_symbols_nonempty input : 2 <= List.length (alphabet_of input) -> input <> [].
Proof. intros Ha ->. simpl in Ha. lia. Qed.

(** X19: on an input with [a >= 2] distinct symbols the growth loop of
    [compressTunstall] ends (16 rounds are enough) and has filled the
    dictionary as far as the capacity allows: the final dictionary has
    [a + k * (a - 1)] entries for some number [k] of rounds, and one more
    round would exceed 16 entries; with 2 to 16 symbols it also stays
    within the 16 entries. *)
Theorem tunstall_dictionary_is_full input :
  2 <= List.length (alphabet_of input) ->
  exists dict,
    (forall fuel, 16 <= fuel -> Tunstall.final_dictionary fuel input = Some dict)
    /\ let a := List.length (alphabet_of input) in
       (exists k, List.length dict = a + k * (a - 1))
       /\ 16 < List.length dict + (a - 1)
       /\ (a <= 16 -> List.length dict <= 16).
Proof.
  intros Ha. destruct (final_dictionary_terminates input Ha) as [dict Hdict].
  exists dict. split; [exact Hdict|].
  exact (final_dictionary_size 16 input dict (two_symbols_nonempty input Ha)
           (Hdict 16 (le_n 16))).
Qed.

Lemma tunstall_dictionary_is_full_witness :
  exists dict,
    Tunstall.final_dictionary 16 (js "AAABAAACAAADAAAA") = Some dict
    /\ List.length dict = 16.
Proof.
  destruct (tunstall_dictionary_is_full (js "AAABAAACAAADAAAA"))
    as (dict & Hd & [k Hk] & Hbig & Hsmall).
  { change (List.length (alphabet_of (js "AAABAAACAAADAAAA"))) with 4. lia. }
  exists dict. split; [apply Hd; lia|].
  change (List.length (alphabet_of (js "AAABAAACAAADAAAA"))) with 4 in *.
  specialize (Hsmall ltac:(lia)). lia.
Defined.

(** X20: with 2 to 16 distinct symbols [compressTunstall] returns (16
    rounds of the growth loop are enough), and every code of the code map
    is the 4-digit binary index of a dictionary entry with that sequence. *)
Theorem tunstall_small_alphabet_codes input :
  2 <= List.length (alphabet_of input) <= 16 ->
  exists r dict codeMap,
    (forall fuel, 16 <= fuel -> Tunstall.compressTunstall fuel input = Some r)
    /\ Tunstall.final_dictionary 16 input = Some dict
    /\ dictionary r = Some codeMap
    /\ List.length dict <= 16
    /\ forall k code,
         obj_get k codeMap = Some code ->
         List.length code = 4
         /\ Forall is_bit code
         /\ exists index e,
              List.nth_error dict index = Some e
              /\ Tunstall.seq e = k
              /\ code = padStart 4 (digit_char 0) (toString2 (Z.of_nat index)).
Proof.
  intros [Hlo Hhi]. destruct (tunstall_terminates input Hlo) as [r Hr].
  assert (Hne : input <> []).
  { intros ->. simpl in Hlo. lia. }
  destruct (tunstall_codes_four_bits input 16 r Hne Hhi (Hr 16 (le_n 16)))
    as (dict & codeMap & Hdict & Hd & Hlen & Hcodes).
  exists r, dict, codeMap.
  split; [exact Hr|]. split; [exact Hdict|]. split; [exact Hd|]. split; [exact Hlen|].
  intros k code Hk. destruct (Hcodes k code Hk) as (H4 & index & e & Hi & He & Hc).
  split; [exact H4|]. split; [|eauto].
  rewrite Hc. apply padStart_bits, toString2_bits. lia.
Qed.

Lemma tunstall_small_alphabet_codes_witness :
  exists r codeMap,
    Tunstall.compressTunstall 16 (js "ABAAB") = Some r
    /\ dictionary r = Some codeMap
    /\ obj_get (js "ABAA") codeMap = Some (js "0010").
Proof.
  destruct (tunstall_small_alphabet_codes (js "ABAAB")) as (r & dict & codeMap & Hr & _ & Hd & _).
  { change (List.length (alphabet_of (js "ABAAB"))) with 2. lia. }
  exists r, codeMap. split; [apply Hr; lia|]. split; [exact Hd|].
  specialize (Hr 16 (le_n 16)). vm_compute in Hr. injection Hr as <-.
  injection Hd as <-. reflexivity.
Defined.

(** ** Golomb: special divisors and composition *)

Lemma golomb_codeword_shape_aux inputStr mParam :
  Forall (fun s =>
            exists n,
              (0 <= n)%Z
              /\ s = Golomb.encode_number (Golomb.divisor mParam) n
              /\ Z.of_nat (List.length (Golomb.binary s))
                 = binary_length (Golomb.divisor mParam) (Golomb.r s)
              /\ Z.of_nat (List.length (Golomb.code s))
                 = (Golomb.q s + 1 + binary_length (Golomb.divisor mParam) (Golomb.r s))%Z)
         (steps (Golomb.compressGolomb inputStr mParam)).
Proof.
  rewrite (proj1 (golomb_result inputStr mParam)).
  pose proof (divisor_positive mParam) as HM.
  pose proof (parse_numbers_nonneg inputStr) as Hpos. rewrite List.Forall_forall in Hpos.
  apply List.Forall_forall. intros s Hs. apply List.in_map_iff in Hs as (n & <- & Hn).
  specialize (Hpos n Hn). exists n. split; [exact Hpos|]. split; [reflexivity|].
  destruct (golomb_binary_part (Golomb.divisor mParam) n HM Hpos) as [Hlen _].
  split; [exact Hlen|].
  set (s := Golomb.encode_number (Golomb.divisor mParam) n) in *.
  change (Golomb.code s) with (Golomb.unary s ++ Golomb.binary s).
  rewrite List.length_app, Nat2Z.inj_add, Hlen.
  change (Golomb.unary s) with (repeat_char (digit_char 1) (Golomb.q s) ++ js "0").
  unfold repeat_char. rewrite List.length_app, List.repeat_length.
  assert (0 <= Golomb.q s)%Z by (apply Z.div_pos; lia).
  change (List.length (js "0")) with 1. lia.
Qed.


Lemma divisor_below_two mParam : Qlt mParam (inject_Z 2) -> Golomb.divisor mParam = 1%Z.
Proof.
  intros Hlt. unfold Golomb.divisor.
  assert (Qfloor mParam < 2)%Z; [|lia].
  rewrite Zlt_Qlt. eapply Qle_lt_trans; [apply Qfloor_le|exact Hlt].
Qed.

(** X21: a divisor parameter below 2 (also 0 or a negative one) is clamped
    to [M = 1], and the code is then plain unary: the codeword of [n] is
    [n] ones and a zero, with no binary part. *)
Theorem golomb_small_divisor_is_unary inputStr mParam :
  Qlt mParam (inject_Z 2) ->
  Golomb.divisor mParam = 1%Z
  /\ Forall (fun s =>
               Golomb.q s = Golomb.number s
               /\ Golomb.r s = 0%Z
               /\ Golomb.binary s = []
               /\ Golomb.code s
                  = List.repeat (digit_char 1) (Z.to_nat (Golomb.number s)) ++ [digit_char 0])
            (steps (Golomb.compressGolomb inputStr mParam)).
Proof.
  intros Hlt. pose proof (divisor_below_two mParam Hlt) as HM. split; [exact HM|].
  rewrite (proj1 (golomb_result inputStr mParam)), HM.
  apply List.Forall_forall. intros s Hs. apply List.in_map_iff in Hs as (n & <- & _).
  cbn [Golomb.encode_number Golomb.q Golomb.r Golomb.number Golomb.binary Golomb.code].
  rewrite Z.div_1_r, Z.mod_1_r. cbn [Z.eqb]. rewrite List.app_nil_r. repeat split.
Qed.

Lemma golomb_small_divisor_is_unary_witness :
  Qlt (inject_Z 0) (inject_Z 2)
  /\ encoded (Golomb.compressGolomb (js "3, 0, 2") (inject_Z 0)) = js "11100110".
Proof.
  assert (H : Qlt (inject_Z 0) (inject_Z 2)) by reflexivity.
  split; [exact H|].
  pose proof (proj1 (golomb_small_divisor_is_unary (js "3, 0, 2") (inject_Z 0) H)) as HM.
  vm_compute. reflexivity.
Defined.

(** X22: with a power-of-two divisor [M = 2^k], [k >= 1], the cutoff is 0
    and every remainder is written in exactly [k] binary digits: a
    codeword has [q + 1 + k] digits. *)
Theorem golomb_power_of_two_divisor inputStr (k : Z) :
  (1 <= k)%Z ->
  let M := Golomb.divisor (inject_Z (2 ^ k)) in
  M = (2 ^ k)%Z
  /\ Golomb.bits M = k
  /\ Golomb.cutoff M = 0%Z
  /\ Forall (fun s =>
               Golomb.binary s = padStart k (digit_char 0) (toString2 (Golomb.r s))
               /\ Z.of_nat (List.length (Golomb.binary s)) = k
               /\ Z.of_nat (List.length (Golomb.code s)) = (Golomb.q s + 1 + k)%Z)
            (steps (Golomb.compressGolomb inputStr (inject_Z (2 ^ k)))).
Proof.
  intros Hk. cbv zeta.
  assert (Hpow : (2 <= 2 ^ k)%Z).
  { change 2%Z with (2 ^ 1)%Z at 1. apply Z.pow_le_mono_r; lia. }
  assert (HM : Golomb.divisor (inject_Z (2 ^ k)) = (2 ^ k)%Z).
  { unfold Golomb.divisor. rewrite Qfloor_Z. lia. }
  assert (Hb : Golomb.bits (2 ^ k) = k).
  { unfold Golomb.bits. apply Z.log2_up_pow2. lia. }
  assert (Hc : Golomb.cutoff (2 ^ k) = 0%Z).
  { unfold Golomb.cutoff. rewrite Hb. lia. }
  rewrite HM. split; [reflexivity|]. split; [exact Hb|]. split; [exact Hc|].
  pose proof (golomb_codeword_shape_aux inputStr (inject_Z (2 ^ k))) as Hshape.
  rewrite HM in Hshape.
  rewrite List.Forall_forall in Hshape. apply List.Forall_forall. intros s Hs.
  destruct (Hshape s Hs) as (n & Hn & -> & Hlen & Hcode).
  cbn [Golomb.encode_number Golomb.binary Golomb.r Golomb.q] in *.
  unfold binary_length in *. rewrite Hb, Hc in *.
  pose proof (Z.mod_pos_bound n (2 ^ k) ltac:(lia)) as Hr.
  destruct (Z.eqb (2 ^ k) 1) eqn:E1; [apply Z.eqb_eq in E1; lia|].
  destruct (Z.ltb (n mod 2 ^ k) 0) eqn:E2; [apply Z.ltb_lt in E2; lia|].
  rewrite Z.add_0_r in *. split; [reflexivity|]. split; assumption.
Qed.

Lemma golomb_power_of_two_divisor_witness :
  (1 <= 2)%Z
  /\ Golomb.cutoff (Golomb.divisor (inject_Z (2 ^ 2))) = 0%Z.
Proof.
  assert (H : (1 <= 2)%Z) by lia. split; [exact H|].
  exact (proj1 (proj2 (proj2 (golomb_power_of_two_divisor (js "10") 2 H)))).
Defined.

(** X23: [compressGolomb] works number by number: for two texts joined by
    a separator (white space or a comma) the trace, the stream and both
    sizes are those of the first text followed by, or added to, those of
    the second. *)
Theorem golomb_composes_over_separator before after sep mParam :
  Golomb.is_separator sep = true ->
  let r := Golomb.compressGolomb (before ++ sep :: after) mParam in
  let r1 := Golomb.compressGolomb before mParam in
  let r2 := Golomb.compressGolomb after mParam in
  steps r = steps r1 ++ steps r2
  /\ encoded r = encoded r1 ++ encoded r2
  /\ originalSize r = (originalSize r1 + originalSize r2)%Z
  /\ compressedSize r = (compressedSize r1 + compressedSize r2)%Z.
Proof.
  intros Hsep. cbv zeta.
  destruct (golomb_result (before ++ sep :: after) mParam) as [Hs He].
  destruct (golomb_result before mParam) as [Hs1 He1].
  destruct (golomb_result after mParam) as [Hs2 He2].
  destruct (golomb_sizes (before ++ sep :: after) mParam) as [Ho Hc].
  destruct (golomb_sizes before mParam) as [Ho1 Hc1].
  destruct (golomb_sizes after mParam) as [Ho2 Hc2].
  assert (Hsteps : steps (Golomb.compressGolomb (before ++ sep :: after) mParam)
                   = steps (Golomb.compressGolomb before mParam)
                     ++ steps (Golomb.compressGolomb after mParam)).
  { rewrite Hs, Hs1, Hs2, parse_numbers_separator by exact Hsep. apply List.map_app. }
  assert (Henc : encoded (Golomb.compressGolomb (before ++ sep :: after) mParam)
                 = encoded (Golomb.compressGolomb before mParam)
                   ++ encoded (Golomb.compressGolomb after mParam)).
  { rewrite He, He1, He2, Hsteps, List.map_app. apply List.concat_app. }
  split; [exact Hsteps|]. split; [exact Henc|].
  rewrite Ho, Hc, Ho1, Hc1, Ho2, Hc2, Hsteps, Henc, !List.length_app. split; lia.
Qed.

Lemma golomb_composes_over_separator_witness :
  Golomb.is_separator 44%N = true
  /\ encoded (Golomb.compressGolomb (js "42" ++ 44%N :: js " 10") (inject_Z 5))
     = encoded (Golomb.compressGolomb (js "42") (inject_Z 5))
       ++ encoded (Golomb.compressGolomb (js " 10") (inject_Z 5)).
Proof.
  split; [reflexivity|].
  exact (proj1 (proj2 (golomb_composes_over_separator (js "42") (js " 10") 44%N (inject_Z 5)
                         eq_refl))).
Defined.

(** ** Huffman: the trace *)

Lemma assign_all_NoDup l : forall codes,
  List.NoDup (obj_keys codes) -> List.NoDup (obj_keys (assign_all l codes)).
Proof.
  induction l as [|[k v] l IH]; intros codes H; simpl; [exact H|].
  apply IH. now apply obj_keys_set_NoDup.
Qed.

Lemma code_table_keys_NoDup freqs codes root :
  Huffman.code_table freqs = Some (codes, root) -> List.NoDup (obj_keys codes).
Proof.
  unfold Huffman.code_table.
  set (nodes := mapi_from 0 Huffman.leaf_of freqs).
  assert (Hgen : match Huffman.build (List.length nodes) nodes 0 with
                 | Some (r :: _) => Some (Huffman.generateCodes r [] [], Some r)
                 | Some [] => Some ([], None)
                 | None => None
                 end = Some (codes, root) -> List.NoDup (obj_keys codes)).
  { destruct (Huffman.build _ _ _) as [[|r rest]|]; try discriminate.
    - intros H. injection H as <- <-. constructor.
    - intros H. injection H as <- <-. rewrite generateCodes_assignments.
      apply assign_all_NoDup. constructor. }
  clearbody nodes.
  destruct nodes as [|[char f id|f l r id] [|y nodes]]; try exact Hgen.
  - intros H. injection H as <- <-. apply obj_keys_set_NoDup. constructor.
  - discriminate.
Qed.

Lemma obj_get_in_NoDup {V} (o : obj V) k v :
  List.NoDup (obj_keys o) -> List.In (k, v) o -> obj_get k o = Some v.
Proof.
  induction o as [|[k' v'] o IH]; simpl; intros Hnd Hin; [destruct Hin|].
  inversion Hnd as [|? ? Hnotin Hnd']; subst. destruct Hin as [Heq|Hin].
  - inversion Heq; subst. now rewrite str_eqb_refl.
  - destruct (str_eqb k k') eqn:E; [|now apply IH].
    apply str_eqb_eq in E. subst k'. exfalso. apply Hnotin.
    apply List.in_map_iff. exists (k, v). auto.
Qed.

(** X24: the trace of [compressHuffman] lists every distinct symbol of a
    non-empty input exactly once, with the code the table gives it and the
    number of its occurrences as frequency. *)
Theorem huffman_trace_lists_symbols input :
  input <> [] ->
  exists r codes,
    Huffman.compressHuffman input = Some r
    /\ dictionary r = Some codes
    /\ List.NoDup (List.map Huffman.char (steps r))
    /\ (forall c, List.In c (List.map Huffman.char (steps r)) <-> List.In c (chars_of input))
    /\ Forall (fun s =>
                 obj_get (Huffman.char s) codes = Some (Huffman.code s)
                 /\ Huffman.step_freq s
                    = Some (occurrences (Huffman.char s) (chars_of input)))
              (steps r).
Proof.
  intros Hne. pose proof (count_freqs_nonempty input Hne) as Hfreqs.
  destruct (code_table_total _ Hfreqs) as (codes & root & Ht & Hcov).
  pose proof (code_table_keys_NoDup _ _ _ Ht) as Hnd.
  destruct (count_freqs_spec (chars_of input)) as (_ & Hkeys & Hocc & _ & _).
  destruct input as [|u input]; [contradiction|].
  eexists. exists codes. split.
  { unfold Huffman.compressHuffman. rewrite Ht. reflexivity. }
  cbn [dictionary steps]. split; [reflexivity|].
  rewrite List.map_map. cbn [Huffman.char]. fold (obj_keys codes).
  assert (Hin : forall c, List.In c (obj_keys codes) <-> List.In c (chars_of (u :: input))).
  { intros c. split.
    - intros Hc. destruct (obj_get c codes) as [code|] eqn:E.
      + destruct (code_table_codes _ _ _ c code Hfreqs Ht E) as [Hk _]. now apply Hkeys.
      + apply obj_get_None_keys in E. contradiction.
    - intros Hc. apply Hkeys, Hcov in Hc as [code Hcode].
      eapply obj_get_Some_keys. exact Hcode. }
  split; [exact Hnd|]. split; [exact Hin|].
  apply List.Forall_forall. intros s Hs. apply List.in_map_iff in Hs as ([c code] & <- & He).
  cbn [Huffman.char Huffman.code Huffman.step_freq fst snd]. split.
  - now apply obj_get_in_NoDup.
  - apply Hocc, Hin. apply List.in_map_iff. exists (c, code). auto.
Qed.

Lemma huffman_trace_lists_symbols_witness :
  exists r,
    Huffman.compressHuffman (js "ABRACADABRA") = Some r
    /\ List.NoDup (List.map Huffman.char (steps r)).
Proof.
  destruct (huffman_trace_lists_symbols (js "ABRACADABRA") ltac:(discriminate))
    as (r & codes & Hr & _ & Hnd & _).
  exists r. auto.
Defined.

(** ** LZW: sizes *)

Lemma lzw_loop_count input : forall st st' n,
  Forall (fun c => (c < 256)%N) input ->
  lzw_inv st ->
  List.length (LZW.st_steps st) + pending st <= n ->
  LZW.loop input st = (st', true) ->
  List.length (LZW.st_steps st') + pending st' <= n + List.length input.
Proof.
  induction input as [|c input IH]; intros st st' n Hin Hinv Hn Hrun; simpl in Hrun.
  - inversion Hrun; subst. simpl. lia.
  - inversion Hin as [|? ? Hc Hin']; subst.
    destruct (LZW.iter c st) as [st1|] eqn:Hiter; [|discriminate].
    pose proof (lzw_inv_iter c st st1 Hc Hinv Hiter) as Hinv1.
    specialize (IH st1 st' (S n) Hin' Hinv1). simpl. rewrite Nat.add_succ_r.
    apply IH; [|exact Hrun].
    unfold LZW.iter in Hiter.
    destruct (LZW.has_own (LZW.st_w st ++ [c]) (LZW.st_dictionary st)) as [[|]|] eqn:Hown;
      inversion Hiter; subst; unfold pending in *; cbn [LZW.st_steps LZW.st_w] in *.
    + destruct (LZW.st_w st ++ [c]) eqn:E; [destruct (LZW.st_w st); discriminate|].
      destruct (LZW.st_w st); lia.
    + rewrite List.length_app. simpl.
      destruct (LZW.st_w st) as [|u w] eqn:Hw; [|lia].
      exfalso. destruct Hinv as [Hseed _ _ _].
      apply Hseed in Hc. simpl in Hown.
      apply (has_own_spec _ _ false Hown) in Hc. discriminate.
Qed.

(** X25: [compressLZW] charges 12 bits for each trace step (each step
    emits one code); on an input whose code units are all below 256 there
    are at most as many steps as units, so the compressed size is at most
    one and a half times the original size. *)
Theorem lzw_size_accounting input r :
  LZW.compressLZW input = Some r ->
  compressedSize r = (12 * Z.of_nat (List.length (steps r)))%Z
  /\ originalSize r = (8 * Z.of_nat (List.length input))%Z
  /\ (Forall (fun c => (c < 256)%N) input ->
      List.length (steps r) <= List.length input
      /\ (2 * compressedSize r <= 3 * originalSize r)%Z).
Proof.
  intros Hr. destruct input as [|c input].
  { inversion Hr; subst. simpl. repeat split; lia. }
  unfold LZW.compressLZW, LZW.run in Hr.
  pose proof (lzw_codes_inv_loop (c :: input) _ lzw_codes_inv_init) as Hcodes.
  destruct (LZW.loop (c :: input) _) as [st [|]] eqn:Hloop; [|discriminate].
  cbn [fst] in Hcodes. destruct Hcodes as [_ Hres _ _ _ _].
  inversion Hr; subst. cbn [compressedSize originalSize steps].
  assert (Hflush : List.length (LZW.st_result (LZW.flush st))
                   = List.length (LZW.st_steps (LZW.flush st))
                   /\ List.length (LZW.st_steps (LZW.flush st))
                      = List.length (LZW.st_steps st) + pending st).
  { unfold LZW.flush, pending. destruct (LZW.st_w st); simpl; [lia|].
    rewrite !List.length_app. simpl. lia. }
  destruct Hflush as [Hlen Hsteps]. split; [lia|]. split; [cbn [List.length]; lia|].
  intros Hbytes.
  pose proof (lzw_loop_count (c :: input) _ st 0 Hbytes lzw_inv_init (le_n 0) Hloop) as Hcount.
  rewrite Hlen, Hsteps. cbn [List.length] in *. split; lia.
Qed.

Lemma lzw_size_accounting_witness :
  exists r,
    LZW.compressLZW (js "abababab") = Some r
    /\ compressedSize r = 60%Z
    /\ List.length (steps r) = 5.
Proof.
  eexists. split; [vm_compute; reflexivity|].
  split; [|reflexivity].
  rewrite (proj1 (lzw_size_accounting (js "abababab") _ ltac:(vm_compute; reflexivity))).
  reflexivity.
Defined.

(** ** Tunstall: more than 16 symbols *)

Lemma pos_size_lower p : forall k, (2 ^ Z.of_nat k <= Zpos p)%Z -> k < Pos.size_nat p.
Proof.
  induction p as [p IH|p IH|]; intros k Hk; simpl.
  - destruct k as [|k]; [lia|].
    rewrite Nat2Z.inj_succ, Z.pow_succ_r in Hk by lia.
    specialize (IH k ltac:(lia)). lia.
  - destruct k as [|k]; [lia|].
    rewrite Nat2Z.inj_succ, Z.pow_succ_r in Hk by lia.
    specialize (IH k ltac:(lia)). lia.
  - destruct k as [|k]; [lia|].
    rewrite Nat2Z.inj_succ, Z.pow_succ_r in Hk by lia.
    assert (0 < 2 ^ Z.of_nat k)%Z by (apply Z.pow_pos_nonneg; lia). lia.
Qed.

Lemma pad_index_long (index : nat) :
  16 <= index ->
  4 < List.length (padStart Tunstall.BIT_WIDTH (digit_char 0) (toString2 (Z.of_nat index))).
Proof.
  intros H. unfold padStart. rewrite List.length_app.
  destruct (Z.of_nat index) as [|p|p] eqn:E; [lia| |lia].
  cbn [toString2]. rewrite pos_bits_length.
  pose proof (pos_size_lower p 4 ltac:(simpl; lia)). simpl. lia.
Qed.

Lemma fill_codeMap_untouched dictionary : forall index codeMap k,
  ~ List.In k (List.map Tunstall.seq dictionary) ->
  obj_get k (Tunstall.fill_codeMap index dictionary codeMap) = obj_get k codeMap.
Proof.
  induction dictionary as [|item rest IH]; intros index codeMap k Hnot; simpl in *; [reflexivity|].
  rewrite IH by tauto. apply obj_get_set_ne. intros ->. tauto.
Qed.

Lemma fill_codeMap_get dictionary : forall index codeMap j e,
  List.NoDup (List.map Tunstall.seq dictionary) ->
  List.nth_error dictionary j = Some e ->
  obj_get (Tunstall.seq e) (Tunstall.fill_codeMap index dictionary codeMap)
  = Some (padStart Tunstall.BIT_WIDTH (digit_char 0) (toString2 (Z.of_N (index + N.of_nat j)))).
Proof.
  induction dictionary as [|item rest IH]; intros index codeMap j e Hnd Hj;
    [destruct j; discriminate|].
  simpl in Hnd. inversion Hnd as [|? ? Hnotin Hnd']; subst.
  destruct j as [|j]; simpl in Hj.
  - inversion Hj; subst. simpl. rewrite fill_codeMap_untouched by exact Hnotin.
    rewrite obj_get_set_eq. now rewrite N.add_0_r.
  - simpl. rewrite (IH _ _ j e Hnd' Hj). do 4 f_equal. lia.
Qed.

(** X26: with more than 16 distinct symbols [compressTunstall] returns
    without growing the dictionary: there is one entry per symbol, in the
    order of the alphabet, the symbol of index [i] gets the binary numeral
    of [i] padded to 4 digits, and from index 16 on that code is longer
    than the 4 bits of the fixed width. *)
Theorem tunstall_large_alphabet_overflows input :
  17 <= List.length (alphabet_of input) ->
  exists r dict codeMap,
    (forall fuel, Tunstall.final_dictionary fuel input = Some dict)
    /\ (forall fuel, Tunstall.compressTunstall fuel input = Some r)
    /\ List.map Tunstall.seq dict = alphabet_of input
    /\ dictionary r = Some codeMap
    /\ forall i c,
         List.nth_error (alphabet_of input) i = Some c ->
         obj_get c codeMap = Some (padStart 4 (digit_char 0) (toString2 (Z.of_nat i)))
         /\ (16 <= i ->
             4 < List.length (padStart 4 (digit_char 0) (toString2 (Z.of_nat i)))).
Proof.
  intros Ha.
  destruct (tunstall_terminates input ltac:(lia)) as [r Hr].
  set (freqs := count_freqs (chars_of input)).
  set (total := Z.of_nat (List.length input)).
  set (init := List.map (fun char => Tunstall.mkEntry char (Tunstall.charProb freqs total char))
                        (alphabet_of input)).
  assert (Hseq : List.map Tunstall.seq init = alphabet_of input).
  { unfold init. rewrite List.map_map. simpl. apply List.map_id. }
  assert (Hdict : forall fuel, Tunstall.final_dictionary fuel input = Some init).
  { intros fuel. unfold Tunstall.final_dictionary. fold (alphabet_of input) freqs total init.
    assert (Hcond : Z.leb (Z.of_nat (List.length init)
                           + Z.of_nat (List.length (alphabet_of input)) - 1)
                          Tunstall.MAX_DICT_SIZE = false).
    { apply Z.leb_gt. unfold Tunstall.MAX_DICT_SIZE, Tunstall.BIT_WIDTH, init.
      rewrite List.length_map. change (2 ^ 4)%Z with 16%Z. lia. }
    destruct fuel; simpl; now rewrite Hcond. }
  assert (Hne : input <> []).
  { intros ->. simpl in Ha. lia. }
  destruct input as [|u input]; [contradiction|].
  exists r, init, (Tunstall.fill_codeMap 0 init []).
  assert (Hall : forall fuel, Tunstall.compressTunstall fuel (u :: input) = Some r).
  { intros fuel. specialize (Hr 16 (le_n 16)).
    unfold Tunstall.compressTunstall in *. rewrite Hdict in *. exact Hr. }
  split; [exact Hdict|]. split; [exact Hall|]. split; [exact Hseq|].
  split.
  { specialize (Hall 0). unfold Tunstall.compressTunstall in Hall. rewrite Hdict in Hall.
    destruct (Tunstall.tokenize _ _ _ _ _ _) as [[enc sts]|]; [|discriminate].
    inversion Hall; subst. reflexivity. }
  intros i c Hi. split; [|apply pad_index_long].
  assert (He : exists e, List.nth_error init i = Some e /\ Tunstall.seq e = c).
  { rewrite <- Hseq in Hi. rewrite List.nth_error_map in Hi.
    destruct (List.nth_error init i) as [e|]; [|discriminate].
    inversion Hi; subst. eauto. }
  destruct He as (e & He & <-).
  rewrite (fill_codeMap_get init 0 [] i e); [|rewrite Hseq; apply alphabet_of_NoDup|exact He].
  do 3 f_equal. lia.
Qed.

Lemma tunstall_large_alphabet_overflows_witness :
  exists r codeMap,
    Tunstall.compressTunstall 0 (js "ABCDEFGHIJKLMNOPQR") = Some r
    /\ dictionary r = Some codeMap
    /\ obj_get (js "R") codeMap = Some (js "10001").
Proof.
  destruct (tunstall_large_alphabet_overflows (js "ABCDEFGHIJKLMNOPQR"))
    as (r & dict & codeMap & _ & Hr & _ & Hd & Hcodes).
  { change (List.length (alphabet_of (js "ABCDEFGHIJKLMNOPQR"))) with 18. lia. }
  exists r, codeMap. split; [apply Hr|]. split; [exact Hd|].
  exact (proj1 (Hcodes 17 (js "R") eq_refl)).
Defined.

(** ** Tunstall: the dictionary is a complete prefix code *)

Lemma chars_of_units input :
  Forall (fun u => is_high_surrogate u = false) input ->
  chars_of input = List.map (fun u => [u]) input.
Proof.
  induction input as [|u input IH]; intros H; [reflexivity|].
  inversion H as [|? ? Hu Hrest]; subst. specialize (IH Hrest).
  simpl. destruct input as [|d input]; [reflexivity|].
  rewrite Hu. simpl andb. cbv iota. f_equal. exact IH.
Qed.

Lemma starts_with_prefix (p s : jsstring) : starts_with p s = true <-> is_prefix p s.
Proof.
  split.
  - intros H. exists (List.skipn (List.length p) s). now apply starts_with_split.
  - intros [t ->]. induction p as [|x p IH]; simpl; [reflexivity|].
    now rewrite N.eqb_refl.
Qed.

Lemma is_prefix_snoc (s b : jsstring) (u : N) :
  is_prefix s (b ++ [u]) -> is_prefix s b \/ s = b ++ [u].
Proof.
  intros [t Ht]. destruct t as [|y t]; [right|left].
  - now rewrite List.app_nil_r in Ht.
  - destruct (@List.exists_last _ (y :: t) ltac:(discriminate)) as [t' [x Hx]].
    rewrite Hx, List.app_assoc in Ht. apply List.app_inj_tail in Ht as [Hb _].
    exists t'. exact Hb.
Qed.

Lemma is_prefix_app (b c : jsstring) : is_prefix b (b ++ c).
Proof. now exists c. Qed.

Lemma is_prefix_trans (a b c : jsstring) : is_prefix a b -> is_prefix b c -> is_prefix a c.
Proof. intros [t ->] [t' ->]. exists (t ++ t'). now rewrite List.app_assoc. Qed.

Lemma prefix_code_perm l l' : Permutation l l' -> prefix_code l -> prefix_code l'.
Proof.
  intros HP [Hnd Hpre]. split; [eapply Permutation_NoDup; eassumption|].
  intros s t Hs Ht. apply Hpre; (eapply Permutation_in; [symmetry; exact HP|assumption]).
Qed.

Lemma complete_code_perm alphabet l l' :
  Permutation l l' -> complete_code alphabet l -> complete_code alphabet l'.
Proof.
  intros HP Hc text Htext.
  destruct (Hc text Htext) as [(s & Hs & H)|(s & Hs & H)]; [left|right];
    exists s; (split; [eapply Permutation_in; eassumption|exact H]).
Qed.

Lemma NoDup_map_extend (b : jsstring) (alphabet : list jsstring) :
  List.NoDup alphabet -> List.NoDup (List.map (fun c => b ++ c) alphabet).
Proof.
  induction 1 as [|c l Hnotin Hnd IH]; simpl; constructor; [|exact IH].
  intros Hin. apply List.in_map_iff in Hin as (c' & Heq & Hc').
  apply List.app_inv_head in Heq. now subst.
Qed.

Lemma expand_prefix_code alphabet b rest :
  Forall (fun c => exists u, c = [u]) alphabet ->
  List.NoDup alphabet ->
  prefix_code (b :: rest) ->
  prefix_code (rest ++ List.map (fun c => b ++ c) alphabet).
Proof.
  intros Hsingle Hnda [Hnd Hpre]. rewrite List.Forall_forall in Hsingle.
  inversion Hnd as [|? ? Hb Hrest]; subst.
  assert (Hbrest : forall t, List.In t rest -> is_prefix b t -> False).
  { intros t Ht Hp. apply Hb. rewrite (Hpre b t); simpl; auto. }
  split.
  - apply List.NoDup_app; [exact Hrest|now apply NoDup_map_extend|].
    intros s Hs Hnew. apply List.in_map_iff in Hnew as (c & <- & _).
    apply (Hbrest _ Hs). apply is_prefix_app.
  - intros s t Hs Ht Hp.
    apply List.in_app_or in Hs as [Hs|Hs]; apply List.in_app_or in Ht as [Ht|Ht].
    + apply Hpre; simpl; auto.
    + apply List.in_map_iff in Ht as (c & <- & Hc).
      destruct (Hsingle c Hc) as [u ->].
      apply is_prefix_snoc in Hp as [Hp|Hp]; [|exact Hp].
      exfalso. apply Hb. rewrite <- (Hpre s b); simpl; auto.
    + apply List.in_map_iff in Hs as (c & <- & Hc).
      exfalso. apply (Hbrest _ Ht). eapply is_prefix_trans; [apply is_prefix_app|exact Hp].
    + apply List.in_map_iff in Hs as (c1 & <- & Hc1).
      apply List.in_map_iff in Ht as (c2 & <- & Hc2).
      destruct (Hsingle c1 Hc1) as [u1 ->]. destruct (Hsingle c2 Hc2) as [u2 ->].
      destruct Hp as [x Hx]. rewrite <- List.app_assoc in Hx.
      apply List.app_inv_head in Hx. inversion Hx. reflexivity.
Qed.

Lemma expand_complete alphabet b rest :
  Forall (fun c => exists u, c = [u]) alphabet ->
  alphabet <> [] ->
  complete_code alphabet (b :: rest) ->
  complete_code alphabet (rest ++ List.map (fun c => b ++ c) alphabet).
Proof.
  intros Hsingle Hne Hc text Htext.
  destruct alphabet as [|c0 alphabet'] eqn:Ha; [contradiction|]. rewrite <- Ha in *.
  assert (Hc0 : List.In c0 alphabet) by (rewrite Ha; now left).
  assert (Hc0ne : c0 <> []).
  { rewrite List.Forall_forall in Hsingle. destruct (Hsingle c0 Hc0) as [u ->]. discriminate. }
  assert (Hnew : forall c, List.In c alphabet ->
             List.In (b ++ c) (rest ++ List.map (fun c => b ++ c) alphabet)).
  { intros c Hin. apply List.in_or_app. right. apply List.in_map_iff. eauto. }
  destruct (Hc text Htext) as [(s & [<-|Hs] & Hp)|(s & [<-|Hs] & Hp)].
  - destruct Hp as [t ->]. destruct t as [|u t].
    + right. exists (b ++ c0). split; [now apply Hnew|].
      exists c0. split; [exact Hc0ne|]. now rewrite List.app_nil_r.
    + left. exists (b ++ [u]). split.
      * apply Hnew. apply List.Forall_app in Htext as [_ Ht]. now inversion Ht.
      * exists t. now rewrite <- List.app_assoc.
  - left. exists s. split; [apply List.in_or_app; now left|exact Hp].
  - right. exists (b ++ c0). split; [now apply Hnew|].
    destruct Hp as (t & Ht & ->). exists (t ++ c0). split.
    + destruct t; [contradiction|discriminate].
    + now rewrite List.app_assoc.
  - right. exists s. split; [apply List.in_or_app; now left|exact Hp].
Qed.

Lemma expand_seqs freqs total alphabet best :
  List.map Tunstall.seq (Tunstall.expand freqs total alphabet best)
  = List.map (fun c => Tunstall.seq best ++ c) alphabet.
Proof. unfold Tunstall.expand. rewrite List.map_map. reflexivity. Qed.

Lemma grow_code freqs total alphabet fuel : forall dictionary d,
  Forall (fun c => exists u, c = [u]) alphabet ->
  List.NoDup alphabet ->
  alphabet <> [] ->
  prefix_code (List.map Tunstall.seq dictionary) ->
  complete_code alphabet (List.map Tunstall.seq dictionary) ->
  Tunstall.grow fuel freqs total alphabet dictionary = Some d ->
  prefix_code (List.map Tunstall.seq d) /\ complete_code alphabet (List.map Tunstall.seq d).
Proof.
  induction fuel as [|fuel IH]; intros dictionary d Hs Hnd Hne Hp Hc Hrun; simpl in Hrun.
  - destruct (Z.leb _ _); [discriminate|]. inversion Hrun; subst. auto.
  - destruct (Z.leb _ _); [|inversion Hrun; subst; auto].
    pose proof (stable_sort_perm Tunstall.by_prob dictionary) as HP.
    apply (Permutation_map Tunstall.seq) in HP.
    destruct (stable_sort Tunstall.by_prob dictionary) as [|best rest].
    + inversion Hrun; subst. split.
      * eapply prefix_code_perm; eassumption.
      * eapply complete_code_perm; eassumption.
    + apply (IH (rest ++ Tunstall.expand freqs total alphabet best) d); try assumption.
      * rewrite List.map_app, expand_seqs. apply expand_prefix_code; try assumption.
        eapply prefix_code_perm; eassumption.
      * rewrite List.map_app, expand_seqs. apply expand_complete; try assumption.
        eapply complete_code_perm; eassumption.
Qed.

Lemma alphabet_prefix_code alphabet :
  Forall (fun c => exists u, c = [u]) alphabet ->
  List.NoDup alphabet ->
  alphabet <> [] ->
  prefix_code alphabet /\ complete_code alphabet alphabet.
Proof.
  intros Hs Hnd Hne. rewrite List.Forall_forall in Hs. split.
  - split; [exact Hnd|]. intros s t Hin Hit [x Hx].
    destruct (Hs s Hin) as [u ->]. destruct (Hs t Hit) as [v ->].
    inversion Hx. reflexivity.
  - intros text Htext. destruct text as [|u text].
    + right. destruct alphabet as [|c0 l]; [contradiction|].
      exists c0. split; [now left|]. exists c0. split; [|reflexivity].
      destruct (Hs c0 ltac:(now left)) as [u ->]. discriminate.
    + left. exists [u]. split; [now inversion Htext|]. now exists text.
Qed.

Lemma alphabet_of_units input :
  Forall (fun u => is_high_surrogate u = false) input ->
  Forall (fun c => exists u, c = [u]) (alphabet_of input)
  /\ forall u, List.In u input -> List.In [u] (alphabet_of input).
Proof.
  intros H. pose proof (chars_of_units input H) as Hchars. split.
  - apply List.Forall_forall. intros c Hc. apply alphabet_of_in in Hc.
    rewrite Hchars in Hc. apply List.in_map_iff in Hc as (u & <- & _). eauto.
  - intros u Hu. apply alphabet_of_in. rewrite Hchars. apply List.in_map_iff. eauto.
Qed.

Lemma final_dictionary_code fuel input dict :
  input <> [] ->
  Forall (fun u => is_high_surrogate u = false) input ->
  Tunstall.final_dictionary fuel input = Some dict ->
  prefix_code (List.map Tunstall.seq dict)
  /\ complete_code (alphabet_of input) (List.map Tunstall.seq dict).
Proof.
  intros Hne Hunits Hrun. unfold Tunstall.final_dictionary in Hrun.
  fold (alphabet_of input) in Hrun.
  destruct (alphabet_of_units input Hunits) as [Hs _].
  assert (Hane : alphabet_of input <> []).
  { pose proof (count_freqs_nonempty input Hne) as Hf. unfold alphabet_of.
    destruct (count_freqs (chars_of input)); [contradiction|discriminate]. }
  destruct (alphabet_prefix_code _ Hs (alphabet_of_NoDup input) Hane) as [Hp Hc].
  eapply grow_code; try eassumption; try apply alphabet_of_NoDup;
    rewrite List.map_map; simpl; rewrite List.map_id; assumption.
Qed.

Lemma prefixes_comparable (a : jsstring) : forall b c,
  is_prefix a c -> is_prefix b c -> is_prefix a b \/ is_prefix b a.
Proof.
  induction a as [|x a IH]; intros b c Ha Hb; [left; now exists b|].
  destruct b as [|y b]; [right; now exists (x :: a)|].
  destruct Ha as [ta Hta]. destruct Hb as [tb Htb]. subst c.
  simpl in Htb. inversion Htb as [[Hxy Hrest]].
  destruct (IH b (a ++ ta)) as [[t ->]|[t ->]].
  - now exists ta.
  - exists tb. now symmetry.
  - left. now exists t.
  - right. now exists t.
Qed.

Lemma prefix_code_ext l l' :
  List.NoDup l' -> (forall k, List.In k l' -> List.In k l) -> prefix_code l -> prefix_code l'.
Proof. intros Hnd Hsub [_ Hpre]. split; [exact Hnd|]. intros s t Hs Ht. apply Hpre; auto. Qed.

Lemma complete_code_ext alphabet l l' :
  (forall k, List.In k l -> List.In k l') -> complete_code alphabet l -> complete_code alphabet l'.
Proof.
  intros Hsub Hc text Htext.
  destruct (Hc text Htext) as [(s & Hs & H)|(s & Hs & H)]; [left|right]; exists s; auto.
Qed.

Lemma fill_codeMap_keys_rev dictionary : forall index codeMap k,
  List.In k (List.map Tunstall.seq dictionary) \/ List.In k (obj_keys codeMap) ->
  List.In k (obj_keys (Tunstall.fill_codeMap index dictionary codeMap)).
Proof.
  induction dictionary as [|item rest IH]; intros index codeMap k H; simpl in *; [tauto|].
  apply IH. destruct H as [[H|H]|H].
  - right. apply obj_keys_set_in. now left.
  - now left.
  - right. apply obj_keys_set_in. now right.
Qed.

Lemma fill_codeMap_NoDup dictionary : forall index codeMap,
  List.NoDup (obj_keys codeMap) ->
  List.NoDup (obj_keys (Tunstall.fill_codeMap index dictionary codeMap)).
Proof.
  induction dictionary as [|item rest IH]; intros index codeMap H; simpl; [exact H|].
  apply IH. now apply obj_keys_set_NoDup.
Qed.

Lemma codeMap_code fuel input dict :
  input <> [] ->
  Forall (fun u => is_high_surrogate u = false) input ->
  Tunstall.final_dictionary fuel input = Some dict ->
  prefix_code (obj_keys (Tunstall.fill_codeMap 0 dict []))
  /\ complete_code (alphabet_of input) (obj_keys (Tunstall.fill_codeMap 0 dict [])).
Proof.
  intros Hne Hunits Hdict.
  destruct (final_dictionary_code fuel input dict Hne Hunits Hdict) as [Hp Hc]. split.
  - eapply prefix_code_ext; [| |exact Hp].
    + apply fill_codeMap_NoDup. constructor.
    + intros k Hk. apply fill_codeMap_keys in Hk as [Hk|[]]. exact Hk.
  - eapply complete_code_ext; [|exact Hc].
    intros k Hk. apply fill_codeMap_keys_rev. now left.
Qed.

Lemma codeMap_bits dict k code :
  obj_get k (Tunstall.fill_codeMap 0 dict []) = Some code -> Forall is_bit code.
Proof.
  intros H. apply fill_codeMap_codes in H as [H|(j & e & _ & _ & ->)]; [discriminate|].
  apply padStart_bits, toString2_bits. lia.
Qed.

Lemma find_starts_with (keys : list jsstring) (rest : jsstring) :
  match List.find (fun seq => starts_with seq rest) keys with
  | Some seq => List.In seq keys /\ starts_with seq rest = true
  | None => forall k, List.In k keys -> starts_with k rest = false
  end.
Proof.
  destruct (List.find _ keys) as [seq|] eqn:E.
  - now apply List.find_some in E.
  - intros k Hk. exact (List.find_none _ _ E k Hk).
Qed.

Lemma tokenize_trace_ok keys codeMap alphabet fuel : forall rest enc sts enc' sts',
  (forall k code, obj_get k codeMap = Some code -> Forall is_bit code) ->
  (forall k, List.In k keys -> List.In k (obj_keys codeMap)) ->
  complete_code alphabet keys ->
  Forall (fun u => List.In [u] alphabet) rest ->
  Tunstall.tokenize fuel keys codeMap rest enc sts = Some (enc', sts') ->
  exists new, sts' = sts ++ new /\ trace_ok keys new rest.
Proof.
  induction fuel as [|fuel IH]; intros rest enc sts enc' sts' Hbits Hkeys Hc Hrest Hrun.
  - destruct rest; simpl in Hrun; [|discriminate]. inversion Hrun; subst.
    exists []. split; [now rewrite List.app_nil_r|reflexivity].
  - destruct rest as [|c rest].
    { simpl in Hrun. inversion Hrun; subst.
      exists []. split; [now rewrite List.app_nil_r|reflexivity]. }
    cbn [Tunstall.tokenize] in Hrun.
    pose proof (find_starts_with keys (c :: rest)) as Hfind.
    destruct (List.find _ keys) as [seq|].
    + destruct Hfind as [Hin Hstart].
      pose proof (starts_with_split _ _ Hstart) as Hsplit.
      set (rest' := List.skipn (List.length seq) (c :: rest)) in *. clearbody rest'.
      rewrite Hsplit in Hrest. apply List.Forall_app in Hrest as [_ Hrest'].
      apply IH in Hrun as (new & -> & Hnew); trivial.
      eexists (_ :: new). split; [rewrite <- List.app_assoc; reflexivity|].
      cbn [trace_ok Tunstall.step_seq Tunstall.code]. exists rest'. split; [exact Hsplit|].
      split; [|exact Hnew]. left. split; [exact Hin|].
      destruct (obj_get seq codeMap) as [code|] eqn:Hcode.
      * simpl. eapply Hbits; eassumption.
      * apply obj_get_None_keys in Hcode. exfalso. auto.
    + assert (Hrest' : Forall (fun u => List.In [u] alphabet) rest) by now inversion Hrest.
      cbn [List.skipn] in Hrun.
      apply IH in Hrun as (new & -> & Hnew); trivial.
      eexists (_ :: new). split; [rewrite <- List.app_assoc; reflexivity|].
      cbn [trace_ok Tunstall.step_seq Tunstall.code]. exists rest. split; [reflexivity|].
      split; [|exact Hnew]. right. split; [reflexivity|].
      destruct (Hc (c :: rest) Hrest) as [(s & Hs & Hp)|H]; [|exact H].
      apply starts_with_prefix in Hp. rewrite (Hfind s Hs) in Hp. discriminate.
Qed.

Lemma trace_ok_ext (l l' : list jsstring) new : forall rest,
  (forall k, List.In k l -> List.In k l') -> trace_ok l new rest -> trace_ok l' new rest.
Proof.
  induction new as [|s new IH]; intros rest Hsub H; [exact H|].
  cbn [trace_ok] in *. destruct H as (rest' & Heq & Hstep & Hnew).
  exists rest'. split; [exact Heq|]. split; [|now apply IH].
  destruct Hstep as [[Hin Hb]|[Herr (k & Hk & Hp)]]; [left; auto|right].
  split; [exact Herr|]. exists k. auto.
Qed.

(** X28: on a text with two or more distinct symbols and no
    high-surrogate unit (every symbol is then one code unit),
    [compressTunstall] returns, and the keys of the dictionary it returns
    form a complete prefix code over the symbols of the text: they are
    distinct, none is a prefix of another, every text over those symbols
    starts with a key or stops inside one, and so at most one key matches
    at any position (the order [sortedKeys] tries them in does not change
    which one is found). *)
Theorem tunstall_dictionary_is_a_complete_prefix_code input :
  2 <= List.length (alphabet_of input) ->
  Forall (fun u => is_high_surrogate u = false) input ->
  exists r codeMap,
    (forall fuel, 16 <= fuel -> Tunstall.compressTunstall fuel input = Some r)
    /\ dictionary r = Some codeMap
    /\ prefix_code (obj_keys codeMap)
    /\ complete_code (alphabet_of input) (obj_keys codeMap)
    /\ forall text s t,
         List.In s (obj_keys codeMap) -> List.In t (obj_keys codeMap) ->
         is_prefix s text -> is_prefix t text -> s = t.
Proof.
  intros Ha Hunits. destruct (tunstall_terminates input Ha) as [r Hr].
  pose proof (two_symbols_nonempty input Ha) as Hne.
  pose proof (Hr 16 (le_n 16)) as Hrun.
  destruct input as [|c input]; [contradiction|].
  unfold Tunstall.compressTunstall in Hrun.
  destruct (Tunstall.final_dictionary 16 (c :: input)) as [dict|] eqn:Hdict; [|discriminate].
  destruct (Tunstall.tokenize _ _ _ _ _ _) as [[enc sts]|]; [|discriminate].
  destruct (codeMap_code 16 (c :: input) dict Hne Hunits Hdict) as [Hp Hc].
  exists r, (Tunstall.fill_codeMap 0 dict []). split; [exact Hr|].
  split; [now inversion Hrun|]. split; [exact Hp|]. split; [exact Hc|].
  intros text s t Hs Ht Hps Hpt. destruct Hp as [_ Hpre].
  destruct (prefixes_comparable s t text Hps Hpt) as [H|H].
  - now apply Hpre.
  - symmetry. now apply Hpre.
Qed.

Lemma tunstall_dictionary_is_a_complete_prefix_code_witness :
  exists r codeMap,
    Tunstall.compressTunstall 16 (js "ABAAB") = Some r
    /\ dictionary r = Some codeMap
    /\ prefix_code (obj_keys codeMap)
    /\ complete_code (alphabet_of (js "ABAAB")) (obj_keys codeMap).
Proof.
  destruct (tunstall_dictionary_is_a_complete_prefix_code (js "ABAAB"))
    as (r & codeMap & Hr & Hd & Hp & Hc & _).
  - change (List.length (alphabet_of (js "ABAAB"))) with 2. lia.
  - repeat constructor.
  - exists r, codeMap. split; [apply Hr; lia|]. auto.
Defined.

(** X29: on a text with two or more distinct symbols and no
    high-surrogate unit, [compressTunstall] returns, and its steps split
    the text from left to right; a step whose sequence is a dictionary key
    carries a code of binary digits, and an ["ERR"] step occurs only where
    what is left of the text is a proper prefix of a dictionary key, that
    is, at the end of the text. *)
Theorem tunstall_err_only_inside_a_key input :
  2 <= List.length (alphabet_of input) ->
  Forall (fun u => is_high_surrogate u = false) input ->
  exists r codeMap,
    (forall fuel, 16 <= fuel -> Tunstall.compressTunstall fuel input = Some r)
    /\ dictionary r = Some codeMap
    /\ trace_ok (obj_keys codeMap) (steps r) input.
Proof.
  intros Ha Hunits. destruct (tunstall_terminates input Ha) as [r Hr].
  pose proof (two_symbols_nonempty input Ha) as Hne.
  pose proof (Hr 16 (le_n 16)) as Hrun.
  destruct input as [|c input]; [contradiction|].
  unfold Tunstall.compressTunstall in Hrun.
  destruct (Tunstall.final_dictionary 16 (c :: input)) as [dict|] eqn:Hdict; [|discriminate].
  destruct (Tunstall.tokenize _ _ _ _ _ _) as [[enc sts]|] eqn:Htok; [|discriminate].
  destruct (codeMap_code 16 (c :: input) dict Hne Hunits Hdict) as [Hp Hc].
  exists r, (Tunstall.fill_codeMap 0 dict []). split; [exact Hr|].
  inversion Hrun; subst. cbn [dictionary steps]. split; [reflexivity|].
  set (codeMap := Tunstall.fill_codeMap 0 dict []) in *.
  pose proof (stable_sort_perm Tunstall.by_length (obj_keys codeMap)) as HP.
  eapply tokenize_trace_ok with (alphabet := alphabet_of (c :: input)) in Htok.
  - destruct Htok as (new & -> & Hnew). simpl.
    eapply trace_ok_ext; [|exact Hnew].
    intros k Hk. eapply Permutation_in; [symmetry; exact HP|exact Hk].
  - intros k code. apply codeMap_bits.
  - intros k Hk. eapply Permutation_in; [symmetry; exact HP|exact Hk].
  - eapply complete_code_perm; eassumption.
  - apply List.Forall_forall. intros u Hu.
    now apply (proj2 (alphabet_of_units (c :: input) Hunits)).
Qed.

Lemma tunstall_err_only_inside_a_key_witness :
  exists r codeMap,
    Tunstall.compressTunstall 16 (js "ABAABA") = Some r
    /\ List.map Tunstall.code (steps r) = [js "0000"; js "ERR"; js "ERR"]
    /\ dictionary r = Some codeMap
    /\ trace_ok (obj_keys codeMap) (steps r) (js "ABAABA").
Proof.
  destruct (tunstall_err_only_inside_a_key (js "ABAABA")) as (r & codeMap & Hr & Hd & Ht).
  - change (List.length (alphabet_of (js "ABAABA"))) with 2. lia.
  - repeat constructor.
  - exists r, codeMap. split; [apply Hr; lia|]. split; [|auto].
    specialize (Hr 16 (le_n 16)). vm_compute in Hr. injection Hr as <-. reflexivity.
Defined.
